(** * LTemplate.h: typed views over LibraryLink tensors, sparse arrays and images

    A shallow embedding of [src/LTemplate/IncludeFiles/LTemplate.h]
    (namespace [mma]).  [mint] is a signed machine integer whose overflow is
    undefined in C++; every index that occurs below is bounded by a buffer
    length, so [mint] values are modelled as [Z].  A read or write outside a
    buffer, and a non-void function that ends without [return], have no
    defined result in C++: the model gives them the outcome [Undefined]. *)

From stdpp Require Import base list gmap strings.
From Stdlib Require Import ZArith Lia.
Local Open Scope Z_scope.
Set Implicit Arguments.

(** ** LibraryError and the outcome of a call *)

(** The exit code [LIBRARY_FUNCTION_ERROR] of WolframLibrary.h. *)
Definition LIBRARY_FUNCTION_ERROR : Z := 6.

(** [class LibraryError]: message, whether there is one, exit code. *)
Record LibraryError := mkLibraryError {
  msg : string;
  has_msg : bool;
  err_code : Z
}.

(** [LibraryError(std::string s, int err = LIBRARY_FUNCTION_ERROR)] *)
Definition LibraryError_msg (s : string) (err : Z) : LibraryError :=
  {| msg := s; has_msg := true; err_code := err |}.

(** [explicit LibraryError(int err = LIBRARY_FUNCTION_ERROR)] *)
Definition LibraryError_code (err : Z) : LibraryError :=
  {| msg := ""; has_msg := false; err_code := err |}.

(** What a call does: it returns, it throws a [LibraryError], or its
    behaviour is undefined. *)
Inductive outcome (A : Type) : Type :=
| Ret (a : A)
| Throw (e : LibraryError)
| Undefined.
Arguments Ret {A} a.
Arguments Throw {A} e.
Arguments Undefined {A}.

Global Instance outcome_ret : MRet outcome := λ A a, Ret a.
Global Instance outcome_bind : MBind outcome := λ A B f m,
  match m with
  | Ret a => f a
  | Throw e => Throw e
  | Undefined => Undefined
  end.

(** [T & operator [] (mint i) const { return tensor_data[i]; }] on a buffer
    of [length d] elements. *)
Definition tensor_at {A : Type} (d : list A) (i : Z) : outcome A :=
  if 0 <=? i then
    match d !! Z.to_nat i with
    | Some x => Ret x
    | None => Undefined
    end
  else Undefined.

(** [tensor_data[i] = x] through the reference [operator []] returns. *)
Definition tensor_set {A : Type} (d : list A) (i : Z) (x : A) : outcome (list A) :=
  if 0 <=? i then
    if i <? Z.of_nat (length d) then Ret (<[Z.to_nat i := x]> d) else Undefined
  else Undefined.

(** ** std::lower_bound over a buffer of column indices

    Pointers into the buffer are offsets.  The loop is the one of the
    standard library:
    [len = last - first; while (len > 0) { half = len >> 1; middle = first + half;
      if ( *middle < val) { first = middle + 1; len = len - half - 1; } else len = half; }
     return first;]
    [len] decreases at each turn, so [Z.to_nat len] turns are enough. *)
Fixpoint lower_bound_loop (fuel : nat) (d : list Z) (first len val : Z) : outcome Z :=
  match fuel with
  | O => Ret first
  | S fuel' =>
      if 0 <? len then
        let half := Z.shiftr len 1 in
        let middle := first + half in
        x ← tensor_at d middle;
        if x <? val
        then lower_bound_loop fuel' d (middle + 1) (len - half - 1) val
        else lower_bound_loop fuel' d first half val
      else Ret first
  end.

Definition lower_bound (d : list Z) (first last val : Z) : outcome Z :=
  lower_bound_loop (Z.to_nat (last - first)) d first (last - first) val.

(** ** detail::transposedCopy

    [for (mint i=0; i < ncol; ++i) for (mint j=0; j < nrow; ++j)
       to[i + j*ncol] = from[j + i*nrow];]
    on a source buffer [from] and a destination buffer [to]; [conv] is the
    conversion of the assignment from the source's element type to the
    destination's. *)
Section TransposedCopy.

Variables A B : Type.
Variable conv : A -> B.

Fixpoint transposedCopy_rows (from : list A) (to : list B) (nrow ncol i : Z) (js : list Z)
  : outcome (list B) :=
  match js with
  | [] => Ret to
  | j :: js' =>
      x ← tensor_at from (j + i * nrow);
      to' ← tensor_set to (i + j * ncol) (conv x);
      transposedCopy_rows from to' nrow ncol i js'
  end.

Fixpoint transposedCopy_cols (from : list A) (to : list B) (nrow ncol : Z) (cs : list Z)
  : outcome (list B) :=
  match cs with
  | [] => Ret to
  | i :: cs' =>
      to' ← transposedCopy_rows from to nrow ncol i (seqZ 0 nrow);
      transposedCopy_cols from to' nrow ncol cs'
  end.

Definition transposedCopy (from : list A) (to : list B) (nrow ncol : Z) : outcome (list B) :=
  transposedCopy_cols from to nrow ncol (seqZ 0 ncol).

End TransposedCopy.

Section Tensors.

(** The element type [T] of the template, the host tag [libraryType<T>()]
    and the value the host fills a fresh tensor of that type with. *)
Variable T : Type.
Variable T_type : Z.
Variable T_zero : T.

(** [massert] is a no-op when [NDEBUG] is defined. *)
Variable NDEBUG : bool.

(** ** The host array runtime (libData)

    A host tensor has a type tag, dimensions and cells; integer tensors hold
    [IntCell], tensors of the template's type hold [ElemCell].
    [MType_Integer] is the tag of WolframLibrary.h for [mint] elements. *)
Definition MType_Integer : Z := 2.

Inductive cell : Type :=
| IntCell (z : Z)
| ElemCell (x : T).

Record tensor_obj := mkTensor {
  t_type : Z;
  t_dims : list Z;
  t_data : list cell
}.

(** [MTensor] is a pointer type: [None] is [NULL], [Some t] a handle. *)
Definition MTensor : Type := option positive.

(** The four CSR components the accessors of WolframSparseLibrary.h hand
    out, with the sparse array's dimensions; a component the host reports as
    [NULL] is [None].  The component tensors belong to the sparse array and
    are freed with it, so they are kept in the object itself. *)
Record MSparseArray := mkMSparseArray {
  sp_dims : list Z;
  sp_rowPointers : list Z;
  sp_columnIndices : option (list Z);
  sp_explicitValues : option (list T);
  sp_implicitValue : T
}.

(** The results of the host's sparse constructors, which the header treats
    as black boxes: what [MSparseArray_fromExplicitPositions],
    [MSparseArray_resetImplicitValue] and [MSparseArray_getExplicitPositions]
    produce when they succeed. *)
Record WolframLibraryData := mkLibData {
  host_fromExplicitPositions :
    tensor_obj -> tensor_obj -> tensor_obj -> tensor_obj -> MSparseArray;
  host_resetImplicitValue : MSparseArray -> tensor_obj -> MSparseArray;
  host_getExplicitPositions : MSparseArray -> tensor_obj
}.

Variable libData : WolframLibraryData.

(** The state of the host: the live tensors, the next fresh handle, and the
    error codes its next fallible calls will return (0 is success, as is an
    exhausted list). *)
Record host := mkHost {
  tensors : gmap positive tensor_obj;
  next : positive;
  host_errors : list Z
}.

(** A call into the library: it may change the host and ends in an outcome.
    The host state survives a [Throw]: nothing unwinds host allocations. *)
Definition M (A : Type) : Type := host -> outcome A * host.

Global Instance M_ret : MRet M := λ A a h, (Ret a, h).
Global Instance M_bind : MBind M := λ A B f m h,
  match m h with
  | (Ret a, h') => f a h'
  | (Throw e, h') => (Throw e, h')
  | (Undefined, h') => (Undefined, h')
  end.

Definition throw {A : Type} (e : LibraryError) : M A := λ h, (Throw e, h).
Definition undefined {A : Type} : M A := λ h, (Undefined, h).
Definition lift {A : Type} (o : outcome A) : M A := λ h, (o, h).

(** The error code of the next fallible host call. *)
Definition host_call_status : M Z := λ h,
  (Ret (default 0 (head (host_errors h))),
   {| tensors := tensors h; next := next h; host_errors := tail (host_errors h) |}).

Definition flattened_length (dims : list Z) : Z := foldr Z.mul 1 dims.

Definition zero_cell (type : Z) : cell :=
  if type =? T_type then ElemCell T_zero else IntCell 0.

(** Register a tensor under a fresh handle. *)
Definition host_alloc (obj : tensor_obj) : M MTensor := λ h,
  (Ret (Some (next h)),
   {| tensors := <[next h := obj]> (tensors h);
      next := Pos.succ (next h);
      host_errors := host_errors h |}).

(** [int MTensor_new(type, rank, dims, &res)]: the pair of the returned code
    and of what [res] holds afterwards when it was [NULL] before. *)
Definition MTensor_new (type : Z) (dims : list Z) : M (Z * MTensor) :=
  err ← host_call_status;
  if err =? 0 then
    t ← host_alloc {| t_type := type; t_dims := dims;
                      t_data := replicate (Z.to_nat (flattened_length dims)) (zero_cell type) |};
    mret (0, t)
  else mret (err, None).

Definition host_tensor (t : MTensor) : M tensor_obj := λ h,
  match t with
  | Some p =>
      match tensors h !! p with
      | Some obj => (Ret obj, h)
      | None => (Undefined, h)
      end
  | None => (Undefined, h)
  end.

(** [MTensor_free(t)]: the handle is live before and gone afterwards. *)
Definition MTensor_free (t : MTensor) : M unit := λ h,
  match t with
  | Some p =>
      match tensors h !! p with
      | Some _ => (Ret tt, {| tensors := delete p (tensors h); next := next h;
                              host_errors := host_errors h |})
      | None => (Undefined, h)
      end
  | None => (Undefined, h)
  end.

Definition MTensor_getRank (t : MTensor) : M Z :=
  obj ← host_tensor t; mret (Z.of_nat (length (t_dims obj))).

Definition MTensor_getDimensions (t : MTensor) : M (list Z) :=
  obj ← host_tensor t; mret (t_dims obj).

Definition MTensor_getFlattenedLength (t : MTensor) : M Z :=
  obj ← host_tensor t; mret (Z.of_nat (length (t_data obj))).

(** [getData(t)[i] = c] *)
Definition tensor_write (t : MTensor) (i : Z) (c : cell) : M unit := λ h,
  match t with
  | Some p =>
      match tensors h !! p with
      | Some obj =>
          match tensor_set (t_data obj) i c with
          | Ret d =>
              (Ret tt,
               {| tensors := <[p := {| t_type := t_type obj; t_dims := t_dims obj;
                                       t_data := d |}]> (tensors h);
                  next := next h; host_errors := host_errors h |})
          | _ => (Undefined, h)
          end
      | None => (Undefined, h)
      end
  | None => (Undefined, h)
  end.

(** [massert(condition)]: [(void)0] under [NDEBUG]; otherwise a failed
    condition reports through [message] (the logging channel, not modelled)
    and throws [LibraryError()]. *)
Definition massert (condition : bool) : M unit :=
  if NDEBUG then mret tt
  else if condition then mret tt
  else throw (LibraryError_code LIBRARY_FUNCTION_ERROR).

(** ** TensorRef and MatrixRef: the handle [t] and the cached [len] *)
Record TensorRef := mkTensorRef {
  tensor : MTensor;
  len : Z
}.

(** [TensorRef(const MTensor &mt)] *)
Definition TensorRef_of (mt : MTensor) : M TensorRef :=
  n ← MTensor_getFlattenedLength mt;
  mret {| tensor := mt; len := n |}.

Definition TensorRef_rank (tr : TensorRef) : M Z := MTensor_getRank (tensor tr).
Definition TensorRef_size (tr : TensorRef) : Z := len tr.
Definition TensorRef_dimensions (tr : TensorRef) : M (list Z) :=
  MTensor_getDimensions (tensor tr).

Record MatrixRef := mkMatrixRef {
  mr_ref : TensorRef;
  mr_nrows : Z;
  mr_ncols : Z
}.

(** [MatrixRef(const TensorRef<T> &tr)] *)
Definition MatrixRef_of (tr : TensorRef) : M MatrixRef :=
  r ← TensorRef_rank tr;
  if negb (r =? 2) then
    throw (LibraryError_msg "MatrixRef: Matrix expected." LIBRARY_FUNCTION_ERROR)
  else
    dims ← TensorRef_dimensions tr;
    nr ← lift (tensor_at dims 0);
    nc ← lift (tensor_at dims 1);
    mret {| mr_ref := tr; mr_nrows := nr; mr_ncols := nc |}.

Definition MatrixRef_rows (m : MatrixRef) : Z := mr_nrows m.
Definition MatrixRef_cols (m : MatrixRef) : Z := mr_ncols m.

(** [makeTensor<U>(dims)], with [type = libraryType<U>()] *)
Definition makeTensor (type : Z) (dims : list Z) : M TensorRef :=
  '(err, t) ← MTensor_new type dims;
  if negb (err =? 0) then throw (LibraryError_msg "MTensor_new() failed." err)
  else TensorRef_of t.

(** [makeMatrix<U>(nrow, ncol)] *)
Definition makeMatrix (type : Z) (nrow ncol : Z) : M MatrixRef :=
  tr ← makeTensor type [nrow; ncol];
  MatrixRef_of tr.

(** The loops of [makeMatrix(std::initializer_list<std::initializer_list<T>> m)];
    [ptr] is an offset into the data of [t]. *)
Fixpoint makeMatrix_row (t : MTensor) (ptr : Z) (row : list T) : M Z :=
  match row with
  | [] => mret ptr
  | el :: row' =>
      tensor_write t ptr (ElemCell el);;
      makeMatrix_row t (ptr + 1) row'
  end.

Fixpoint makeMatrix_rows (t : MatrixRef) (ptr : Z) (m : list (list T)) : M Z :=
  match m with
  | [] => mret ptr
  | row :: m' =>
      massert (Z.of_nat (length row) =? MatrixRef_cols t);;
      ptr' ← makeMatrix_row (tensor (mr_ref t)) ptr row;
      makeMatrix_rows t ptr' m'
  end.

(** [makeMatrix(std::initializer_list<std::initializer_list<T>> m)] *)
Definition makeMatrix_init (m : list (list T)) : M MatrixRef :=
  t ← makeMatrix T_type (Z.of_nat (length m))
        (match m with [] => 0 | row :: _ => Z.of_nat (length row) end);
  makeMatrix_rows t 0 m;;
  mret t.

(** ** The host's sparse calls *)
Definition MSparseArray_getRank (msa : MSparseArray) : Z :=
  Z.of_nat (length (sp_dims msa)).

(** [MSparseArray_resetImplicitValue(sa, it, &msa)] with a tensor [it] *)
Definition MSparseArray_resetImplicitValue (msa : MSparseArray) (it : MTensor)
  : M (Z * option MSparseArray) :=
  obj ← host_tensor it;
  err ← host_call_status;
  if err =? 0 then mret (0, Some (host_resetImplicitValue libData msa obj))
  else mret (err, None).

(** [MSparseArray_fromExplicitPositions(pos, vals, dims, it, &sa)] *)
Definition MSparseArray_fromExplicitPositions (pos vals dims it : MTensor)
  : M (Z * option MSparseArray) :=
  p ← host_tensor pos;
  v ← host_tensor vals;
  d ← host_tensor dims;
  i ← host_tensor it;
  err ← host_call_status;
  if err =? 0 then mret (0, Some (host_fromExplicitPositions libData p v d i))
  else mret (err, None).

(** [MSparseArray_getExplicitPositions(sa, &mt)]: a new host tensor *)
Definition MSparseArray_getExplicitPositions (msa : MSparseArray) : M (Z * MTensor) :=
  err ← host_call_status;
  if err =? 0 then
    t ← host_alloc (host_getExplicitPositions libData msa);
    mret (0, t)
  else mret (err, None).

(** ** SparseArrayRef: the members [sa], [rp], [ci], [ev], [iv]

    [rp], [ci] and [ev] are the data the member [TensorRef]s point at;
    [ev = None] is the null [TensorRef] of a pattern array. *)
Record SparseArrayRef := mkSparseArrayRef {
  sa : MSparseArray;
  rp : list Z;
  ci : list Z;
  ev : option (list T);
  iv : T
}.

(** [static TensorRef<T> getExplicitValues(const MSparseArray &msa)] *)
Definition getExplicitValues (msa : MSparseArray) : option (list T) :=
  match sp_explicitValues msa with
  | None => None
  | Some vals => Some vals
  end.

(** [static IntTensorRef getColumnIndices(const MSparseArray &msa)]: a
    missing column-index tensor is replaced in the sparse array by a new
    0-by-rank one; the code of that [MTensor_new] is not looked at, and after
    a failure [IntTensorRef] is built from the [NULL] left in place. *)
Definition getColumnIndices (msa : MSparseArray) : M (MSparseArray * list Z) :=
  match sp_columnIndices msa with
  | Some c => mret (msa, c)
  | None =>
      err ← host_call_status;
      if err =? 0 then
        let c := replicate (Z.to_nat (flattened_length [0; MSparseArray_getRank msa])) 0 in
        mret ({| sp_dims := sp_dims msa; sp_rowPointers := sp_rowPointers msa;
                 sp_columnIndices := Some c;
                 sp_explicitValues := sp_explicitValues msa;
                 sp_implicitValue := sp_implicitValue msa |}, c)
      else undefined
  end.

(** [SparseArrayRef(const MSparseArray &msa)] *)
Definition SparseArrayRef_of (msa : MSparseArray) : M SparseArrayRef :=
  '(msa', c) ← getColumnIndices msa;
  mret {| sa := msa'; rp := sp_rowPointers msa'; ci := c;
          ev := getExplicitValues msa'; iv := sp_implicitValue msa' |}.

(** A function that ends in [return msa;] with [msa] an [MSparseArray]. *)
Definition SparseArrayRef_of_ptr (msa : option MSparseArray) : M SparseArrayRef :=
  match msa with
  | Some obj => SparseArrayRef_of obj
  | None => undefined
  end.

Definition SparseArrayRef_rank (s : SparseArrayRef) : Z := MSparseArray_getRank (sa s).

(** [mint length() const { return ci.length(); }] and its alias [size()] *)
Definition SparseArrayRef_length (s : SparseArrayRef) : Z := Z.of_nat (length (ci s)).
Definition SparseArrayRef_size (s : SparseArrayRef) : Z := SparseArrayRef_length s.

(** [bool explicitValuesQ() const { return ! ev.nullQ(); }] *)
Definition explicitValuesQ (s : SparseArrayRef) : bool :=
  match ev s with
  | Some _ => true
  | None => false
  end.

(** [TensorRef<T> explicitValues() const] *)
Definition explicitValues (s : SparseArrayRef) : outcome (list T) :=
  match ev s with
  | None =>
      Throw (LibraryError_msg
               "SparseArrayRef::explicitValues() called on pattern array."
               LIBRARY_FUNCTION_ERROR)
  | Some vals => Ret vals
  end.

(** [T &implicitValue() const { return iv; }] *)
Definition implicitValue (s : SparseArrayRef) : T := iv s.

(** [ev[k]]; the null [TensorRef] has a null data pointer. *)
Definition ev_at (s : SparseArrayRef) (k : Z) : outcome T :=
  match ev s with
  | Some vals => tensor_at vals k
  | None => Undefined
  end.

(** [IntTensorRef explicitPositions() const] *)
Definition explicitPositions (s : SparseArrayRef) : M TensorRef :=
  '(err, mt) ← MSparseArray_getExplicitPositions (sa s);
  if negb (err =? 0) then
    throw (LibraryError_msg "MSParseArray_getExplicitPositions() failed." err)
  else
    r ← MTensor_getRank mt;
    if r =? 0 then
      MTensor_free mt;;
      m ← makeMatrix MType_Integer 0 (SparseArrayRef_rank s);
      mret (mr_ref m)
    else TensorRef_of mt.

(** [SparseArrayRef resetImplicitValue(const T &iv) const] *)
Definition resetImplicitValue (s : SparseArrayRef) (new_iv : T) : M SparseArrayRef :=
  '(err, it) ← MTensor_new T_type [];
  if negb (err =? 0) then throw (LibraryError_msg "MTensor_new() failed." err)
  else
    tensor_write it 0 (ElemCell new_iv);;
    '(err, msa) ← MSparseArray_resetImplicitValue (sa s) it;
    if negb (err =? 0) then
      throw (LibraryError_msg "MSparseArray_resetImplicitValue() failed." err)
    else
      MTensor_free it;;
      SparseArrayRef_of_ptr msa.

(** The end of [makeSparseArray]: [ev = MSparseArray_getExplicitValues(sa);
    if ( *ev == NULL) MTensor_new(libraryType<T>(), 1, evdims, ev);] with
    [evdims = {0}]; the code of that [MTensor_new] is not looked at. *)
Definition insert_explicitValues (msa : MSparseArray) : M MSparseArray :=
  match sp_explicitValues msa with
  | Some _ => mret msa
  | None =>
      err ← host_call_status;
      if err =? 0 then
        mret {| sp_dims := sp_dims msa; sp_rowPointers := sp_rowPointers msa;
                sp_columnIndices := sp_columnIndices msa;
                sp_explicitValues := Some (replicate (Z.to_nat (flattened_length [0])) T_zero);
                sp_implicitValue := sp_implicitValue msa |}
      else mret msa
  end.

(** [makeSparseArray(pos, vals, dims, imp)] *)
Definition makeSparseArray (pos : MatrixRef) (vals dims : TensorRef) (imp : T)
  : M SparseArrayRef :=
  massert (MatrixRef_cols pos =? TensorRef_size dims);;
  massert (MatrixRef_rows pos =? TensorRef_size vals);;
  '(err, it) ← MTensor_new T_type [];
  if negb (err =? 0) then
    throw (LibraryError_msg "makeSparseArray: MTensor_new() failed." err)
  else
    tensor_write it 0 (ElemCell imp);;
    '(err, msa) ← MSparseArray_fromExplicitPositions
                    (tensor (mr_ref pos)) (tensor vals) (tensor dims) it;
    MTensor_free it;;
    if negb (err =? 0) then
      throw (LibraryError_msg
               "makeSparseArray: MSparseArray_fromExplicitPositions() failed." err)
    else
      match msa with
      | Some obj => obj' ← insert_explicitValues obj; SparseArrayRef_of obj'
      | None => undefined
      end.

(** ** SparseMatrixRef *)
Record SparseMatrixRef := mkSparseMatrixRef {
  base : SparseArrayRef;
  ncols : Z;
  nrows : Z
}.


Definition rows (sm : SparseMatrixRef) : Z := nrows sm.
Definition cols (sm : SparseMatrixRef) : Z := ncols sm.
Definition size (sm : SparseMatrixRef) : Z := SparseArrayRef_size (base sm).

(** [T operator () (mint i, mint j) const]: the read-only indexed read *)
Definition SparseMatrixRef_index (sm : SparseMatrixRef) (i j : Z) : outcome T :=
  if negb (explicitValuesQ (base sm)) then
    Throw (LibraryError_msg
             "SparseMatrixRef: cannot index into a pattern array."
             LIBRARY_FUNCTION_ERROR)
  else
    lower ← tensor_at (rp (base sm)) i;
    upper ← tensor_at (rp (base sm)) (i + 1);
    cp ← lower_bound (ci (base sm)) lower upper (j + 1);
    if cp =? upper then Ret (iv (base sm))
    else
      c ← tensor_at (ci (base sm)) cp;
      if c =? j + 1
      then ev_at (base sm) (lower + (cp - lower))
      else Ret (iv (base sm)).

(** ** SparseMatrixRef::iterator: the members [row_index] and [index]
    (the reference [sm] is passed to each operation) *)
Record iterator := mkIterator {
  row_index : Z;
  index : Z
}.

(** [T &operator *() const { return sm.ev[index]; }] *)
Definition iterator_deref (sm : SparseMatrixRef) (it : iterator) : outcome T :=
  ev_at (base sm) (index it).

(** [operator ==] and [operator !=] *)
Definition iterator_eq (a b : iterator) : bool := index a =? index b.
Definition iterator_ne (a b : iterator) : bool := negb (index a =? index b).

(** [while (sm.rp[row_index+1] == index && row_index < sm.size()) row_index++;]
    The left operand is read first at every test.  [size - row_index]
    decreases, and once it is not positive the test fails after its read. *)
Fixpoint advance_row (fuel : nat) (sm : SparseMatrixRef) (idx row : Z) : outcome Z :=
  r ← tensor_at (rp (base sm)) (row + 1);
  match fuel with
  | O => Ret row
  | S fuel' =>
      if (r =? idx) && (row <? size sm)
      then advance_row fuel' sm idx (row + 1)
      else Ret row
  end.

(** [while (sm.rp[row_index] == index && row_index > 0) row_index--;] *)
Fixpoint retreat_row (fuel : nat) (sm : SparseMatrixRef) (idx row : Z) : outcome Z :=
  r ← tensor_at (rp (base sm)) row;
  match fuel with
  | O => Ret row
  | S fuel' =>
      if (r =? idx) && (0 <? row)
      then retreat_row fuel' sm idx (row - 1)
      else Ret row
  end.

(** [iterator &operator ++ ()] *)
Definition iterator_incr (sm : SparseMatrixRef) (it : iterator) : outcome iterator :=
  let idx := index it + 1 in
  row ← advance_row (Z.to_nat (size sm - row_index it)) sm idx (row_index it);
  Ret {| row_index := row; index := idx |}.

(** [iterator &operator -- ()] *)
Definition iterator_decr (sm : SparseMatrixRef) (it : iterator) : outcome iterator :=
  row ← retreat_row (Z.to_nat (row_index it)) sm (index it) (row_index it);
  Ret {| row_index := row; index := index it - 1 |}.

(** [mint row() const] and [mint col() const { return sm.ci[index]-1; }] *)
Definition iterator_row (it : iterator) : Z := row_index it.
Definition iterator_col (sm : SparseMatrixRef) (it : iterator) : outcome Z :=
  c ← tensor_at (ci (base sm)) (index it);
  Ret (c - 1).

(** [iterator begin() const] *)
Definition SparseMatrixRef_begin (sm : SparseMatrixRef) : outcome iterator :=
  row ← advance_row (Z.to_nat (size sm - 0)) sm 0 0;
  Ret {| row_index := row; index := 0 |}.

(** [iterator end() const] *)
Definition SparseMatrixRef_end (sm : SparseMatrixRef) : iterator :=
  {| row_index := rows sm; index := size sm |}.

(** The client loop
    [for (auto it = sm.begin(); it != sm.end(); ++it) visit(it.row(), it.col(), *it);]
    and the triples it visits; the offset grows by one per turn, so
    [size - index] turns are enough. *)
Fixpoint traverse_from (fuel : nat) (sm : SparseMatrixRef) (it : iterator)
  : outcome (list (Z * Z * T)) :=
  match fuel with
  | O => Ret []
  | S fuel' =>
      if iterator_ne it (SparseMatrixRef_end sm) then
        c ← iterator_col sm it;
        v ← iterator_deref sm it;
        it' ← iterator_incr sm it;
        rest ← traverse_from fuel' sm it';
        Ret ((iterator_row it, c, v) :: rest)
      else Ret []
  end.

Definition traverse (sm : SparseMatrixRef) : outcome (list (Z * Z * T)) :=
  b ← SparseMatrixRef_begin sm;
  traverse_from (Z.to_nat (size sm)) sm b.

(** ** Specification side: the CSR invariant and the linear scans *)

(** The element a read inside the buffer returns. *)
Definition zget (d : list Z) (i : Z) : Z := nth (Z.to_nat i) d 0.

Definition ev_get (s : SparseArrayRef) (k : Z) : T :=
  match ev s with
  | Some vals => nth (Z.to_nat k) vals (iv s)
  | None => iv s
  end.

(** The column indices at the offsets [lo], ..., [hi - 1] ascend. *)
Definition row_sorted (d : list Z) (lo hi : Z) : bool :=
  forallb (λ k, zget d k <=? zget d (k + 1)) (seqZ lo (hi - lo - 1)).

(** The invariant of a 2-D sparse view: [rows + 1] row pointers that start
    at 0, do not decrease and end at the number of stored entries; column
    indices that ascend within each row; as many explicit values as column
    indices when there are explicit values. *)
Definition csr_ok (sm : SparseMatrixRef) : bool :=
  (0 <=? nrows sm)
  && (Z.of_nat (length (rp (base sm))) =? nrows sm + 1)
  && (zget (rp (base sm)) 0 =? 0)
  && (zget (rp (base sm)) (nrows sm) =? Z.of_nat (length (ci (base sm))))
  && forallb (λ r, (zget (rp (base sm)) r <=? zget (rp (base sm)) (r + 1))
                   && row_sorted (ci (base sm)) (zget (rp (base sm)) r)
                                 (zget (rp (base sm)) (r + 1)))
             (seqZ 0 (nrows sm))
  && match ev (base sm) with
     | Some vals => Z.of_nat (length vals) =? Z.of_nat (length (ci (base sm)))
     | None => true
     end.

(** Scan [n] offsets from [k] on for the first one that holds [key]. *)
Fixpoint linear_find (n : nat) (d : list Z) (k key : Z) : option Z :=
  match n with
  | O => None
  | S n' => if zget d k =? key then Some k else linear_find n' d (k + 1) key
  end.

(** The read by a linear scan of the sub-range of row [i] for the 1-based
    key [j + 1]: the explicit value at the matching offset, or the implicit
    value. *)
Definition linear_scan_read (sm : SparseMatrixRef) (i j : Z) : T :=
  let lower := zget (rp (base sm)) i in
  let upper := zget (rp (base sm)) (i + 1) in
  match linear_find (Z.to_nat (upper - lower)) (ci (base sm)) lower (j + 1) with
  | Some k => ev_get (base sm) k
  | None => iv (base sm)
  end.

(** The explicitly stored entries with their 0-based coordinates, row by row
    and by storage offset within a row. *)
Definition row_entries (sm : SparseMatrixRef) (r : Z) : list (Z * Z * T) :=
  map (λ k, (r, zget (ci (base sm)) k - 1, ev_get (base sm) k))
      (seqZ (zget (rp (base sm)) r) (zget (rp (base sm)) (r + 1) - zget (rp (base sm)) r)).

Definition explicit_entries (sm : SparseMatrixRef) : list (Z * Z * T) :=
  concat (map (row_entries sm) (seqZ 0 (nrows sm))).

(** The number of explicitly stored entries of a host sparse array: its
    last row pointer. *)
Definition stored_count (msa : MSparseArray) : Z :=
  default 0 (last (sp_rowPointers msa)).

(** The number of column indices a host sparse array holds. *)
Definition stored_columns (msa : MSparseArray) : Z :=
  match sp_columnIndices msa with
  | Some c => Z.of_nat (length c)
  | None => 0
  end.

(** The next [n] fallible host calls succeed. *)
Definition host_ok (n : nat) (h : host) : bool :=
  forallb (Z.eqb 0) (take n (host_errors h)).

(** A library function that receives the three tensors from the host, wraps
    them as the views [makeSparseArray] takes, and calls it. *)
Definition call_makeSparseArray (pos vals dims : MTensor) (imp : T) : M SparseArrayRef :=
  p ← TensorRef_of pos;
  pm ← MatrixRef_of p;
  v ← TensorRef_of vals;
  d ← TensorRef_of dims;
  makeSparseArray pm v d imp.

(** ** More of the dense views and factories *)

(** [T & operator [] (mint i) const { return tensor_data[i]; }] through the
    data pointer of a handle. *)
Definition tensor_read (t : MTensor) (i : Z) : M cell :=
  obj ← host_tensor t;
  lift (tensor_at (t_data obj) i).

Definition TensorRef_at (tr : TensorRef) (i : Z) : M cell := tensor_read (tensor tr) i.

(** [T & operator () (mint i, mint j) const { return ( *this)[ncols*i + j]; }] *)
Definition MatrixRef_index (m : MatrixRef) (i j : Z) : Z := mr_ncols m * i + j.
Definition MatrixRef_at (m : MatrixRef) (i j : Z) : M cell :=
  TensorRef_at (mr_ref m) (MatrixRef_index m i j).

Record CubeRef := mkCubeRef {
  cr_ref : TensorRef;
  cr_nslices : Z;
  cr_nrows : Z;
  cr_ncols : Z
}.

(** [CubeRef(const TensorRef<T> &tr)] *)
Definition CubeRef_of (tr : TensorRef) : M CubeRef :=
  r ← TensorRef_rank tr;
  if negb (r =? 3) then
    throw (LibraryError_msg "CubeRef: Rank-3 tensor expected." LIBRARY_FUNCTION_ERROR)
  else
    dims ← TensorRef_dimensions tr;
    ns ← lift (tensor_at dims 0);
    nr ← lift (tensor_at dims 1);
    nc ← lift (tensor_at dims 2);
    mret {| cr_ref := tr; cr_nslices := ns; cr_nrows := nr; cr_ncols := nc |}.


(** [makeVector<U>(len)] and [makeCube<U>(nslice, nrow, ncol)] *)
Definition makeVector (type : Z) (len : Z) : M TensorRef := makeTensor type [len].

Definition makeCube (type : Z) (nslice nrow ncol : Z) : M CubeRef :=
  tr ← makeTensor type [nslice; nrow; ncol];
  CubeRef_of tr.

(** [std::copy(l.begin(), l.end(), out)] into the data of [t] from the offset
    [ptr] on; the result is the offset after the last element written. *)
Fixpoint std_copy (t : MTensor) (ptr : Z) (l : list T) : M Z :=
  match l with
  | [] => mret ptr
  | el :: l' =>
      tensor_write t ptr (ElemCell el);;
      std_copy t (ptr + 1) l'
  end.

(** [makeVector(std::initializer_list<T> l)] *)
Definition makeVector_init (l : list T) : M TensorRef :=
  t ← makeVector T_type (Z.of_nat (length l));
  std_copy (tensor t) 0 l;;
  mret t.

(** Replace the data of a live tensor. *)
Definition tensor_store (t : MTensor) (d : list cell) : M unit := λ h,
  match t with
  | Some p =>
      match tensors h !! p with
      | Some obj =>
          (Ret tt,
           {| tensors := <[p := {| t_type := t_type obj; t_dims := t_dims obj;
                                   t_data := d |}]> (tensors h);
              next := next h; host_errors := host_errors h |})
      | None => (Undefined, h)
      end
  | None => (Undefined, h)
  end.

(** [makeMatrixTransposed<T, U>(nrow, ncol, data)]: [data] is the caller's
    column-major array, [conv] the conversion from its element type;
    [transposedCopy] runs on the data of the new tensor, which the array does
    not overlap. *)
Definition makeMatrixTransposed {U : Type} (conv : U -> T) (nrow ncol : Z) (data : list U)
  : M MatrixRef :=
  m ← makeMatrix T_type nrow ncol;
  let t := mr_ref m in
  obj ← host_tensor (tensor t);
  d ← lift (transposedCopy (λ x, ElemCell (conv x)) data (t_data obj) nrow ncol);
  tensor_store (tensor t) d;;
  MatrixRef_of t.




(** ** Specification side: positions of an iterator *)

(** The stored entry at offset [k] lies in row [r]. *)
Definition at_row (sm : SparseMatrixRef) (r k : Z) : bool :=
  (0 <=? r) && (r <? nrows sm)
  && (zget (rp (base sm)) r <=? k) && (k <? zget (rp (base sm)) (r + 1)).

(** The column indices strictly ascend at the offsets [lo], ..., [hi - 1]. *)
Definition row_strict (d : list Z) (lo hi : Z) : bool :=
  forallb (λ k, zget d k <? zget d (k + 1)) (seqZ lo (hi - lo - 1)).

(** No row stores a column twice. *)
Definition columns_strict (sm : SparseMatrixRef) : bool :=
  forallb (λ r, row_strict (ci (base sm)) (zget (rp (base sm)) r) (zget (rp (base sm)) (r + 1)))
          (seqZ 0 (nrows sm)).

(** The stored entries from the offset [k] of row [r] on, with their
    coordinates. *)
Definition entries_from (sm : SparseMatrixRef) (r k : Z) : list (Z * Z * T) :=
  map (λ k', (r, zget (ci (base sm)) k' - 1, ev_get (base sm) k'))
      (seqZ k (zget (rp (base sm)) (r + 1) - k))
  ++ concat (map (row_entries sm) (seqZ (r + 1) (nrows sm - (r + 1)))).

(** The stored entries with every row number above [size()] replaced by
    [size()]. *)
Definition capped_entries (sm : SparseMatrixRef) (l : list (Z * Z * T)) : list (Z * Z * T) :=
  map (λ t, (Z.min t.1.1 (size sm), t.1.2, t.2)) l.

End Tensors.

Arguments IntCell {T} z.

(** ** Images *)

(** A non-void function whose body is the expression statement [value;]:
    the value is dropped and control flows off the end of the function. *)
Definition expression_statement {A B : Type} (value : A) : outcome B := Undefined.

(** [class pixel_iterator]: [ptr] is an offset into the pixel data. *)
Record pixel_iterator := mkPixelIterator {
  ptr : Z;
  step : Z
}.

(** [bool operator == (const pixel_iterator &it) const { return ptr == it.ptr; }] *)
Definition pixel_iterator_eq (a b : pixel_iterator) : bool := ptr a =? ptr b.
Definition pixel_iterator_ne (a b : pixel_iterator) : bool := negb (ptr a =? ptr b).

(** [operator ++] and [operator --] *)
Definition pixel_iterator_incr (a : pixel_iterator) : pixel_iterator :=
  {| ptr := ptr a + step a; step := step a |}.
Definition pixel_iterator_decr (a : pixel_iterator) : pixel_iterator :=
  {| ptr := ptr a - step a; step := step a |}.

(** [pixel_iterator operator + (ptrdiff_t n) const] and [operator - (ptrdiff_t n)] *)
Definition pixel_iterator_add (a : pixel_iterator) (n : Z) : pixel_iterator :=
  {| ptr := ptr a + n * step a; step := step a |}.
Definition pixel_iterator_sub (a : pixel_iterator) (n : Z) : pixel_iterator :=
  {| ptr := ptr a - n * step a; step := step a |}.

(** The offset of the element [T & operator [] (mint i) { return ptr[i*step]; }]
    returns a reference to. *)
Definition pixel_iterator_at (a : pixel_iterator) (i : Z) : Z := ptr a + i * step a.

(** [ptrdiff_t operator - (const pixel_iterator &it) const { (ptr - it.ptr)/step; }] *)
Definition pixel_iterator_diff (a b : pixel_iterator) : outcome Z :=
  expression_statement ((ptr a - ptr b) `quot` step a).

(** [bool operator < (const pixel_iterator &it) const { ptr < it.ptr; }] and
    [>], [<=], [>=], written the same way *)
Definition pixel_iterator_lt (a b : pixel_iterator) : outcome bool :=
  expression_statement (ptr a <? ptr b).
Definition pixel_iterator_gt (a b : pixel_iterator) : outcome bool :=
  expression_statement (ptr a >? ptr b).
Definition pixel_iterator_le (a b : pixel_iterator) : outcome bool :=
  expression_statement (ptr a <=? ptr b).
Definition pixel_iterator_ge (a b : pixel_iterator) : outcome bool :=
  expression_statement (ptr a >=? ptr b).

(** The value the body of [operator -] computes: the difference of the two
    positions counted in steps. *)
Definition stride_scaled_difference (a b : pixel_iterator) : Z :=
  (ptr a - ptr b) `quot` step a.

(** [class GenericImageRef]: the cached members. *)
Record GenericImageRef := mkGenericImageRef {
  im_len : Z;
  im_nrows : Z;
  im_ncols : Z;
  im_nslices : Z;
  im_nchannels : Z;
  interleaved : bool;
  alphaChannel : bool
}.

Definition image_rows (im : GenericImageRef) : Z := im_nrows im.
Definition image_cols (im : GenericImageRef) : Z := im_ncols im.
Definition slices (im : GenericImageRef) : Z := im_nslices im.
Definition channels (im : GenericImageRef) : Z := im_nchannels im.
Definition interleavedQ (im : GenericImageRef) : bool := interleaved im.

(** [mint channelSize() const { return slices()*rows()*cols(); }] *)
Definition channelSize (im : GenericImageRef) : Z :=
  slices im * image_rows im * image_cols im.

(** [pixel_iterator pixelBegin(mint channel) const], the same text in
    [ImageRef] and [Image3DRef]; [image_data] is offset 0. *)
Definition pixelBegin (im : GenericImageRef) (channel : Z) : pixel_iterator :=
  if interleavedQ im
  then {| ptr := 0 + channel; step := channels im |}
  else {| ptr := 0 + channelSize im * channel; step := 1 |}.

(** [pixel_iterator pixelEnd(mint channel) const] *)
Definition pixelEnd (im : GenericImageRef) (channel : Z) : pixel_iterator :=
  pixel_iterator_add (pixelBegin im channel) (channelSize im).

(** The offset of the element [ImageRef<T>::operator ()(row, col, channel)]
    returns a reference to. *)
Definition ImageRef_index (im : GenericImageRef) (row col channel : Z) : Z :=
  if interleavedQ im
  then row * image_cols im * channels im + col * channels im + channel
  else channel * image_rows im * image_cols im + row * image_cols im + col.

(** The offset of the element
    [Image3DRef<T>::operator ()(slice, row, col, channel)] returns a reference to. *)
Definition Image3DRef_index (im : GenericImageRef) (slice row col channel : Z) : Z :=
  if interleavedQ im
  then slice * image_rows im * image_cols im * channels im
       + row * image_cols im * channels im + col * channels im + channel
  else channel * slices im * image_rows im * image_cols im
       + slice * image_rows im * image_cols im + row * image_cols im + col.

Section Pixels.

(** The pixel type of the template. *)
Variable P : Type.

(** [ImageRef<T>] and [Image3DRef<T>]: the generic part and the pixel data
    [image_data] points at. *)
Record ImageRef := mkImageRef {
  generic : GenericImageRef;
  image_data : list P
}.

Record Image3DRef := mkImage3DRef {
  generic3 : GenericImageRef;
  image_data3 : list P
}.

(** Reading [im(row, col, channel)] and assigning [im(row, col, channel) = v]. *)
Definition ImageRef_read (im : ImageRef) (row col channel : Z) : outcome P :=
  tensor_at (image_data im) (ImageRef_index (generic im) row col channel).

Definition ImageRef_write (im : ImageRef) (row col channel : Z) (v : P) : outcome ImageRef :=
  d ← tensor_set (image_data im) (ImageRef_index (generic im) row col channel) v;
  Ret {| generic := generic im; image_data := d |}.

Definition Image3DRef_read (im : Image3DRef) (slice row col channel : Z) : outcome P :=
  tensor_at (image_data3 im) (Image3DRef_index (generic3 im) slice row col channel).

Definition Image3DRef_write (im : Image3DRef) (slice row col channel : Z) (v : P)
  : outcome Image3DRef :=
  d ← tensor_set (image_data3 im) (Image3DRef_index (generic3 im) slice row col channel) v;
  Ret {| generic3 := generic3 im; image_data3 := d |}.

(** The pixel buffer holds every channel of every pixel, and a 2-D image
    has one slice. *)
Definition image_ok (im : ImageRef) : bool :=
  (im_nslices (generic im) =? 1)
  && (Z.of_nat (length (image_data im))
      =? image_rows (generic im) * image_cols (generic im) * channels (generic im)).

Definition image3_ok (im : Image3DRef) : bool :=
  Z.of_nat (length (image_data3 im))
  =? slices (generic3 im) * image_rows (generic3 im) * image_cols (generic3 im)
     * channels (generic3 im).

End Pixels.

(** ** Sample sparse matrices *)

Definition sparse_of (nr nc : Z) (rowptr colidx : list Z) (vals : option (list Z)) (imp : Z)
  : SparseMatrixRef Z :=
  {| base := {| sa := {| sp_dims := [nr; nc]; sp_rowPointers := rowptr;
                         sp_columnIndices := Some colidx; sp_explicitValues := vals;
                         sp_implicitValue := imp |};
                rp := rowptr; ci := colidx; ev := vals; iv := imp |};
     ncols := nc; nrows := nr |}.

(** 3 x 3, one stored entry 7 at row 2, column 0. *)
Definition sm_last_row : SparseMatrixRef Z := sparse_of 3 3 [0; 0; 0; 1] [1] (Some [7]) 0.

(** 2 x 2 with stored entries on the diagonal. *)
Definition sm_diag : SparseMatrixRef Z := sparse_of 2 2 [0; 1; 2] [1; 2] (Some [1; 1]) 0.

(** 3 x 4 with rows {1 -> 10, 3 -> 30}, {}, {0 -> 5, 1 -> 6, 3 -> 8}; implicit 9. *)
Definition sm_sample : SparseMatrixRef Z :=
  sparse_of 3 4 [0; 2; 2; 5] [2; 4; 1; 2; 4] (Some [10; 30; 5; 6; 8]) 9.

(** The pattern array with the positions of [sm_sample]. *)
Definition sm_pattern : SparseMatrixRef Z :=
  sparse_of 3 4 [0; 2; 2; 5] [2; 4; 1; 2; 4] None 9.

(** 2 x 3 without stored entries. *)
Definition sm_empty : SparseMatrixRef Z := sparse_of 2 3 [0; 0; 0] [] (Some []) 0.

(** ** Sample images: 2 x 2 pixels, 2 channels (one of them alpha), zeroed *)
Definition image_2x2x2 (inter : bool) : ImageRef Z :=
  {| generic := {| im_len := 8; im_nrows := 2; im_ncols := 2; im_nslices := 1;
                   im_nchannels := 2; interleaved := inter; alphaChannel := true |};
     image_data := replicate 8 0 |}.

(** 2 slices of 2 x 3 pixels with 2 channels. *)
Definition image3_2x2x3x2 (inter : bool) : Image3DRef Z :=
  {| generic3 := {| im_len := 24; im_nrows := 2; im_ncols := 3; im_nslices := 2;
                    im_nchannels := 2; interleaved := inter; alphaChannel := false |};
     image_data3 := replicate 24 0 |}.

(** ** A sample host

    Integer elements; sparse matrices only, built from positions that come in
    row-major order.  Without positions the result is a pattern array without
    column indices, and the explicit positions of an array without stored
    entries are a rank-0 tensor. *)
Definition cell_int (c : cell Z) : Z :=
  match c with
  | IntCell z => z
  | ElemCell x => x
  end.

Fixpoint position_pairs (d : list (cell Z)) : list (Z * Z) :=
  match d with
  | a :: b :: d' => (cell_int a, cell_int b) :: position_pairs d'
  | _ => []
  end.

Definition sample_fromExplicitPositions (p v d i : tensor_obj Z) : MSparseArray Z :=
  let pos := position_pairs (t_data p) in
  let dims := map cell_int (t_data d) in
  {| sp_dims := dims;
     sp_rowPointers :=
       map (λ r, Z.of_nat (length (filter (λ rc, rc.1 <= r) pos))) (seqZ 0 (nth 0 dims 0 + 1));
     sp_columnIndices := match pos with [] => None | _ => Some (map snd pos) end;
     sp_explicitValues := match pos with [] => None | _ => Some (map cell_int (t_data v)) end;
     sp_implicitValue := match t_data i with c :: _ => cell_int c | [] => 0 end |}.

Definition sample_resetImplicitValue (msa : MSparseArray Z) (it : tensor_obj Z)
  : MSparseArray Z :=
  {| sp_dims := sp_dims msa; sp_rowPointers := sp_rowPointers msa;
     sp_columnIndices := sp_columnIndices msa;
     sp_explicitValues := sp_explicitValues msa;
     sp_implicitValue := match t_data it with c :: _ => cell_int c | [] => 0 end |}.

Definition sample_getExplicitPositions (msa : MSparseArray Z) : tensor_obj Z :=
  let n := stored_count msa in
  let rowptr := sp_rowPointers msa in
  let colidx := default [] (sp_columnIndices msa) in
  {| t_type := MType_Integer;
     t_dims := if n =? 0 then [] else [n; MSparseArray_getRank msa];
     t_data :=
       if n =? 0 then [IntCell 0]
       else concat (map (λ r, concat (map (λ k, [IntCell (r + 1); IntCell (zget colidx k)])
                                          (seqZ (zget rowptr r) (zget rowptr (r + 1) - zget rowptr r))))
                        (seqZ 0 (Z.of_nat (length rowptr) - 1))) |}.

Definition sample_libData : WolframLibraryData Z :=
  {| host_fromExplicitPositions := sample_fromExplicitPositions;
     host_resetImplicitValue := sample_resetImplicitValue;
     host_getExplicitPositions := sample_getExplicitPositions |}.

Definition int_tensor (dims data : list Z) : tensor_obj Z :=
  {| t_type := MType_Integer; t_dims := dims; t_data := map IntCell data |}.

(** A host that holds a 0 x 2 positions matrix (handle 1), an empty values
    vector (handle 2) and the dimensions (3, 4) (handle 3); [errs] are the
    codes of its next fallible calls. *)
Definition host_empty_positions (errs : list Z) : host Z :=
  {| tensors := <[3%positive := int_tensor [2] [3; 4]]>
                  (<[2%positive := int_tensor [0] []]>
                     (<[1%positive := int_tensor [0; 2] []]> ∅));
     next := 4%positive;
     host_errors := errs |}.

(** A host without live tensors. *)
Definition host_fresh (errs : list Z) : host Z :=
  {| tensors := ∅; next := 1%positive; host_errors := errs |}.

(** * Properties *)

Unset Implicit Arguments.

(** ** Reads inside a buffer *)

Lemma tensor_at_Ret {A : Type} (d : list A) (i : Z) (dflt : A) :
  0 <= i < Z.of_nat (length d) ->
  tensor_at d i = Ret (nth (Z.to_nat i) d dflt).
Proof.
  intros Hi. unfold tensor_at.
  destruct (Z.leb_spec 0 i) as [_|]; [|lia].
  rewrite nth_lookup.
  destruct (lookup_lt_is_Some_2 d (Z.to_nat i)) as [x Hx]; [lia|].
  now rewrite Hx.
Qed.

Lemma tensor_at_zget (d : list Z) (i : Z) :
  0 <= i < Z.of_nat (length d) -> tensor_at d i = Ret (zget d i).
Proof. apply tensor_at_Ret. Qed.

Lemma tensor_at_outside {A : Type} (d : list A) (i : Z) :
  i < 0 \/ Z.of_nat (length d) <= i -> tensor_at d i = Undefined.
Proof.
  intros Hi. unfold tensor_at.
  destruct (Z.leb_spec 0 i); [|reflexivity].
  rewrite lookup_ge_None_2 by lia. reflexivity.
Qed.

Lemma tensor_set_then_at {A : Type} (d : list A) (i : Z) (v : A) :
  0 <= i < Z.of_nat (length d) ->
  tensor_set d i v = Ret (<[Z.to_nat i := v]> d)
  /\ tensor_at (<[Z.to_nat i := v]> d) i = Ret v.
Proof.
  intros Hi. unfold tensor_set, tensor_at.
  destruct (Z.leb_spec 0 i); [|lia].
  destruct (Z.ltb_spec i (Z.of_nat (length d))); [|lia].
  split; [reflexivity|].
  rewrite list_lookup_insert_eq by lia. reflexivity.
Qed.

Lemma tensor_set_other {A : Type} (d : list A) (i j : Z) (v : A) :
  0 <= i -> 0 <= j -> i <> j ->
  tensor_at (<[Z.to_nat i := v]> d) j = tensor_at d j.
Proof.
  intros Hi Hj Hne. unfold tensor_at.
  rewrite list_lookup_insert_ne by lia. reflexivity.
Qed.

Lemma forallb_seqZ (f : Z -> bool) (m n k : Z) :
  forallb f (seqZ m n) = true -> m <= k < m + n -> f k = true.
Proof.
  intros Hall Hk. rewrite forallb_forall in Hall.
  apply Hall, list_elem_of_In, elem_of_seqZ. lia.
Qed.

(** Adjacent comparisons give the order of any two offsets of a range. *)
Lemma ascending_range (d : list Z) (lo hi : Z) :
  (forall k, lo <= k < hi - 1 -> zget d k <= zget d (k + 1)) ->
  forall a b, lo <= a -> a <= b -> b < hi -> zget d a <= zget d b.
Proof.
  intros Hadj a b Ha Hab Hb.
  replace b with (a + Z.of_nat (Z.to_nat (b - a))) in * by lia.
  induction (Z.to_nat (b - a)) as [|n IH].
  - replace (a + Z.of_nat 0) with a by lia. lia.
  - transitivity (zget d (a + Z.of_nat n)).
    + apply IH; lia.
    + replace (a + Z.of_nat (S n)) with (a + Z.of_nat n + 1) by lia.
      apply Hadj. lia.
Qed.

Lemma row_sorted_spec (d : list Z) (lo hi : Z) :
  row_sorted d lo hi = true ->
  forall a b, lo <= a -> a <= b -> b < hi -> zget d a <= zget d b.
Proof.
  intros Hs. apply ascending_range. intros k Hk.
  apply Z.leb_le. apply (forallb_seqZ _ lo (hi - lo - 1) k Hs). lia.
Qed.

(** ** std::lower_bound on an ascending range *)

Lemma shiftr1_bounds (n : Z) : 0 < n -> 0 <= Z.shiftr n 1 < n.
Proof.
  intros Hn. rewrite Z.shiftr_div_pow2 by lia. change (2 ^ 1) with 2.
  split; [apply Z.div_pos; lia | apply Z.div_lt; lia].
Qed.

Lemma lower_bound_loop_spec (d : list Z) (val : Z) :
  forall (fuel : nat) (first len : Z),
    0 <= first -> 0 <= len -> first + len <= Z.of_nat (length d) ->
    (Z.to_nat len <= fuel)%nat ->
    (forall a b, first <= a -> a <= b -> b < first + len -> zget d a <= zget d b) ->
    exists p, lower_bound_loop fuel d first len val = Ret p
              /\ first <= p <= first + len
              /\ (forall k, first <= k < p -> zget d k < val)
              /\ (forall k, p <= k < first + len -> val <= zget d k).
Proof.
  induction fuel as [|fuel IH]; intros first len Hf Hl Hlen Hfuel Hsorted.
  - exists first. simpl. repeat split; lia.
  - simpl. destruct (Z.ltb_spec 0 len) as [Hpos|Hnpos].
    2:{ exists first. repeat split; lia. }
    pose proof (shiftr1_bounds len Hpos) as Hhalf.
    set (half := Z.shiftr len 1) in *.
    rewrite (tensor_at_zget d (first + half)) by lia.
    simpl. destruct (Z.ltb_spec (zget d (first + half)) val) as [Hlt|Hge].
    + destruct (IH (first + half + 1) (len - half - 1)) as (p & Hp & Hr & Hlo & Hhi);
        try lia.
      { intros a b Ha Hab Hb. apply Hsorted; lia. }
      exists p. split; [exact Hp|]. split; [lia|]. split.
      * intros k Hk. destruct (Z.le_gt_cases k (first + half)) as [Hle|Hgt].
        -- assert (zget d k <= zget d (first + half)) by (apply Hsorted; lia). lia.
        -- apply Hlo. lia.
      * intros k Hk. apply Hhi. lia.
    + destruct (IH first half) as (p & Hp & Hr & Hlo & Hhi); try lia.
      { intros a b Ha Hab Hb. apply Hsorted; lia. }
      exists p. split; [exact Hp|]. split; [lia|]. split.
      * exact Hlo.
      * intros k Hk. destruct (Z.lt_ge_cases k (first + half)) as [Hk1|Hk2].
        -- apply Hhi. lia.
        -- assert (zget d (first + half) <= zget d k) by (apply Hsorted; lia). lia.
Qed.

(** [Z.to_nat len] turns are enough: more fuel changes nothing. *)
Lemma lower_bound_loop_fuel (d : list Z) (val : Z) :
  forall (fuel fuel' : nat) (first len : Z),
    (Z.to_nat len <= fuel)%nat -> (Z.to_nat len <= fuel')%nat ->
    lower_bound_loop fuel d first len val = lower_bound_loop fuel' d first len val.
Proof.
  induction fuel as [|fuel IH]; intros fuel' first len Hfuel Hfuel'.
  - destruct fuel' as [|fuel']; [reflexivity|]. simpl.
    destruct (Z.ltb_spec 0 len); [lia|reflexivity].
  - simpl. destruct (Z.ltb_spec 0 len) as [Hpos|Hnpos].
    + pose proof (shiftr1_bounds len Hpos) as Hhalf.
      destruct fuel' as [|fuel']; [lia|]. simpl.
      destruct (Z.ltb_spec 0 len); [|lia].
      destruct (tensor_at d (first + Z.shiftr len 1)) as [x| |]; simpl; try reflexivity.
      destruct (x <? val); apply IH; lia.
    + destruct fuel' as [|fuel']; [reflexivity|]. simpl.
      destruct (Z.ltb_spec 0 len); [lia|reflexivity].
Qed.

(** ** The linear scan *)

Lemma linear_find_none (d : list Z) (key : Z) :
  forall (n : nat) (k : Z),
    (forall q, k <= q < k + Z.of_nat n -> zget d q <> key) ->
    linear_find n d k key = None.
Proof.
  induction n as [|n IH]; intros k Hno; [reflexivity|].
  simpl. destruct (Z.eqb_spec (zget d k) key) as [Heq|Hne].
  - exfalso. apply (Hno k); [lia|exact Heq].
  - apply IH. intros q Hq. apply Hno. lia.
Qed.

Lemma linear_find_first (d : list Z) (key : Z) :
  forall (n : nat) (k p : Z),
    k <= p < k + Z.of_nat n ->
    zget d p = key ->
    (forall q, k <= q < p -> zget d q <> key) ->
    linear_find n d k key = Some p.
Proof.
  induction n as [|n IH]; intros k p Hp Hkey Hbefore; [lia|].
  simpl. destruct (Z.eqb_spec (zget d k) key) as [Heq|Hne].
  - destruct (Z.eq_dec k p) as [->|Hkp]; [reflexivity|].
    exfalso. apply (Hbefore k); [lia|exact Heq].
  - destruct (Z.eq_dec k p) as [->|Hkp]; [contradiction|].
    apply IH; [lia|exact Hkey|]. intros q Hq. apply Hbefore. lia.
Qed.

Section SparseMatrixProperties.

Variable T : Type.

(** ** What the CSR invariant gives *)

Lemma csr_ok_spec (sm : SparseMatrixRef T) :
  csr_ok sm = true ->
  0 <= nrows sm
  /\ Z.of_nat (length (rp (base sm))) = nrows sm + 1
  /\ zget (rp (base sm)) 0 = 0
  /\ zget (rp (base sm)) (nrows sm) = Z.of_nat (length (ci (base sm)))
  /\ (forall r, 0 <= r < nrows sm ->
        zget (rp (base sm)) r <= zget (rp (base sm)) (r + 1)
        /\ row_sorted (ci (base sm)) (zget (rp (base sm)) r)
                      (zget (rp (base sm)) (r + 1)) = true)
  /\ (forall vals, ev (base sm) = Some vals ->
        Z.of_nat (length vals) = Z.of_nat (length (ci (base sm)))).
Proof.
  unfold csr_ok. rewrite !andb_true_iff.
  intros [[[[[H0 Hlen] Hfirst] Hlast] Hrows] Hev].
  apply Z.leb_le in H0. apply Z.eqb_eq in Hlen, Hfirst, Hlast.
  repeat split; try assumption.
  - pose proof (forallb_seqZ _ 0 (nrows sm) r Hrows ltac:(lia)) as Hr.
    apply andb_true_iff in Hr. apply Z.leb_le. tauto.
  - pose proof (forallb_seqZ _ 0 (nrows sm) r Hrows ltac:(lia)) as Hr.
    apply andb_true_iff in Hr. tauto.
  - intros vals Hvals. rewrite Hvals in Hev. now apply Z.eqb_eq.
Qed.

Lemma row_pointers_monotone (sm : SparseMatrixRef T) :
  csr_ok sm = true ->
  forall a b, 0 <= a -> a <= b -> b <= nrows sm ->
    zget (rp (base sm)) a <= zget (rp (base sm)) b.
Proof.
  intros Hok a b Ha Hab Hb.
  destruct (csr_ok_spec sm Hok) as (_ & _ & _ & _ & Hrows & _).
  apply (ascending_range (rp (base sm)) 0 (nrows sm + 1)); try lia.
  intros k Hk. apply Hrows. lia.
Qed.

(** The sub-range of a row lies inside the column-index buffer. *)
Lemma row_range (sm : SparseMatrixRef T) (i : Z) :
  csr_ok sm = true -> 0 <= i < nrows sm ->
  0 <= zget (rp (base sm)) i
  /\ zget (rp (base sm)) i <= zget (rp (base sm)) (i + 1)
  /\ zget (rp (base sm)) (i + 1) <= Z.of_nat (length (ci (base sm))).
Proof.
  intros Hok Hi.
  destruct (csr_ok_spec sm Hok) as (_ & _ & Hfirst & Hlast & _ & _).
  pose proof (row_pointers_monotone sm Hok 0 i) as H1.
  pose proof (row_pointers_monotone sm Hok i (i + 1)) as H2.
  pose proof (row_pointers_monotone sm Hok (i + 1) (nrows sm)) as H3.
  lia.
Qed.

(** C1. On a 2-D sparse view with explicit values that satisfies the CSR
    invariant, the indexed read [view(i, j)] at an in-range 0-based position
    -- the binary search for the 1-based key [j + 1] in the column indices
    between [rowPointer[i]] and [rowPointer[i+1]] -- returns what the linear
    scan of the same sub-range finds: the explicit value at the matching
    offset, otherwise the implicit value. *)
Theorem random_read_matches_linear_scan (sm : SparseMatrixRef T) (i j : Z) :
  csr_ok sm = true ->
  explicitValuesQ (base sm) = true ->
  0 <= i < rows sm ->
  0 <= j < cols sm ->
  SparseMatrixRef_index sm i j = Ret (linear_scan_read sm i j).
Proof.
  intros Hok Hev Hi Hj. unfold rows in Hi.
  destruct (csr_ok_spec sm Hok) as (_ & Hlen & _ & _ & Hrows & Hvals).
  destruct (row_range sm i Hok Hi) as (Hlo0 & Hlohi & Hhi).
  destruct (Hrows i Hi) as [_ Hsorted].
  unfold SparseMatrixRef_index, linear_scan_read. rewrite Hev. simpl.
  rewrite !tensor_at_zget by lia. simpl.
  set (lower := zget (rp (base sm)) i) in *.
  set (upper := zget (rp (base sm)) (i + 1)) in *.
  unfold lower_bound.
  destruct (lower_bound_loop_spec (ci (base sm)) (j + 1)
              (Z.to_nat (upper - lower)) lower (upper - lower))
    as (p & Hp & Hr & Hbelow & Habove); try lia.
  { intros a b Ha Hab Hb. apply (row_sorted_spec _ lower upper Hsorted); lia. }
  rewrite Hp. simpl.
  destruct (Z.eqb_spec p upper) as [->|Hne].
  - rewrite linear_find_none; [reflexivity|].
    intros q Hq. specialize (Hbelow q). lia.
  - rewrite tensor_at_zget by lia. simpl.
    destruct (Z.eqb_spec (zget (ci (base sm)) p) (j + 1)) as [Hkey|Hnokey].
    + rewrite (linear_find_first _ _ _ lower p); try lia.
      2:{ intros q Hq. specialize (Hbelow q). lia. }
      unfold ev_at, ev_get, explicitValuesQ in *.
      destruct (ev (base sm)) as [vals|]; [|discriminate].
      specialize (Hvals vals eq_refl).
      replace (lower + (p - lower)) with p by lia.
      apply tensor_at_Ret. lia.
    + rewrite linear_find_none; [reflexivity|].
      intros q Hq. destruct (Z.lt_ge_cases q p) as [Hqp|Hqp].
      * specialize (Hbelow q). lia.
      * assert (zget (ci (base sm)) p <= zget (ci (base sm)) q)
          by (apply (row_sorted_spec _ lower upper Hsorted); lia).
        specialize (Habove p). lia.
Qed.

(** ** Pattern arrays *)

Lemma index_of_pattern_array (sm : SparseMatrixRef T) (i j : Z) :
  ev (base sm) = None ->
  SparseMatrixRef_index sm i j
  = Throw (LibraryError_msg "SparseMatrixRef: cannot index into a pattern array."
                            LIBRARY_FUNCTION_ERROR).
Proof.
  intros Hpat. unfold SparseMatrixRef_index, explicitValuesQ. now rewrite Hpat.
Qed.

(** C3, as amended. On a pattern array ([explicitValuesQ() == false]) the
    indexed read [view(i, j)] of the 2-D sparse view returns no value at any
    position: it throws the [LibraryError] "SparseMatrixRef: cannot index
    into a pattern array.". *)
Theorem pattern_read_throws (sm : SparseMatrixRef T) (i j : Z) :
  explicitValuesQ (base sm) = false ->
  SparseMatrixRef_index sm i j
  = Throw (LibraryError_msg "SparseMatrixRef: cannot index into a pattern array."
                            LIBRARY_FUNCTION_ERROR).
Proof.
  intros Hpat. apply index_of_pattern_array.
  unfold explicitValuesQ in Hpat. now destruct (ev (base sm)).
Qed.

(** ** The iterator of a sparse matrix *)

(** [size - row] turns are enough for the row loop of [begin] and [++]. *)
Lemma advance_row_fuel (sm : SparseMatrixRef T) (idx : Z) :
  forall (fuel fuel' : nat) (row : Z),
    (Z.to_nat (size sm - row) <= fuel)%nat ->
    (Z.to_nat (size sm - row) <= fuel')%nat ->
    advance_row fuel sm idx row = advance_row fuel' sm idx row.
Proof.
  induction fuel as [|fuel IH]; intros fuel' row Hfuel Hfuel'.
  - destruct fuel' as [|fuel']; [reflexivity|]. simpl.
    destruct (tensor_at (rp (base sm)) (row + 1)) as [r| |]; try reflexivity. simpl.
    destruct (Z.ltb_spec row (size sm)); [lia|].
    now rewrite andb_false_r.
  - simpl. destruct fuel' as [|fuel']; simpl;
      destruct (tensor_at (rp (base sm)) (row + 1)) as [r| |]; try reflexivity; simpl.
    + destruct (Z.ltb_spec row (size sm)); [lia|].
      now rewrite andb_false_r.
    + destruct ((r =? idx) && (row <? size sm)) eqn:Hc; [|reflexivity].
      apply andb_true_iff in Hc. destruct Hc as [_ Hrow%Z.ltb_lt].
      apply IH; lia.
Qed.

(** [row_index] turns are enough for the row loop of [--]. *)
Lemma retreat_row_fuel (sm : SparseMatrixRef T) (idx : Z) :
  forall (fuel fuel' : nat) (row : Z),
    (Z.to_nat row <= fuel)%nat -> (Z.to_nat row <= fuel')%nat ->
    retreat_row fuel sm idx row = retreat_row fuel' sm idx row.
Proof.
  induction fuel as [|fuel IH]; intros fuel' row Hfuel Hfuel'.
  - destruct fuel' as [|fuel']; [reflexivity|]. simpl.
    destruct (tensor_at (rp (base sm)) row) as [r| |]; try reflexivity. simpl.
    destruct (Z.ltb_spec 0 row); [lia|].
    now rewrite andb_false_r.
  - simpl. destruct fuel' as [|fuel']; simpl;
      destruct (tensor_at (rp (base sm)) row) as [r| |]; try reflexivity; simpl.
    + destruct (Z.ltb_spec 0 row); [lia|].
      now rewrite andb_false_r.
    + destruct ((r =? idx) && (0 <? row)) eqn:Hc; [|reflexivity].
      apply andb_true_iff in Hc. destruct Hc as [_ Hrow%Z.ltb_lt].
      apply IH; lia.
Qed.

(** With at least one row, the row loop of [begin] stays inside the row
    pointers: it stops before the last one, which holds the positive number
    of stored entries whenever the loop can still go on. *)
Lemma advance_row_begin_returns (sm : SparseMatrixRef T) :
  csr_ok sm = true ->
  forall (fuel : nat) (row : Z),
    0 <= row < nrows sm ->
    exists r, advance_row fuel sm 0 row = Ret r.
Proof.
  intros Hok. destruct (csr_ok_spec sm Hok) as (_ & Hlen & _ & Hlast & _ & _).
  induction fuel as [|fuel IH]; intros row Hrow; simpl;
    rewrite tensor_at_zget by lia; simpl.
  - now exists row.
  - destruct ((zget (rp (base sm)) (row + 1) =? 0) && (row <? size sm)) eqn:Hc.
    + apply andb_true_iff in Hc. destruct Hc as [Hz%Z.eqb_eq Hsz%Z.ltb_lt].
      apply IH. unfold size, SparseArrayRef_size, SparseArrayRef_length in Hsz.
      destruct (Z.eq_dec (row + 1) (nrows sm)) as [Heq|Hne]; [|lia].
      rewrite Heq in Hz. lia.
    + now exists row.
Qed.

(** C9. Equality and inequality of sparse-matrix iterators compare the
    storage offsets only, whatever the two row indices are; hence the
    iterator [begin()] returns equals [end()] exactly when the view has no
    explicitly stored entry.  [begin()] returns on every view that satisfies
    the CSR invariant and has at least one row. *)
Theorem begin_equals_end_iff_empty (sm : SparseMatrixRef T) :
  (forall r1 r2 i1 i2,
      iterator_eq {| row_index := r1; index := i1 |} {| row_index := r2; index := i2 |}
      = (i1 =? i2)
      /\ iterator_ne {| row_index := r1; index := i1 |} {| row_index := r2; index := i2 |}
         = negb (i1 =? i2))
  /\ (forall b, SparseMatrixRef_begin sm = Ret b ->
                (iterator_eq b (SparseMatrixRef_end sm) = true <-> size sm = 0)
                /\ (iterator_ne b (SparseMatrixRef_end sm) = true <-> size sm <> 0))
  /\ (csr_ok sm = true -> 0 < rows sm -> exists b, SparseMatrixRef_begin sm = Ret b).
Proof.
  split; [intros; split; reflexivity|]. split.
  - intros b. unfold SparseMatrixRef_begin.
    destruct (advance_row (Z.to_nat (size sm - 0)) sm 0 0) as [r| |]; try discriminate.
    intros [= <-].
    unfold iterator_eq, iterator_ne, SparseMatrixRef_end. cbn [index].
    destruct (Z.eqb_spec 0 (size sm)); cbn [negb]; split; split; intros;
      solve [lia | congruence].
  - intros Hok Hrows. unfold SparseMatrixRef_begin.
    destruct (advance_row_begin_returns sm Hok (Z.to_nat (size sm - 0)) 0) as [r Hr];
      [unfold rows in Hrows; lia|].
    rewrite Hr. now eexists.
Qed.

End SparseMatrixProperties.

(** The read at row 2, column 1 of the sample matrix. *)
Lemma random_read_matches_linear_scan_witness :
  csr_ok sm_sample = true
  /\ explicitValuesQ (base sm_sample) = true
  /\ 0 <= 2 < rows sm_sample /\ 0 <= 1 < cols sm_sample
  /\ SparseMatrixRef_index sm_sample 2 1 = Ret (linear_scan_read sm_sample 2 1).
Proof.
  split; [reflexivity|]. split; [reflexivity|].
  split; [unfold rows; simpl; lia|]. split; [unfold cols; simpl; lia|].
  apply (random_read_matches_linear_scan Z sm_sample 2 1);
    [reflexivity | reflexivity | unfold rows; simpl; lia | unfold cols; simpl; lia].
Defined.

(** C3, the claim as stated fails: the read of a pattern array at an
    in-range position is not the implicit value. *)
Lemma pattern_read_is_not_implicit :
  csr_ok sm_pattern = true
  /\ explicitValuesQ (base sm_pattern) = false
  /\ 0 <= 0 < rows sm_pattern /\ 0 <= 0 < cols sm_pattern
  /\ SparseMatrixRef_index sm_pattern 0 0 <> Ret (implicitValue (base sm_pattern)).
Proof.
  repeat split; try reflexivity; try (unfold rows, cols; simpl; lia).
  intros H. discriminate H.
Qed.

Lemma pattern_read_throws_witness :
  explicitValuesQ (base sm_pattern) = false
  /\ SparseMatrixRef_index sm_pattern 0 0
     = Throw (LibraryError_msg "SparseMatrixRef: cannot index into a pattern array."
                               LIBRARY_FUNCTION_ERROR).
Proof.
  split; [reflexivity|].
  apply (pattern_read_throws Z sm_pattern 0 0). reflexivity.
Defined.

Lemma begin_equals_end_iff_empty_witness :
  csr_ok sm_empty = true
  /\ 0 < rows sm_empty
  /\ exists b, SparseMatrixRef_begin sm_empty = Ret b
               /\ (iterator_eq b (SparseMatrixRef_end sm_empty) = true <-> size sm_empty = 0).
Proof.
  split; [reflexivity|]. split; [unfold rows; simpl; lia|].
  destruct (begin_equals_end_iff_empty Z sm_empty) as (_ & Hiff & Hret).
  destruct Hret as [b Hb]; [reflexivity | unfold rows; simpl; lia |].
  exists b. split; [exact Hb|]. exact (proj1 (Hiff b Hb)).
Defined.

(** [begin()] and [end()] of a matrix without stored entries are equal and
    carry different row indices. *)
Lemma begin_end_rows_differ :
  SparseMatrixRef_begin sm_empty = Ret {| row_index := 0; index := 0 |}
  /\ SparseMatrixRef_end sm_empty = {| row_index := 2; index := 0 |}
  /\ iterator_eq {| row_index := 0; index := 0 |} (SparseMatrixRef_end sm_empty) = true.
Proof. repeat split. Qed.

(** C2, the code at the failing input: in a 3 x 3 matrix whose one stored
    entry is in row 2, the row loop of [begin()] stops at [row_index <
    size()], that is at row 1, and the traversal reports the entry in row 1. *)
Theorem begin_stops_at_size_not_rows :
  csr_ok sm_last_row = true
  /\ explicit_entries sm_last_row = [(2, 0, 7)]
  /\ SparseMatrixRef_begin sm_last_row = Ret {| row_index := 1; index := 0 |}
  /\ traverse sm_last_row = Ret [(1, 0, 7)].
Proof. repeat split. Qed.

(** The last increment of a traversal reads the row pointer after the last
    one when the matrix has at least as many stored entries as rows: the
    test reads [rp[row_index+1]] before it compares [row_index]. *)
Lemma last_increment_reads_past_row_pointers :
  csr_ok sm_diag = true
  /\ iterator_incr sm_diag {| row_index := 0; index := 0 |}
     = Ret {| row_index := 1; index := 1 |}
  /\ iterator_incr sm_diag {| row_index := 1; index := 1 |} = Undefined
  /\ traverse sm_diag = Undefined.
Proof. repeat split. Qed.

(** ** Calls into the host *)

Section HostProperties.

Variable T : Type.
Variable T_type : Z.
Variable T_zero : T.
Variable NDEBUG : bool.
Variable libData : WolframLibraryData T.

Lemma M_bind_Ret {A B : Type} (m : M T A) (f : A -> M T B) (h h' : host T) (a : A) :
  m h = (Ret a, h') -> (m ≫= f) h = f a h'.
Proof. intros Hm. unfold mbind, M_bind. now rewrite Hm. Qed.

Lemma M_bind_Throw {A B : Type} (m : M T A) (f : A -> M T B) (h h' : host T) e :
  m h = (Throw e, h') -> (m ≫= f) h = (Throw e, h').
Proof. intros Hm. unfold mbind, M_bind. now rewrite Hm. Qed.

Lemma host_ok_S (n : nat) (h : host T) :
  host_ok (S n) h = true ->
  default 0 (head (host_errors h)) = 0
  /\ host_ok n {| tensors := tensors h; next := next h;
                  host_errors := tail (host_errors h) |} = true.
Proof.
  unfold host_ok. destruct (host_errors h) as [|e es].
  - intros _. split; [reflexivity|]. now destruct n.
  - cbn [take forallb host_errors tail head default from_option].
    intros [He Hes]%andb_true_iff. apply Z.eqb_eq in He. subst e. now split.
Qed.

Lemma host_ok_head (n : nat) (m : gmap positive (tensor_obj T)) (p : positive) (es : list Z) :
  host_ok (S n) (mkHost m p es) = true ->
  default 0 (head es) = 0 /\ host_ok n (mkHost m p (tail es)) = true.
Proof. apply (host_ok_S n (mkHost m p es)). Qed.

Lemma host_ok_weaken (n : nat) (m : gmap positive (tensor_obj T)) (p : positive) (es : list Z) :
  host_ok (S n) (mkHost m p es) = true -> host_ok n (mkHost m p es) = true.
Proof.
  unfold host_ok. cbn [host_errors]. revert es.
  induction n as [|n IH]; intros es; [reflexivity|].
  destruct es as [|e es]; [reflexivity|].
  change (take (S (S n)) (e :: es)) with (e :: take (S n) es).
  change (take (S n) (e :: es)) with (e :: take n es).
  cbn [forallb]. intros [He Hes]%andb_true_iff.
  rewrite He. cbn [andb]. now apply IH.
Qed.

Lemma host_tensor_live (h : host T) (p : positive) (obj : tensor_obj T) :
  tensors h !! p = Some obj -> host_tensor (Some p) h = (Ret obj, h).
Proof. intros Hp. unfold host_tensor. now rewrite Hp. Qed.

Lemma MTensor_new_ok (m : gmap positive (tensor_obj T)) (p : positive) (es : list Z)
      (type : Z) (dims : list Z) :
  default 0 (head es) = 0 ->
  MTensor_new T_type T_zero type dims (mkHost m p es)
  = (Ret (0, Some p),
     mkHost (<[p := {| t_type := type; t_dims := dims;
                       t_data := replicate (Z.to_nat (flattened_length dims))
                                           (zero_cell T_type T_zero type) |}]> m)
            (Pos.succ p) (tail es)).
Proof.
  intros Hhd. unfold MTensor_new, host_call_status, host_alloc, mbind, M_bind, mret, M_ret.
  cbn [host_errors tensors next]. rewrite Hhd. reflexivity.
Qed.

Lemma MTensor_free_live (h : host T) (p : positive) (obj : tensor_obj T) :
  tensors h !! p = Some obj ->
  MTensor_free (Some p) h
  = (Ret tt, mkHost (delete p (tensors h)) (next h) (host_errors h)).
Proof. intros Hp. unfold MTensor_free. now rewrite Hp. Qed.

Lemma tensor_write_live (m : gmap positive (tensor_obj T)) (n : positive) (es : list Z)
      (p : positive) (obj : tensor_obj T) (i : Z) (c : cell T) (d : list (cell T)) :
  m !! p = Some obj ->
  tensor_set (t_data obj) i c = Ret d ->
  tensor_write (Some p) i c (mkHost m n es)
  = (Ret tt, mkHost (<[p := {| t_type := t_type obj; t_dims := t_dims obj; t_data := d |}]> m)
                    n es).
Proof. intros Hp Hd. unfold tensor_write. cbn [tensors]. now rewrite Hp, Hd. Qed.

Lemma TensorRef_of_live (h : host T) (p : positive) (obj : tensor_obj T) :
  tensors h !! p = Some obj ->
  TensorRef_of (Some p) h
  = (Ret {| tensor := Some p; len := Z.of_nat (length (t_data obj)) |}, h).
Proof.
  intros Hp. unfold TensorRef_of, MTensor_getFlattenedLength, mbind, M_bind; simpl.
  now rewrite Hp.
Qed.

Lemma MatrixRef_of_live (h : host T) (p : positive) (obj : tensor_obj T) (n r c : Z) :
  tensors h !! p = Some obj -> t_dims obj = [r; c] ->
  MatrixRef_of {| tensor := Some p; len := n |} h
  = (Ret {| mr_ref := {| tensor := Some p; len := n |}; mr_nrows := r; mr_ncols := c |}, h).
Proof.
  intros Hp Hdims.
  unfold MatrixRef_of, TensorRef_rank, TensorRef_dimensions, MTensor_getRank,
    MTensor_getDimensions, lift, mbind, M_bind, mret, M_ret; simpl.
  rewrite Hp, Hdims. simpl. rewrite Hp, Hdims. reflexivity.
Qed.

Lemma makeMatrix_ok (m : gmap positive (tensor_obj T)) (p : positive) (es : list Z)
      (type r c : Z) :
  default 0 (head es) = 0 ->
  makeMatrix T_type T_zero type r c (mkHost m p es)
  = (Ret {| mr_ref := {| tensor := Some p;
                         len := Z.of_nat (length (replicate (Z.to_nat (flattened_length [r; c]))
                                                            (zero_cell T_type T_zero type))) |};
            mr_nrows := r; mr_ncols := c |},
     mkHost (<[p := {| t_type := type; t_dims := [r; c];
                       t_data := replicate (Z.to_nat (flattened_length [r; c]))
                                           (zero_cell T_type T_zero type) |}]> m)
            (Pos.succ p) (tail es)).
Proof.
  intros Hhd.
  unfold makeMatrix, makeTensor, MTensor_new, host_call_status, host_alloc, TensorRef_of,
    MatrixRef_of, TensorRef_rank, TensorRef_dimensions, MTensor_getRank,
    MTensor_getDimensions, MTensor_getFlattenedLength, host_tensor, lift,
    mbind, M_bind, mret, M_ret.
  cbn [host_errors tensors next]. rewrite Hhd.
  repeat first [progress simpl | rewrite lookup_insert_eq]. reflexivity.
Qed.

Lemma massert_true (cond : bool) (h : host T) :
  cond = true -> massert NDEBUG cond h = (Ret tt, h).
Proof. intros ->. unfold massert. now destruct NDEBUG. Qed.

Lemma massert_false (cond : bool) (h : host T) :
  NDEBUG = false -> cond = false ->
  massert NDEBUG cond h = (Throw (LibraryError_code LIBRARY_FUNCTION_ERROR), h).
Proof. intros Hd ->. unfold massert. now rewrite Hd. Qed.

Lemma fromExplicitPositions_ok (m : gmap positive (tensor_obj T)) (n : positive)
      (es : list Z) (pos vals dims it : positive) (p v d i : tensor_obj T) :
  m !! pos = Some p -> m !! vals = Some v -> m !! dims = Some d -> m !! it = Some i ->
  default 0 (head es) = 0 ->
  MSparseArray_fromExplicitPositions libData (Some pos) (Some vals) (Some dims) (Some it)
                                     (mkHost m n es)
  = (Ret (0, Some (host_fromExplicitPositions libData p v d i)), mkHost m n (tail es)).
Proof.
  intros Hp Hv Hd Hi Hhd.
  unfold MSparseArray_fromExplicitPositions, host_tensor, host_call_status,
    mbind, M_bind, mret, M_ret.
  repeat first [ progress cbn [tensors next host_errors]
               | rewrite Hp | rewrite Hv | rewrite Hd | rewrite Hi | rewrite Hhd ].
  reflexivity.
Qed.

(** After the end of [makeSparseArray] the sparse array has explicit values,
    when the host call that may be needed succeeds. *)
Lemma insert_explicitValues_ok (msa : MSparseArray T) (m : gmap positive (tensor_obj T))
      (n : positive) (es : list Z) :
  host_ok 1 (mkHost m n es) = true ->
  exists msa' es',
    insert_explicitValues T_zero msa (mkHost m n es) = (Ret msa', mkHost m n es')
    /\ (es' = es \/ es' = tail es)
    /\ sp_columnIndices msa' = sp_columnIndices msa
    /\ exists vals, sp_explicitValues msa' = Some vals.
Proof.
  intros Hok. destruct (host_ok_head 0 m n es Hok) as [Hhd _].
  unfold insert_explicitValues. destruct (sp_explicitValues msa) as [vals|] eqn:Hev.
  - exists msa, es. repeat split; eauto.
  - unfold host_call_status, mbind, M_bind, mret, M_ret. cbn [tensors next host_errors].
    rewrite Hhd. cbn [Z.eqb]. eexists _, _. split; [reflexivity|].
    cbn [sp_columnIndices sp_explicitValues]. repeat split; eauto.
Qed.

(** The view the constructor builds: its explicit values are the host's, and
    it has as many column indices as the host holds. *)
Lemma SparseArrayRef_of_ok (msa : MSparseArray T) (m : gmap positive (tensor_obj T))
      (n : positive) (es : list Z) :
  host_ok 1 (mkHost m n es) = true ->
  exists s es',
    SparseArrayRef_of msa (mkHost m n es) = (Ret s, mkHost m n es')
    /\ ev s = sp_explicitValues msa
    /\ SparseArrayRef_length s = stored_columns msa.
Proof.
  intros Hok. destruct (host_ok_head 0 m n es Hok) as [Hhd _].
  unfold SparseArrayRef_of, getColumnIndices, stored_columns.
  destruct (sp_columnIndices msa) as [c|] eqn:Hci.
  - eexists _, es. split; [reflexivity|]. cbn [ev ci].
    unfold getExplicitValues, SparseArrayRef_length. cbn [ci].
    split; [now destruct (sp_explicitValues msa)|reflexivity].
  - unfold host_call_status, mbind, M_bind, mret, M_ret. cbn [tensors next host_errors].
    rewrite Hhd. cbn [Z.eqb]. eexists _, _. split; [reflexivity|].
    unfold getExplicitValues, SparseArrayRef_length. cbn [ev ci sp_explicitValues].
    split; [now destruct (sp_explicitValues msa)|reflexivity].
Qed.

Lemma SparseArrayRef_of_ev (msa : MSparseArray T) (h h' : host T) (s : SparseArrayRef T) :
  SparseArrayRef_of msa h = (Ret s, h') -> ev s = sp_explicitValues msa.
Proof.
  unfold SparseArrayRef_of, getColumnIndices, getExplicitValues.
  destruct (sp_columnIndices msa) as [c|].
  - intros [= <- _]. cbn [ev]. now destruct (sp_explicitValues msa).
  - unfold host_call_status, mbind, M_bind, mret, M_ret, undefined.
    destruct (default 0 (head (host_errors h)) =? 0); [|discriminate].
    intros [= <- _]. cbn [ev sp_explicitValues]. now destruct (sp_explicitValues msa).
Qed.

(** C4. When the host reports no explicit-values buffer, every view the
    constructor builds has [explicitValuesQ() == false]; [explicitValues()]
    then throws the [LibraryError] of a pattern array instead of returning
    data, and so does the indexed read of every 2-D view of it.  The
    constructor builds a view whenever the host call it may need succeeds. *)
Theorem pattern_array_access (msa : MSparseArray T) (h : host T) :
  sp_explicitValues msa = None ->
  (forall s h',
      SparseArrayRef_of msa h = (Ret s, h') ->
      explicitValuesQ s = false
      /\ explicitValues s
         = Throw (LibraryError_msg "SparseArrayRef::explicitValues() called on pattern array."
                                   LIBRARY_FUNCTION_ERROR)
      /\ forall sm i j,
           base sm = s ->
           SparseMatrixRef_index sm i j
           = Throw (LibraryError_msg "SparseMatrixRef: cannot index into a pattern array."
                                     LIBRARY_FUNCTION_ERROR))
  /\ (host_ok 1 h = true -> exists s h', SparseArrayRef_of msa h = (Ret s, h')).
Proof.
  intros Hnone. split.
  - intros s h' Hs. pose proof (SparseArrayRef_of_ev msa h h' s Hs) as Hev.
    rewrite Hnone in Hev.
    split; [unfold explicitValuesQ; now rewrite Hev|].
    split; [unfold explicitValues; now rewrite Hev|].
    intros sm i j Hbase. apply index_of_pattern_array. now rewrite Hbase.
  - intros Hok. destruct h as [m n es].
    destruct (SparseArrayRef_of_ok msa m n es Hok) as (s & es' & Hs & _ & _).
    now exists s, (mkHost m n es').
Qed.

(** The path of [makeSparseArray] on which every host call succeeds: called
    with a positions matrix without rows and an empty values tensor it
    returns a view with [explicitValuesQ() == true] and [length() == 0]; when
    the host builds a pattern array from no positions, the factory inserts an
    empty explicit-values buffer.  The host is taken to build no column index
    from no position. *)
Lemma makeSparseArray_never_pattern
        (pos vals dims : positive) (pobj vobj dobj : tensor_obj T) (k : Z) (imp : T)
        (h : host T) :
  (forall p v d i, t_data p = [] ->
                   stored_columns (host_fromExplicitPositions libData p v d i) = 0) ->
  tensors h !! pos = Some pobj -> t_dims pobj = [0; k] -> t_data pobj = [] ->
  tensors h !! vals = Some vobj -> t_data vobj = [] ->
  tensors h !! dims = Some dobj -> Z.of_nat (length (t_data dobj)) = k ->
  tensors h !! next h = None ->
  host_ok 4 h = true ->
  exists s h',
    call_makeSparseArray T_type T_zero NDEBUG libData (Some pos) (Some vals) (Some dims) imp h
    = (Ret s, h')
    /\ explicitValuesQ s = true
    /\ SparseArrayRef_length s = 0
    /\ tensors h' = tensors h.
Proof.
  intros Hhost Hp Hpd Hpe Hv Hve Hd Hdl Hfresh Hok.
  destruct h as [m n es]. cbn [tensors next] in *.
  assert (Hpn : n <> pos) by (intros ->; congruence).
  assert (Hvn : n <> vals) by (intros ->; congruence).
  assert (Hdn : n <> dims) by (intros ->; congruence).
  destruct (host_ok_head 3 m n es Hok) as [Hhd0 Hok3].
  destruct (host_ok_head 2 m n _ Hok3) as [Hhd1 Hok2].
  pose proof (host_ok_weaken 1 m n _ Hok2) as Hok2'.
  destruct (host_ok_head 1 m n _ Hok2) as [_ Hok1].
  unfold call_makeSparseArray.
  erewrite M_bind_Ret by (apply (TensorRef_of_live (mkHost m n es) pos pobj Hp)).
  erewrite M_bind_Ret by (apply (MatrixRef_of_live (mkHost m n es) pos pobj _ 0 k Hp Hpd)).
  erewrite M_bind_Ret by (apply (TensorRef_of_live (mkHost m n es) vals vobj Hv)).
  erewrite M_bind_Ret by (apply (TensorRef_of_live (mkHost m n es) dims dobj Hd)).
  unfold makeSparseArray.
  erewrite M_bind_Ret.
  2:{ apply massert_true. unfold MatrixRef_cols, TensorRef_size. cbn [mr_ncols len].
      apply Z.eqb_eq. lia. }
  erewrite M_bind_Ret.
  2:{ apply massert_true. unfold MatrixRef_rows, TensorRef_size. cbn [mr_nrows len].
      now rewrite Hve. }
  erewrite M_bind_Ret by (apply MTensor_new_ok; exact Hhd0).
  cbn [Z.eqb negb next tensors host_errors].
  erewrite M_bind_Ret.
  2:{ eapply tensor_write_live; [apply lookup_insert_eq|reflexivity]. }
  rewrite insert_insert_eq. cbn [t_type t_dims].
  erewrite M_bind_Ret.
  2:{ eapply fromExplicitPositions_ok; try exact Hhd1;
        first [ apply lookup_insert_eq | rewrite lookup_insert_ne by assumption; eassumption ]. }
  set (msa := host_fromExplicitPositions libData pobj vobj dobj _).
  cbv beta iota.
  erewrite M_bind_Ret.
  2:{ eapply MTensor_free_live. cbn [tensors]. apply lookup_insert_eq. }
  cbn [Z.eqb negb next tensors host_errors].
  rewrite delete_insert_eq, (delete_id m n Hfresh).
  destruct (insert_explicitValues_ok msa m (Pos.succ n) (tail (tail es)) Hok2')
    as (msa' & es' & Hins & Hes' & Hci & vals' & Hev).
  erewrite M_bind_Ret by exact Hins.
  destruct (SparseArrayRef_of_ok msa' m (Pos.succ n) es') as (s & es'' & Hs & Hevs & Hlen).
  { destruct Hes' as [->| ->]; assumption. }
  exists s, (mkHost m (Pos.succ n) es''). split; [exact Hs|].
  split; [unfold explicitValuesQ; now rewrite Hevs, Hev|].
  split; [|reflexivity].
  rewrite Hlen. unfold stored_columns. rewrite Hci. now apply Hhost.
Qed.


(** C10. [explicitPositions()] returns an integer tensor of rank 2 with one
    row per explicitly stored entry and as many columns as the rank of the
    array; for an array without stored entries, where the host produces a
    rank-0 tensor, that tensor is freed and a new 0-by-rank matrix is
    returned.  The host calls are taken to succeed. *)
Theorem explicitPositions_shape (s : SparseArrayRef T) (h : host T) :
  (forall msa,
      t_type (host_getExplicitPositions libData msa) = MType_Integer
      /\ t_dims (host_getExplicitPositions libData msa)
         = if stored_count msa =? 0 then []
           else [stored_count msa; MSparseArray_getRank msa]) ->
  host_ok 2 h = true ->
  exists tr p obj h',
    explicitPositions T_type T_zero libData s h = (Ret tr, h')
    /\ tensor tr = Some p
    /\ tensors h' !! p = Some obj
    /\ t_type obj = MType_Integer
    /\ t_dims obj = [stored_count (sa s); SparseArrayRef_rank s]
    /\ len tr = Z.of_nat (length (t_data obj))
    /\ (stored_count (sa s) = 0 ->
        p = Pos.succ (next h) /\ tensors h' !! next h = None /\ t_data obj = []).
Proof.
  intros Hshape Hok. destruct h as [m p es].
  destruct (Hshape (sa s)) as [Hty Hdims].
  destruct (host_ok_head 1 m p es Hok) as [Hhd Hok1].
  destruct (host_ok_head 0 m p (tail es) Hok1) as [Hhd1 _].
  unfold explicitPositions.
  erewrite M_bind_Ret.
  2:{ unfold MSparseArray_getExplicitPositions, host_call_status, host_alloc,
        mbind, M_bind, mret, M_ret.
      cbn [host_errors tensors next]. rewrite Hhd. reflexivity. }
  cbn [Z.eqb negb].
  erewrite M_bind_Ret.
  2:{ unfold MTensor_getRank. erewrite M_bind_Ret; [reflexivity|].
      apply host_tensor_live. cbn [tensors]. apply lookup_insert_eq. }
  rewrite Hdims.
  destruct (Z.eqb_spec (stored_count (sa s)) 0) as [Hz|Hnz].
  - change (Z.of_nat (length []) =? 0) with true. cbv iota.
    erewrite M_bind_Ret.
    2:{ eapply MTensor_free_live. cbn [tensors]. apply lookup_insert_eq. }
    cbn [tensors next host_errors].
    erewrite M_bind_Ret; [|apply makeMatrix_ok; exact Hhd1].
    eexists _, (Pos.succ p), _, _. split; [reflexivity|].
    cbn [tensor mr_ref tensors next t_type t_dims t_data len].
    split; [reflexivity|]. split; [apply lookup_insert_eq|].
    split; [reflexivity|]. rewrite Hz. split; [reflexivity|]. split; [reflexivity|].
    intros _. split; [reflexivity|]. split; [|reflexivity].
    rewrite lookup_insert_ne by lia. apply lookup_delete_eq.
  - change (Z.of_nat (length [stored_count (sa s); MSparseArray_getRank (sa s)]) =? 0)
      with false. cbv iota.
    erewrite TensorRef_of_live by (cbn [tensors]; apply lookup_insert_eq).
    eexists _, p, _, _. split; [reflexivity|].
    cbn [tensor tensors len]. split; [reflexivity|]. split; [apply lookup_insert_eq|].
    split; [exact Hty|]. split; [|split; [reflexivity|contradiction]].
    rewrite Hdims. destruct (Z.eqb_spec (stored_count (sa s)) 0); [contradiction|reflexivity].
Qed.


(** ** The temporary tensor of [resetImplicitValue] *)

(** When both host calls succeed the temporary rank-0 tensor is freed: the
    live tensors are those of before the call. *)
Lemma resetImplicitValue_frees_on_success (s : SparseArrayRef T) (v : T) (h : host T) :
  tensors h !! next h = None ->
  host_ok 3 h = true ->
  exists s' h',
    resetImplicitValue T_type T_zero libData s v h = (Ret s', h')
    /\ tensors h' = tensors h.
Proof.
  intros Hfresh Hok. destruct h as [m n es]. cbn [tensors next] in *.
  destruct (host_ok_head 2 m n es Hok) as [Hhd0 Hok2].
  destruct (host_ok_head 1 m n _ Hok2) as [Hhd1 Hok1].
  unfold resetImplicitValue.
  erewrite M_bind_Ret by (apply MTensor_new_ok; exact Hhd0).
  cbn [Z.eqb negb].
  erewrite M_bind_Ret.
  2:{ eapply tensor_write_live; [apply lookup_insert_eq|reflexivity]. }
  rewrite insert_insert_eq. cbn [t_type t_dims].
  erewrite M_bind_Ret.
  2:{ unfold MSparseArray_resetImplicitValue.
      erewrite M_bind_Ret by (apply host_tensor_live; cbn [tensors]; apply lookup_insert_eq).
      unfold host_call_status, mbind, M_bind, mret, M_ret. cbn [tensors next host_errors].
      rewrite Hhd1. reflexivity. }
  cbv beta iota. cbn [Z.eqb negb].
  erewrite M_bind_Ret.
  2:{ eapply MTensor_free_live. cbn [tensors]. apply lookup_insert_eq. }
  cbn [next tensors host_errors SparseArrayRef_of_ptr].
  rewrite delete_insert_eq, (delete_id m n Hfresh).
  match goal with
  | |- context [SparseArrayRef_of ?msa _] =>
      destruct (SparseArrayRef_of_ok msa m (Pos.succ n) (tail (tail es)) Hok1)
        as (s' & es' & Hs & _ & _)
  end.
  exists s', (mkHost m (Pos.succ n) es'). split; [exact Hs|reflexivity].
Qed.

(** X20: when the host's reset call fails the function throws with the
    temporary tensor still live under the handle [MTensor_new] gave it:
    [MTensor_free] comes after the test of the error code. *)
Lemma resetImplicitValue_leaks_on_failure
      (s : SparseArrayRef T) (v : T) (h : host T) (e : Z) (es : list Z) :
  host_errors h = 0 :: e :: es ->
  e <> 0 ->
  exists h',
    resetImplicitValue T_type T_zero libData s v h
    = (Throw (LibraryError_msg "MSparseArray_resetImplicitValue() failed." e), h')
    /\ tensors h' !! next h
       = Some {| t_type := T_type; t_dims := []; t_data := [ElemCell v] |}.
Proof.
  intros Herr Hne. destruct h as [m n es0]. cbn [host_errors next] in *. subst es0.
  unfold resetImplicitValue.
  erewrite M_bind_Ret by (apply MTensor_new_ok; reflexivity).
  cbn [Z.eqb negb tail].
  erewrite M_bind_Ret.
  2:{ eapply tensor_write_live; [apply lookup_insert_eq|reflexivity]. }
  rewrite insert_insert_eq. cbn [t_type t_dims].
  erewrite M_bind_Ret.
  2:{ unfold MSparseArray_resetImplicitValue.
      erewrite M_bind_Ret by (apply host_tensor_live; cbn [tensors]; apply lookup_insert_eq).
      unfold host_call_status, mbind, M_bind, mret, M_ret.
      cbn [tensors next host_errors tail].
      change (default 0 (head (e :: es))) with e.
      destruct (Z.eqb_spec e 0) as [|_]; [contradiction|]. reflexivity. }
  cbv beta iota.
  destruct (Z.eqb_spec e 0) as [|_]; [contradiction|].
  cbn [negb]. eexists. split; [reflexivity|].
  cbn [tensors]. apply lookup_insert_eq.
Qed.

(** ** The tensor of [makeMatrix] when a row-length check fails *)

(** The inner loop writes a row that fits and leaves the tensor live. *)
Lemma makeMatrix_row_ok (n p : positive) (es : list Z) :
  forall (row : list T) (ptr : Z) (mp : gmap positive (tensor_obj T)) (obj : tensor_obj T),
    mp !! n = Some obj ->
    0 <= ptr ->
    ptr + Z.of_nat (length row) <= Z.of_nat (length (t_data obj)) ->
    exists obj',
      makeMatrix_row (Some n) ptr row (mkHost mp p es)
      = (Ret (ptr + Z.of_nat (length row)), mkHost (<[n := obj']> mp) p es)
      /\ length (t_data obj') = length (t_data obj).
Proof.
  induction row as [|el row IH]; intros ptr mp obj Hn Hptr Hlen.
  - exists obj. rewrite (insert_id mp n obj Hn).
    cbn [makeMatrix_row length Z.of_nat]. rewrite Z.add_0_r. split; reflexivity.
  - cbn [makeMatrix_row]. cbn [length] in Hlen.
    destruct (tensor_set_then_at (t_data obj) ptr (ElemCell el)) as [Hset _]; [lia|].
    erewrite M_bind_Ret by (eapply tensor_write_live; [exact Hn|exact Hset]).
    destruct (IH (ptr + 1) (<[n := {| t_type := t_type obj; t_dims := t_dims obj;
                                      t_data := <[Z.to_nat ptr := ElemCell el]> (t_data obj) |}]> mp)
                 {| t_type := t_type obj; t_dims := t_dims obj;
                    t_data := <[Z.to_nat ptr := ElemCell el]> (t_data obj) |})
      as (obj' & Hrow & Hlen').
    + apply lookup_insert_eq.
    + lia.
    + cbn [t_data]. rewrite length_insert. lia.
    + exists obj'. rewrite Hrow, insert_insert_eq. cbn [t_data] in Hlen'.
      rewrite length_insert in Hlen'. split; [|exact Hlen'].
      do 2 f_equal. cbn [length]. lia.
Qed.

(** Without [NDEBUG], with a row whose length is not the number of columns,
    the outer loop throws from [massert]; the tensor is live at the throw. *)
Lemma makeMatrix_rows_throws (t : MatrixRef) (n p : positive) (es : list Z) :
  NDEBUG = false ->
  tensor (mr_ref t) = Some n ->
  0 <= MatrixRef_cols t ->
  forall (m : list (list T)) (ptr : Z) (mp : gmap positive (tensor_obj T)) (obj : tensor_obj T),
    mp !! n = Some obj ->
    0 <= ptr ->
    ptr + Z.of_nat (length m) * MatrixRef_cols t <= Z.of_nat (length (t_data obj)) ->
    existsb (λ row, negb (Z.of_nat (length row) =? MatrixRef_cols t)) m = true ->
    exists mp',
      makeMatrix_rows NDEBUG t ptr m (mkHost mp p es)
      = (Throw (LibraryError_code LIBRARY_FUNCTION_ERROR), mkHost mp' p es)
      /\ is_Some (mp' !! n).
Proof.
  intros Hdebug Ht Hcols.
  induction m as [|row m IH]; intros ptr mp obj Hn Hptr Hlen Hjag; [discriminate|].
  cbn [makeMatrix_rows]. cbn [existsb] in Hjag. cbn [length] in Hlen.
  destruct (Z.of_nat (length row) =? MatrixRef_cols t) eqn:Hc.
  - apply Z.eqb_eq in Hc. cbn [negb orb] in Hjag.
    erewrite M_bind_Ret by (apply massert_true; reflexivity).
    rewrite Ht.
    destruct (makeMatrix_row_ok n p es row ptr mp obj Hn Hptr) as (obj' & Hrow & Hlen');
      [nia|].
    erewrite M_bind_Ret by exact Hrow.
    apply (IH _ _ obj'); [apply lookup_insert_eq|lia| |exact Hjag].
    rewrite Hlen'. nia.
  - erewrite M_bind_Throw by (apply massert_false; [exact Hdebug|reflexivity]).
    exists mp. split; [reflexivity|]. rewrite Hn. eauto.
Qed.

Lemma makeMatrix_init_throws_live (m : list (list T)) (h : host T) :
  NDEBUG = false ->
  host_ok 1 h = true ->
  existsb (λ row, negb (Z.of_nat (length row)
                        =? match m with [] => 0 | row0 :: _ => Z.of_nat (length row0) end)) m
  = true ->
  exists h',
    makeMatrix_init T_type T_zero NDEBUG m h
    = (Throw (LibraryError_code LIBRARY_FUNCTION_ERROR), h')
    /\ is_Some (tensors h' !! next h).
Proof.
  intros Hdebug Hok Hjag. destruct h as [mp n es].
  destruct (host_ok_head 0 mp n es Hok) as [Hhd _].
  unfold makeMatrix_init.
  erewrite M_bind_Ret by (apply makeMatrix_ok; exact Hhd).
  set (cols := match m with [] => 0 | row0 :: _ => Z.of_nat (length row0) end) in *.
  assert (Hcols : 0 <= cols) by (unfold cols; destruct m; lia).
  match goal with
  | |- context [makeMatrix_rows _ ?t 0 m] =>
      match goal with
      | |- context [<[n := ?obj]> mp] =>
          destruct (makeMatrix_rows_throws t n (Pos.succ n) (tail es) Hdebug eq_refl Hcols
                      m 0 (<[n := obj]> mp) obj) as (mp' & Hrows & Hlive)
      end
  end.
  - apply lookup_insert_eq.
  - lia.
  - cbn [t_data MatrixRef_cols mr_ncols flattened_length foldr].
    rewrite length_replicate. nia.
  - exact Hjag.
  - erewrite M_bind_Throw by exact Hrows.
    eexists. split; [reflexivity|]. exact Hlive.
Qed.

(** C6, as amended. A host handle that an operation allocates and does not
    hand back is released where the code calls the free operation, and an
    error that unwinds before that call leaves it allocated:
    [resetImplicitValue(iv)] frees the temporary rank-0 tensor it allocates
    when the host's reset call succeeds, and [makeMatrix] of a nested
    literal leaves the tensor it allocated live when a row-length check
    fails. *)
Theorem handles_released_by_explicit_free_only
        (s : SparseArrayRef T) (v : T) (m : list (list T)) (h : host T) :
  tensors h !! next h = None ->
  host_ok 3 h = true ->
  NDEBUG = false ->
  existsb (λ row, negb (Z.of_nat (length row)
                        =? match m with [] => 0 | row0 :: _ => Z.of_nat (length row0) end)) m
  = true ->
  (exists s' h',
      resetImplicitValue T_type T_zero libData s v h = (Ret s', h')
      /\ tensors h' = tensors h)
  /\ (exists h',
         makeMatrix_init T_type T_zero NDEBUG m h
         = (Throw (LibraryError_code LIBRARY_FUNCTION_ERROR), h')
         /\ is_Some (tensors h' !! next h)).
Proof.
  intros Hfresh Hok Hdebug Hjag. split.
  - now apply resetImplicitValue_frees_on_success.
  - apply makeMatrix_init_throws_live; try assumption.
    destruct h as [mp n es]. now apply host_ok_weaken, host_ok_weaken.
Qed.

End HostProperties.

(** The sample host builds no column index from no position, and its
    explicit positions have the shape the header expects of the host. *)
Lemma sample_host_no_positions (p v d i : tensor_obj Z) :
  t_data p = [] -> stored_columns (sample_fromExplicitPositions p v d i) = 0.
Proof. intros Hp. unfold stored_columns, sample_fromExplicitPositions. now rewrite Hp. Qed.

Lemma sample_host_positions_shape (msa : MSparseArray Z) :
  t_type (sample_getExplicitPositions msa) = MType_Integer
  /\ t_dims (sample_getExplicitPositions msa)
     = if stored_count msa =? 0 then [] else [stored_count msa; MSparseArray_getRank msa].
Proof. split; reflexivity. Qed.

Lemma pattern_array_access_witness :
  sp_explicitValues (sa (base sm_pattern)) = None
  /\ host_ok 1 (host_fresh []) = true
  /\ exists s h',
      SparseArrayRef_of (sa (base sm_pattern)) (host_fresh []) = (Ret s, h')
      /\ explicitValuesQ s = false
      /\ explicitValues s
         = Throw (LibraryError_msg "SparseArrayRef::explicitValues() called on pattern array."
                                   LIBRARY_FUNCTION_ERROR).
Proof.
  split; [reflexivity|]. split; [reflexivity|].
  destruct (pattern_array_access Z (sa (base sm_pattern)) (host_fresh []) eq_refl)
    as [Hview Hbuilt].
  destruct (Hbuilt eq_refl) as (s & h' & Hs).
  exists s, h'. split; [exact Hs|].
  destruct (Hview s h' Hs) as (Hq & Hvals & _). now split.
Defined.

Lemma makeSparseArray_never_pattern_witness :
  tensors (host_empty_positions []) !! 1%positive = Some (int_tensor [0; 2] [])
  /\ tensors (host_empty_positions []) !! 2%positive = Some (int_tensor [0] [])
  /\ host_ok 4 (host_empty_positions []) = true
  /\ exists s h',
      call_makeSparseArray MType_Integer 0 false sample_libData
        (Some 1%positive) (Some 2%positive) (Some 3%positive) 0 (host_empty_positions [])
      = (Ret s, h')
      /\ explicitValuesQ s = true
      /\ SparseArrayRef_length s = 0
      /\ tensors h' = tensors (host_empty_positions []).
Proof.
  split; [reflexivity|]. split; [reflexivity|]. split; [reflexivity|].
  apply (makeSparseArray_never_pattern Z MType_Integer 0 false sample_libData
           1%positive 2%positive 3%positive
           (int_tensor [0; 2] []) (int_tensor [0] []) (int_tensor [2] [3; 4]) 2 0
           (host_empty_positions []));
    try reflexivity.
  exact sample_host_no_positions.
Defined.

(** C5, the code at the failing input: [makeSparseArray] is called with no
    positions; the host allocates the temporary tensor, builds a pattern
    array, and answers the [MTensor_new] that is to insert the empty
    explicit-values buffer with the code 5.  The code of that call is not
    looked at: the factory returns, and the view it returns is a pattern
    array.  On the same tensors with every host call succeeding the view has
    explicit values. *)
Theorem makeSparseArray_pattern_when_insertion_fails :
  (exists s h',
      call_makeSparseArray MType_Integer 0 false sample_libData
        (Some 1%positive) (Some 2%positive) (Some 3%positive) 0
        (host_empty_positions [0; 0; 5])
      = (Ret s, h')
      /\ explicitValuesQ s = false
      /\ explicitValues s
         = Throw (LibraryError_msg "SparseArrayRef::explicitValues() called on pattern array."
                                   LIBRARY_FUNCTION_ERROR)
      /\ tensors h' = tensors (host_empty_positions [0; 0; 5]))
  /\ (exists s h',
        call_makeSparseArray MType_Integer 0 false sample_libData
          (Some 1%positive) (Some 2%positive) (Some 3%positive) 0
          (host_empty_positions [0; 0; 0])
        = (Ret s, h')
        /\ explicitValuesQ s = true).
Proof.
  split.
  - eexists _, _. split; [vm_compute; reflexivity|]. repeat split.
  - eexists _, _. split; [vm_compute; reflexivity|]. reflexivity.
Qed.

Lemma explicitPositions_shape_witness :
  host_ok 2 (host_fresh []) = true
  /\ exists tr p obj h',
      explicitPositions MType_Integer 0 sample_libData (base sm_empty) (host_fresh [])
      = (Ret tr, h')
      /\ tensor tr = Some p
      /\ tensors h' !! p = Some obj
      /\ t_type obj = MType_Integer
      /\ t_dims obj = [stored_count (sa (base sm_empty)); SparseArrayRef_rank (base sm_empty)]
      /\ len tr = Z.of_nat (length (t_data obj))
      /\ (stored_count (sa (base sm_empty)) = 0 ->
          p = Pos.succ (next (host_fresh []))
          /\ tensors h' !! next (host_fresh []) = None
          /\ t_data obj = []).
Proof.
  split; [reflexivity|].
  apply (explicitPositions_shape Z MType_Integer 0 sample_libData (base sm_empty)
           (host_fresh []));
    [exact sample_host_positions_shape | reflexivity].
Defined.

(** The explicit positions of the sample matrix with five stored entries. *)
Lemma explicitPositions_sample :
  (explicitPositions MType_Integer 0 sample_libData (base sm_sample) (host_fresh [])).1
  = Ret {| tensor := Some 1%positive; len := 10 |}
  /\ tensors (explicitPositions MType_Integer 0 sample_libData (base sm_sample)
                (host_fresh [])).2 !! 1%positive
     = Some (int_tensor [5; 2] [1; 2; 1; 4; 3; 1; 3; 2; 3; 4]).
Proof. vm_compute. split; reflexivity. Qed.

(** C6, the claim as stated fails.  [resetImplicitValue(4)] on a host
    whose reset call fails with code 5 throws, and the rank-0 tensor it
    allocated under handle 1 is still live afterwards; [makeMatrix] of the
    jagged literal [{{1, 2}, {3}}] throws from its row-length check, and
    the 2 x 2 tensor it allocated under handle 1 is still live afterwards. *)
Lemma allocated_tensor_survives_throw :
  (tensors (host_fresh [0; 5]) !! 1%positive = None
   /\ (resetImplicitValue MType_Integer 0 sample_libData (base sm_sample) 4
         (host_fresh [0; 5])).1
      = Throw (LibraryError_msg "MSparseArray_resetImplicitValue() failed." 5)
   /\ tensors (resetImplicitValue MType_Integer 0 sample_libData (base sm_sample) 4
                 (host_fresh [0; 5])).2 !! 1%positive
      = Some {| t_type := MType_Integer; t_dims := []; t_data := [ElemCell 4] |})
  /\ (tensors (host_fresh []) !! 1%positive = None
      /\ (makeMatrix_init MType_Integer 0 false [[1; 2]; [3]] (host_fresh [])).1
         = Throw (LibraryError_code LIBRARY_FUNCTION_ERROR)
      /\ tensors (makeMatrix_init MType_Integer 0 false [[1; 2]; [3]] (host_fresh [])).2
           !! 1%positive
         = Some {| t_type := MType_Integer; t_dims := [2; 2];
                   t_data := [ElemCell 1; ElemCell 2; ElemCell 0; ElemCell 0] |}).
Proof. vm_compute. repeat split. Qed.

Lemma handles_released_by_explicit_free_only_witness :
  tensors (host_fresh []) !! next (host_fresh []) = None
  /\ host_ok 3 (host_fresh []) = true
  /\ (exists s' h',
         resetImplicitValue MType_Integer 0 sample_libData (base sm_sample) 4 (host_fresh [])
         = (Ret s', h')
         /\ tensors h' = tensors (host_fresh []))
  /\ (exists h',
         makeMatrix_init MType_Integer 0 false [[1; 2]; [3]] (host_fresh [])
         = (Throw (LibraryError_code LIBRARY_FUNCTION_ERROR), h')
         /\ is_Some (tensors h' !! next (host_fresh []))).
Proof.
  split; [reflexivity|]. split; [reflexivity|].
  apply (handles_released_by_explicit_free_only Z MType_Integer 0 false sample_libData
           (base sm_sample) 4 [[1; 2]; [3]] (host_fresh []));
    reflexivity.
Defined.

(** On the success path of [resetImplicitValue] the temporary tensor is gone. *)
Lemma resetImplicitValue_success_sample :
  tensors (resetImplicitValue MType_Integer 0 sample_libData (base sm_sample) 4
             (host_fresh [])).2 = ∅.
Proof. vm_compute. reflexivity. Qed.

(** ** Images *)

Lemma mixed_radix_bound (a b A B : Z) :
  0 <= a < A -> 0 <= b < B -> 0 <= a * B + b < A * B.
Proof.
  intros Ha Hb.
  assert (0 <= a * B) by (apply Z.mul_nonneg_nonneg; lia).
  assert (a * B <= (A - 1) * B) by (apply Z.mul_le_mono_nonneg_r; lia).
  lia.
Qed.

Lemma mixed_radix_injective (a b a' b' B : Z) :
  0 <= b < B -> 0 <= b' < B -> a * B + b = a' * B + b' -> a = a' /\ b = b'.
Proof.
  intros Hb Hb' Heq.
  assert (a = a') as ->.
  { destruct (Z.lt_trichotomy a a') as [Hlt|[Heq'|Hgt]]; [|exact Heq'|].
    - assert ((a + 1) * B <= a' * B) by (apply Z.mul_le_mono_nonneg_r; lia). lia.
    - assert ((a' + 1) * B <= a * B) by (apply Z.mul_le_mono_nonneg_r; lia). lia. }
  split; [reflexivity|lia].
Qed.

(** In-range coordinates index inside [rows * cols * channels] elements. *)
Lemma ImageRef_index_in_range (g : GenericImageRef) (row col channel : Z) :
  0 <= row < image_rows g -> 0 <= col < image_cols g -> 0 <= channel < channels g ->
  0 <= ImageRef_index g row col channel < image_rows g * image_cols g * channels g.
Proof.
  intros Hr Hc Hch. unfold ImageRef_index.
  pose proof (mixed_radix_bound row col (image_rows g) (image_cols g) Hr Hc) as Hrc.
  destruct (interleavedQ g).
  - pose proof (mixed_radix_bound (row * image_cols g + col) channel
                  (image_rows g * image_cols g) (channels g) Hrc Hch). lia.
  - pose proof (mixed_radix_bound channel (row * image_cols g + col)
                  (channels g) (image_rows g * image_cols g) Hch Hrc). lia.
Qed.

Lemma Image3DRef_index_in_range (g : GenericImageRef) (slice row col channel : Z) :
  0 <= slice < slices g -> 0 <= row < image_rows g -> 0 <= col < image_cols g ->
  0 <= channel < channels g ->
  0 <= Image3DRef_index g slice row col channel
  < slices g * image_rows g * image_cols g * channels g.
Proof.
  intros Hs Hr Hc Hch. unfold Image3DRef_index.
  pose proof (mixed_radix_bound slice row (slices g) (image_rows g) Hs Hr) as Hsr.
  pose proof (mixed_radix_bound (slice * image_rows g + row) col
                (slices g * image_rows g) (image_cols g) Hsr Hc) as Hsrc.
  destruct (interleavedQ g).
  - pose proof (mixed_radix_bound ((slice * image_rows g + row) * image_cols g + col) channel
                  (slices g * image_rows g * image_cols g) (channels g) Hsrc Hch). lia.
  - pose proof (mixed_radix_bound channel ((slice * image_rows g + row) * image_cols g + col)
                  (channels g) (slices g * image_rows g * image_cols g) Hch Hsrc). lia.
Qed.

(** Two in-range coordinates of a 2-D image share an element only when they
    are the same coordinate, under either layout. *)
Lemma ImageRef_index_injective (g : GenericImageRef) (row col channel row' col' channel' : Z) :
  0 <= row < image_rows g -> 0 <= col < image_cols g -> 0 <= channel < channels g ->
  0 <= row' < image_rows g -> 0 <= col' < image_cols g -> 0 <= channel' < channels g ->
  ImageRef_index g row col channel = ImageRef_index g row' col' channel' ->
  row = row' /\ col = col' /\ channel = channel'.
Proof.
  intros Hr Hc Hch Hr' Hc' Hch'. unfold ImageRef_index.
  pose proof (mixed_radix_bound row col (image_rows g) (image_cols g) Hr Hc) as Hrc.
  pose proof (mixed_radix_bound row' col' (image_rows g) (image_cols g) Hr' Hc') as Hrc'.
  destruct (interleavedQ g); intros Heq.
  - destruct (mixed_radix_injective (row * image_cols g + col) channel
                (row' * image_cols g + col') channel' (channels g) Hch Hch') as [H1 H2];
      [lia|].
    destruct (mixed_radix_injective row col row' col' (image_cols g) Hc Hc' H1). auto.
  - destruct (mixed_radix_injective channel (row * image_cols g + col)
                channel' (row' * image_cols g + col') (image_rows g * image_cols g))
      as [H1 H2]; [lia|lia|lia|].
    destruct (mixed_radix_injective row col row' col' (image_cols g) Hc Hc' H2). auto.
Qed.

Section ImageProperties.

Variable P : Type.

(** Assigning to a pixel of a 2-D image and reading it back. *)
Lemma ImageRef_write_read (im : ImageRef P) (row col channel : Z) (v : P) :
  image_ok im = true ->
  0 <= row < image_rows (generic im) ->
  0 <= col < image_cols (generic im) ->
  0 <= channel < channels (generic im) ->
  exists im', ImageRef_write im row col channel v = Ret im'
              /\ generic im' = generic im
              /\ image_ok im' = true
              /\ ImageRef_read im' row col channel = Ret v.
Proof.
  intros Hok Hr Hc Hch. unfold image_ok in Hok.
  apply andb_true_iff in Hok. destruct Hok as [Hsl Hlen]. apply Z.eqb_eq in Hlen.
  pose proof (ImageRef_index_in_range (generic im) row col channel Hr Hc Hch) as Hidx.
  destruct (tensor_set_then_at (image_data im)
              (ImageRef_index (generic im) row col channel) v) as [Hset Hget]; [lia|].
  unfold ImageRef_write, ImageRef_read. rewrite Hset. simpl.
  eexists. split; [reflexivity|]. cbn [generic image_data].
  split; [reflexivity|]. split; [|exact Hget].
  unfold image_ok. cbn [generic image_data]. rewrite Hsl, length_insert.
  now apply Z.eqb_eq.
Qed.

(** A pixel that was not assigned keeps its value. *)
Lemma ImageRef_write_other (im im' : ImageRef P) (row col channel row' col' channel' : Z)
      (v : P) :
  0 <= row < image_rows (generic im) ->
  0 <= col < image_cols (generic im) ->
  0 <= channel < channels (generic im) ->
  0 <= row' < image_rows (generic im) ->
  0 <= col' < image_cols (generic im) ->
  0 <= channel' < channels (generic im) ->
  (row, col, channel) <> (row', col', channel') ->
  ImageRef_write im row col channel v = Ret im' ->
  ImageRef_read im' row' col' channel' = ImageRef_read im row' col' channel'.
Proof.
  intros Hr Hc Hch Hr' Hc' Hch' Hne. unfold ImageRef_write, ImageRef_read, tensor_set.
  pose proof (ImageRef_index_in_range (generic im) row col channel Hr Hc Hch) as Hi.
  pose proof (ImageRef_index_in_range (generic im) row' col' channel' Hr' Hc' Hch') as Hi'.
  destruct (Z.leb_spec 0 (ImageRef_index (generic im) row col channel)); [|discriminate].
  destruct (Z.ltb_spec (ImageRef_index (generic im) row col channel)
                       (Z.of_nat (length (image_data im)))); [|discriminate].
  simpl. intros [= <-]. cbn [generic image_data].
  apply tensor_set_other; try lia.
  intros Heq. apply Hne.
  destruct (ImageRef_index_injective (generic im) row col channel row' col' channel')
    as (-> & -> & ->); auto.
Qed.

(** Assigning to a pixel of a 3-D image and reading it back. *)
Lemma Image3DRef_write_read (im : Image3DRef P) (slice row col channel : Z) (v : P) :
  image3_ok im = true ->
  0 <= slice < slices (generic3 im) ->
  0 <= row < image_rows (generic3 im) ->
  0 <= col < image_cols (generic3 im) ->
  0 <= channel < channels (generic3 im) ->
  exists im', Image3DRef_write im slice row col channel v = Ret im'
              /\ generic3 im' = generic3 im
              /\ image3_ok im' = true
              /\ Image3DRef_read im' slice row col channel = Ret v.
Proof.
  intros Hok Hs Hr Hc Hch. unfold image3_ok in Hok. apply Z.eqb_eq in Hok.
  pose proof (Image3DRef_index_in_range (generic3 im) slice row col channel Hs Hr Hc Hch)
    as Hidx.
  destruct (tensor_set_then_at (image_data3 im)
              (Image3DRef_index (generic3 im) slice row col channel) v) as [Hset Hget];
    [lia|].
  unfold Image3DRef_write, Image3DRef_read. rewrite Hset. simpl.
  eexists. split; [reflexivity|]. cbn [generic3 image_data3].
  split; [reflexivity|]. split; [|exact Hget].
  unfold image3_ok. cbn [generic3 image_data3]. rewrite length_insert.
  now apply Z.eqb_eq.
Qed.

(** C7. [operator()] of a 2-D image reaches
    [data[row*cols*channels + col*channels + channel]] when the image is
    interleaved and [data[channel*rows*cols + row*cols + col]] when it is
    planar; [operator()] of a 3-D image reaches
    [data[slice*rows*cols*channels + row*cols*channels + col*channels + channel]]
    when interleaved and
    [data[channel*slices*rows*cols + slice*rows*cols + row*cols + col]] when
    planar.  Under either layout, assigning a value at an in-range pixel
    coordinate and reading the same coordinate gives that value. *)
Theorem image_indexing_round_trip :
  (forall (im : ImageRef P) (row col channel : Z) (v : P),
      let g := generic im in
      image_ok im = true ->
      0 <= row < image_rows g -> 0 <= col < image_cols g -> 0 <= channel < channels g ->
      ImageRef_index g row col channel
      = (if interleavedQ g
         then row * image_cols g * channels g + col * channels g + channel
         else channel * image_rows g * image_cols g + row * image_cols g + col)
      /\ ImageRef_read im row col channel
         = tensor_at (image_data im) (ImageRef_index g row col channel)
      /\ exists im', ImageRef_write im row col channel v = Ret im'
                     /\ generic im' = g
                     /\ ImageRef_read im' row col channel = Ret v)
  /\ (forall (im : Image3DRef P) (slice row col channel : Z) (v : P),
         let g := generic3 im in
         image3_ok im = true ->
         0 <= slice < slices g -> 0 <= row < image_rows g -> 0 <= col < image_cols g ->
         0 <= channel < channels g ->
         Image3DRef_index g slice row col channel
         = (if interleavedQ g
            then slice * image_rows g * image_cols g * channels g
                 + row * image_cols g * channels g + col * channels g + channel
            else channel * slices g * image_rows g * image_cols g
                 + slice * image_rows g * image_cols g + row * image_cols g + col)
         /\ Image3DRef_read im slice row col channel
            = tensor_at (image_data3 im) (Image3DRef_index g slice row col channel)
         /\ exists im', Image3DRef_write im slice row col channel v = Ret im'
                        /\ generic3 im' = g
                        /\ Image3DRef_read im' slice row col channel = Ret v).
Proof.
  split.
  - intros im row col channel v g Hok Hr Hc Hch.
    split; [reflexivity|]. split; [reflexivity|].
    destruct (ImageRef_write_read im row col channel v Hok Hr Hc Hch)
      as (im' & Hw & Hg & _ & Hrd).
    exists im'. auto.
  - intros im slice row col channel v g Hok Hs Hr Hc Hch.
    split; [reflexivity|]. split; [reflexivity|].
    destruct (Image3DRef_write_read im slice row col channel v Hok Hs Hr Hc Hch)
      as (im' & Hw & Hg & _ & Hrd).
    exists im'. auto.
Qed.

End ImageProperties.

(** Channel 1 of pixel (0, 0) of the 2 x 2 image with two channels,
    interleaved and planar, and channel 1 of pixel (1, 1, 2) of the 3-D image. *)
Lemma image_indexing_round_trip_witness :
  (image_ok (image_2x2x2 true) = true
   /\ exists im', ImageRef_write (image_2x2x2 true) 0 0 1 200 = Ret im'
                  /\ ImageRef_read im' 0 0 1 = Ret 200)
  /\ (image_ok (image_2x2x2 false) = true
      /\ exists im', ImageRef_write (image_2x2x2 false) 0 0 1 200 = Ret im'
                     /\ ImageRef_read im' 0 0 1 = Ret 200)
  /\ (image3_ok (image3_2x2x3x2 false) = true
      /\ exists im', Image3DRef_write (image3_2x2x3x2 false) 1 1 2 1 200 = Ret im'
                     /\ Image3DRef_read im' 1 1 2 1 = Ret 200).
Proof.
  split; [|split].
  - split; [reflexivity|].
    destruct (proj1 (image_indexing_round_trip Z) (image_2x2x2 true) 0 0 1 200)
      as (_ & _ & im' & Hw & _ & Hr);
      [reflexivity | unfold image_rows; simpl; lia | unfold image_cols; simpl; lia
       | unfold channels; simpl; lia |].
    exists im'. split; assumption.
  - split; [reflexivity|].
    destruct (proj1 (image_indexing_round_trip Z) (image_2x2x2 false) 0 0 1 200)
      as (_ & _ & im' & Hw & _ & Hr);
      [reflexivity | unfold image_rows; simpl; lia | unfold image_cols; simpl; lia
       | unfold channels; simpl; lia |].
    exists im'. split; assumption.
  - split; [reflexivity|].
    destruct (proj2 (image_indexing_round_trip Z) (image3_2x2x3x2 false) 1 1 2 1 200)
      as (_ & _ & im' & Hw & _ & Hr);
      [reflexivity | unfold slices; simpl; lia | unfold image_rows; simpl; lia
       | unfold image_cols; simpl; lia | unfold channels; simpl; lia |].
    exists im'. split; assumption.
Defined.

(** Scenario 4 of the specification: the two layouts store the value in
    different elements and read it back at the same coordinate. *)
Lemma image_layouts_store_differently :
  ImageRef_write (image_2x2x2 true) 0 0 1 200
  = Ret {| generic := generic (image_2x2x2 true);
           image_data := [0; 200; 0; 0; 0; 0; 0; 0] |}
  /\ ImageRef_write (image_2x2x2 false) 0 0 1 200
     = Ret {| generic := generic (image_2x2x2 false);
              image_data := [0; 0; 0; 0; 200; 0; 0; 0] |}.
Proof. split; reflexivity. Qed.

(** ** The pixel iterator *)

(** The difference and the four order comparisons of two pixel iterators
    return nothing, whatever the iterators. *)
Lemma pixel_iterator_operators_return_nothing (a b : pixel_iterator) :
  pixel_iterator_diff a b = Undefined
  /\ pixel_iterator_lt a b = Undefined
  /\ pixel_iterator_gt a b = Undefined
  /\ pixel_iterator_le a b = Undefined
  /\ pixel_iterator_ge a b = Undefined.
Proof. repeat split. Qed.

(** The value the body of [operator -] computes and drops between the end
    and the beginning of a channel is [channelSize()]. *)
Lemma dropped_difference_is_channelSize (g : GenericImageRef) (channel : Z) :
  0 < channels g ->
  stride_scaled_difference (pixelEnd g channel) (pixelBegin g channel) = channelSize g.
Proof.
  intros Hch. unfold stride_scaled_difference, pixelEnd, pixelBegin, pixel_iterator_add.
  destruct (interleavedQ g); cbn [ptr step].
  - replace (0 + channel + channelSize g * channels g - (0 + channel))
      with (channelSize g * channels g) by lia.
    apply Z.quot_mul. lia.
  - replace (0 + channelSize g * channel + channelSize g * 1 - (0 + channelSize g * channel))
      with (channelSize g) by lia.
    apply Z.quot_1_r.
Qed.

(** C8, the code at the failing input: on the interleaved 2 x 2 image with
    two channels, [pixelEnd(0) - pixelBegin(0)] computes [channelSize() = 4]
    and returns nothing, and [pixelBegin(0) < pixelEnd(0)] computes [true]
    and returns nothing. *)
Theorem pixel_iterator_difference_not_returned :
  let g := generic (image_2x2x2 true) in
  channelSize g = 4
  /\ stride_scaled_difference (pixelEnd g 0) (pixelBegin g 0) = 4
  /\ pixel_iterator_diff (pixelEnd g 0) (pixelBegin g 0) = Undefined
  /\ (ptr (pixelBegin g 0) <? ptr (pixelEnd g 0)) = true
  /\ pixel_iterator_lt (pixelBegin g 0) (pixelEnd g 0) = Undefined
  /\ pixel_iterator_gt (pixelEnd g 0) (pixelBegin g 0) = Undefined
  /\ pixel_iterator_le (pixelBegin g 0) (pixelEnd g 0) = Undefined
  /\ pixel_iterator_ge (pixelEnd g 0) (pixelBegin g 0) = Undefined.
Proof. repeat split. Qed.

(** * More of the sparse matrix view *)

Section MoreSparseMatrixProperties.

Variable T : Type.

(** ** Indexed reads *)

Lemma strict_range (d : list Z) (lo hi : Z) :
  row_strict d lo hi = true ->
  forall a b, lo <= a -> a < b -> b < hi -> zget d a < zget d b.
Proof.
  intros Hs a b Ha Hab Hb.
  assert (Hadj : forall k, lo <= k < hi - 1 -> zget d k < zget d (k + 1)).
  { intros k Hk. apply Z.ltb_lt. apply (forallb_seqZ _ lo (hi - lo - 1) k Hs). lia. }
  replace b with (a + 1 + Z.of_nat (Z.to_nat (b - a - 1))) in * by lia.
  induction (Z.to_nat (b - a - 1)) as [|n IH].
  - replace (a + 1 + Z.of_nat 0) with (a + 1) by lia. apply Hadj. lia.
  - transitivity (zget d (a + 1 + Z.of_nat n)).
    + apply IH; lia.
    + replace (a + 1 + Z.of_nat (S n)) with (a + 1 + Z.of_nat n + 1) by lia.
      apply Hadj. lia.
Qed.

(** The offset [std::lower_bound] returns for row [i] and the key [j + 1],
    and the three ways the indexed read ends. *)
Lemma index_by_lower_bound (sm : SparseMatrixRef T) (i j : Z) :
  csr_ok sm = true ->
  explicitValuesQ (base sm) = true ->
  0 <= i < nrows sm ->
  exists p,
    zget (rp (base sm)) i <= p <= zget (rp (base sm)) (i + 1)
    /\ (forall k, zget (rp (base sm)) i <= k < p -> zget (ci (base sm)) k < j + 1)
    /\ (forall k, p <= k < zget (rp (base sm)) (i + 1) -> j + 1 <= zget (ci (base sm)) k)
    /\ SparseMatrixRef_index sm i j
       = if p =? zget (rp (base sm)) (i + 1) then Ret (iv (base sm))
         else if zget (ci (base sm)) p =? j + 1 then Ret (ev_get (base sm) p)
              else Ret (iv (base sm)).
Proof.
  intros Hok Hev Hi.
  destruct (csr_ok_spec T sm Hok) as (_ & Hlen & _ & _ & Hrows & Hvals).
  destruct (row_range T sm i Hok Hi) as (Hlo0 & Hlohi & Hhi).
  destruct (Hrows i Hi) as [_ Hsorted].
  unfold SparseMatrixRef_index. rewrite Hev. simpl.
  rewrite !tensor_at_zget by lia. simpl.
  set (lower := zget (rp (base sm)) i) in *.
  set (upper := zget (rp (base sm)) (i + 1)) in *.
  unfold lower_bound.
  destruct (lower_bound_loop_spec (ci (base sm)) (j + 1)
              (Z.to_nat (upper - lower)) lower (upper - lower))
    as (p & Hp & Hr & Hbelow & Habove); try lia.
  { intros a b Ha Hab Hb. apply (row_sorted_spec _ lower upper Hsorted); lia. }
  exists p. replace (lower + (upper - lower)) with upper in * by lia.
  split; [lia|]. split; [exact Hbelow|]. split; [exact Habove|].
  rewrite Hp. simpl.
  destruct (Z.eqb_spec p upper) as [Heq|Hne]; [reflexivity|].
  rewrite tensor_at_zget by lia. simpl.
  destruct (Z.eqb_spec (zget (ci (base sm)) p) (j + 1)) as [Hkey|Hnokey]; [|reflexivity].
  unfold ev_at, ev_get, explicitValuesQ in *.
  destruct (ev (base sm)) as [vals|]; [|discriminate].
  specialize (Hvals vals eq_refl).
  replace (lower + (p - lower)) with p by lia.
  apply tensor_at_Ret. lia.
Qed.

(** X1: when no row stores a column twice, the indexed read at the row and
    the column of a stored entry returns the explicit value of that entry. *)
Theorem stored_entry_is_read_back (sm : SparseMatrixRef T) (i k : Z) :
  csr_ok sm = true ->
  columns_strict sm = true ->
  explicitValuesQ (base sm) = true ->
  0 <= i < rows sm ->
  zget (rp (base sm)) i <= k < zget (rp (base sm)) (i + 1) ->
  SparseMatrixRef_index sm i (zget (ci (base sm)) k - 1) = Ret (ev_get (base sm) k).
Proof.
  intros Hok Hstrict Hev Hi Hk. unfold rows in Hi.
  destruct (csr_ok_spec T sm Hok) as (_ & _ & _ & _ & Hrows & _).
  destruct (Hrows i Hi) as [_ Hsorted].
  pose proof (forallb_seqZ _ 0 (nrows sm) i Hstrict ltac:(lia)) as Hst. cbv beta in Hst.
  destruct (index_by_lower_bound sm i (zget (ci (base sm)) k - 1) Hok Hev Hi)
    as (p & Hp & Hbelow & Habove & ->).
  replace (zget (ci (base sm)) k - 1 + 1) with (zget (ci (base sm)) k) in * by lia.
  assert (Hpk : p <= k).
  { destruct (Z.le_gt_cases p k); [assumption|]. specialize (Hbelow k). lia. }
  assert (p = k) as ->.
  { destruct (Z.eq_dec p k); [assumption|].
    pose proof (strict_range _ _ _ Hst p k). specialize (Habove p). lia. }
  destruct (Z.eqb_spec k (zget (rp (base sm)) (i + 1))); [lia|].
  now rewrite Z.eqb_refl.
Qed.

(** X2: the indexed read at a row inside the matrix and a column the row does
    not store returns the implicit value, for every column [j] of type [mint]
    (64 bits) whose key [j + 1] does not overflow; the column is not compared
    with [cols()]. *)
Theorem absent_position_reads_implicit (sm : SparseMatrixRef T) (i j : Z) :
  csr_ok sm = true ->
  explicitValuesQ (base sm) = true ->
  0 <= i < rows sm ->
  - 2 ^ 63 <= j < 2 ^ 63 - 1 ->
  forallb (λ k, negb (zget (ci (base sm)) k =? j + 1))
          (seqZ (zget (rp (base sm)) i)
                (zget (rp (base sm)) (i + 1) - zget (rp (base sm)) i)) = true ->
  SparseMatrixRef_index sm i j = Ret (implicitValue (base sm)).
Proof.
  intros Hok Hev Hi _ Habs. unfold rows in Hi.
  destruct (index_by_lower_bound sm i j Hok Hev Hi) as (p & Hp & _ & _ & ->).
  destruct (Z.eqb_spec p (zget (rp (base sm)) (i + 1))); [reflexivity|].
  pose proof (forallb_seqZ _ _ _ p Habs ltac:(lia)) as Hne. cbv beta in Hne.
  apply negb_true_iff in Hne. now rewrite Hne.
Qed.

(** X3: the indexed read does not check the row: a row below 0 or not below
    [rows()] reads a row pointer outside the buffer. *)
Theorem row_outside_is_undefined (sm : SparseMatrixRef T) (i j : Z) :
  csr_ok sm = true ->
  explicitValuesQ (base sm) = true ->
  i < 0 \/ rows sm <= i ->
  SparseMatrixRef_index sm i j = Undefined.
Proof.
  intros Hok Hev Hi. unfold rows in Hi.
  destruct (csr_ok_spec T sm Hok) as (H0 & Hlen & _).
  unfold SparseMatrixRef_index. rewrite Hev. simpl.
  destruct Hi as [Hneg|Hbig].
  - now rewrite (tensor_at_outside (rp (base sm)) i) by lia.
  - destruct (Z.eq_dec i (nrows sm)) as [->|Hne].
    + rewrite (tensor_at_zget (rp (base sm)) (nrows sm)) by lia. simpl.
      now rewrite (tensor_at_outside (rp (base sm)) (nrows sm + 1)) by lia.
    + now rewrite (tensor_at_outside (rp (base sm)) i) by lia.
Qed.

Lemma at_row_spec (sm : SparseMatrixRef T) (r k : Z) :
  at_row sm r k = true <->
  0 <= r < nrows sm /\ zget (rp (base sm)) r <= k < zget (rp (base sm)) (r + 1).
Proof.
  unfold at_row. rewrite !andb_true_iff, !Z.leb_le, !Z.ltb_lt. lia.
Qed.

Lemma size_is_last_row_pointer (sm : SparseMatrixRef T) :
  csr_ok sm = true -> size sm = zget (rp (base sm)) (nrows sm).
Proof.
  intros Hok. destruct (csr_ok_spec T sm Hok) as (_ & _ & _ & Hlast & _).
  unfold size, SparseArrayRef_size, SparseArrayRef_length. now rewrite Hlast.
Qed.

(** The row of a stored entry is determined by its offset. *)
Lemma at_row_unique (sm : SparseMatrixRef T) (r r' k : Z) :
  csr_ok sm = true -> at_row sm r k = true -> at_row sm r' k = true -> r = r'.
Proof.
  intros Hok [Hr Hk]%at_row_spec [Hr' Hk']%at_row_spec.
  destruct (Z.lt_trichotomy r r') as [Hlt|[Heq|Hgt]]; [|exact Heq|].
  - pose proof (row_pointers_monotone T sm Hok (r + 1) r'). lia.
  - pose proof (row_pointers_monotone T sm Hok (r' + 1) r). lia.
Qed.

(** The row loop of [--]: from a row whose range ends at or after [idx] it
    stops at the row that holds the offset [idx - 1]. *)
Lemma retreat_row_spec (sm : SparseMatrixRef T) (idx : Z) :
  csr_ok sm = true ->
  1 <= idx <= size sm ->
  forall (fuel : nat) (row : Z),
    (Z.to_nat row <= fuel)%nat ->
    0 <= row <= nrows sm ->
    zget (rp (base sm)) row <= idx ->
    (row < nrows sm -> idx <= zget (rp (base sm)) (row + 1)) ->
    exists r', retreat_row fuel sm idx row = Ret r' /\ at_row sm r' (idx - 1) = true.
Proof.
  intros Hok Hidx.
  destruct (csr_ok_spec T sm Hok) as (_ & Hlen & Hfirst & _).
  pose proof (size_is_last_row_pointer sm Hok) as Hsize.
  induction fuel as [|fuel IH]; intros row Hfuel Hrow Hlo Hhi; simpl;
    rewrite (tensor_at_zget (rp (base sm)) row) by lia; simpl.
  - assert (row = 0) by lia. subst row.
    exists 0. split; [reflexivity|]. apply at_row_spec.
    assert (nrows sm <> 0) by (intros Hz; rewrite Hz in Hsize; lia). lia.
  - destruct ((zget (rp (base sm)) row =? idx) && (0 <? row)) eqn:Hc.
    + apply andb_true_iff in Hc. destruct Hc as [Heq%Z.eqb_eq Hpos%Z.ltb_lt].
      apply IH; try lia.
      * pose proof (row_pointers_monotone T sm Hok (row - 1) row). lia.
      * replace (row - 1 + 1) with row by lia. lia.
    + exists row. split; [reflexivity|]. apply at_row_spec.
      apply andb_false_iff in Hc. rewrite Z.eqb_neq, Z.ltb_ge in Hc.
      assert (Hlt : zget (rp (base sm)) row < idx).
      { destruct Hc as [Hc|Hc]; [lia|]. assert (row = 0) by lia. subst row. lia. }
      assert (row <> nrows sm) by (intros ->; lia). lia.
Qed.

(** The row loop of [begin()] and [++]: on the way to the row [r'] that holds
    the offset [idx] it stops at [r'] or, earlier, at the first row that is
    not below [size()]. *)
Lemma advance_row_spec (sm : SparseMatrixRef T) (idx r' : Z) :
  csr_ok sm = true ->
  at_row sm r' idx = true ->
  forall (fuel : nat) (row : Z),
    (Z.to_nat (size sm - row) <= fuel)%nat ->
    0 <= row <= r' ->
    (forall q, row <= q < r' -> zget (rp (base sm)) (q + 1) = idx) ->
    advance_row fuel sm idx row = Ret (Z.min r' (Z.max row (size sm))).
Proof.
  intros Hok [Hr' Hidx]%at_row_spec.
  destruct (csr_ok_spec T sm Hok) as (_ & Hlen & _).
  induction fuel as [|fuel IH]; intros row Hfuel Hrow Hrun; simpl;
    rewrite (tensor_at_zget (rp (base sm)) (row + 1)) by lia; simpl.
  - f_equal. lia.
  - destruct (Z.eq_dec row r') as [->|Hne].
    + destruct (Z.eqb_spec (zget (rp (base sm)) (r' + 1)) idx); [lia|].
      simpl. f_equal. lia.
    + rewrite (Hrun row) by lia. rewrite Z.eqb_refl. simpl.
      destruct (Z.ltb_spec row (size sm)).
      * rewrite IH; [f_equal; lia|lia|lia|]. intros q Hq. apply Hrun. lia.
      * f_equal. lia.
Qed.

(** The rows between two consecutive stored entries end at the second one. *)
Lemma rows_between (sm : SparseMatrixRef T) (r r' k : Z) :
  csr_ok sm = true ->
  at_row sm r k = true -> at_row sm r' (k + 1) = true ->
  r <= r' /\ forall q, r <= q < r' -> zget (rp (base sm)) (q + 1) = k + 1.
Proof.
  intros Hok [Hr Hk]%at_row_spec [Hr' Hk']%at_row_spec.
  assert (Hle : r <= r').
  { destruct (Z.le_gt_cases r r'); [assumption|].
    pose proof (row_pointers_monotone T sm Hok (r' + 1) r). lia. }
  split; [exact Hle|]. intros q Hq.
  pose proof (row_pointers_monotone T sm Hok (r + 1) (q + 1)).
  pose proof (row_pointers_monotone T sm Hok (q + 1) r'). lia.
Qed.

Lemma begin_row (sm : SparseMatrixRef T) (r0 : Z) :
  csr_ok sm = true ->
  at_row sm r0 0 = true ->
  SparseMatrixRef_begin sm = Ret {| row_index := Z.min r0 (size sm); index := 0 |}.
Proof.
  intros Hok Hat. unfold SparseMatrixRef_begin.
  pose proof Hat as [Hr0 Hk]%at_row_spec.
  destruct (csr_ok_spec T sm Hok) as (_ & _ & Hfirst & _).
  rewrite (advance_row_spec sm 0 r0 Hok Hat); [|lia|lia|].
  - simpl. do 2 f_equal. unfold size, SparseArrayRef_size, SparseArrayRef_length. lia.
  - intros q Hq.
    pose proof (row_pointers_monotone T sm Hok 0 (q + 1)).
    pose proof (row_pointers_monotone T sm Hok (q + 1) r0). lia.
Qed.

(** X4: [begin()] of a matrix whose first stored entry lies in row [r0]
    reports the row [min r0 size()]; it is the row of the entry when
    [r0 <= size()]. *)
Theorem begin_row_is_min_of_first_row_and_size (sm : SparseMatrixRef T) (r0 : Z) :
  csr_ok sm = true ->
  at_row sm r0 0 = true ->
  SparseMatrixRef_begin sm = Ret {| row_index := Z.min r0 (size sm); index := 0 |}
  /\ (r0 <= size sm ->
      SparseMatrixRef_begin sm = Ret {| row_index := r0; index := 0 |}).
Proof.
  intros Hok Hat. pose proof (begin_row sm r0 Hok Hat) as Hb.
  split; [exact Hb|]. intros Hle. rewrite Hb. do 2 f_equal. lia.
Qed.

(** X5: [++] from the entry at offset [k] of row [r] to the entry at offset
    [k + 1] of row [r'] reports the row [min r' (max r size())]; it is the
    row of the entry when [r' <= size()]. *)
Theorem increment_row_is_min_of_next_row_and_size (sm : SparseMatrixRef T) (r r' k : Z) :
  csr_ok sm = true ->
  at_row sm r k = true ->
  at_row sm r' (k + 1) = true ->
  iterator_incr sm {| row_index := r; index := k |}
  = Ret {| row_index := Z.min r' (Z.max r (size sm)); index := k + 1 |}
  /\ (r' <= size sm ->
      iterator_incr sm {| row_index := r; index := k |}
      = Ret {| row_index := r'; index := k + 1 |}).
Proof.
  intros Hok Hat Hat'.
  destruct (rows_between sm r r' k Hok Hat Hat') as [Hle Hrun].
  pose proof Hat as [Hr Hk]%at_row_spec.
  assert (Hi : iterator_incr sm {| row_index := r; index := k |}
               = Ret {| row_index := Z.min r' (Z.max r (size sm)); index := k + 1 |}).
  { unfold iterator_incr. cbn [row_index index].
    rewrite (advance_row_spec sm (k + 1) r' Hok Hat'); [reflexivity|lia|lia|exact Hrun]. }
  split; [exact Hi|]. intros Hsz. rewrite Hi. do 2 f_equal. lia.
Qed.

Lemma retreat_row_from (sm : SparseMatrixRef T) (r k : Z) :
  csr_ok sm = true ->
  1 <= k ->
  (r = nrows sm /\ k = size sm)
  \/ (0 <= r < nrows sm /\ zget (rp (base sm)) r <= k <= zget (rp (base sm)) (r + 1)) ->
  exists r', retreat_row (Z.to_nat r) sm k r = Ret r' /\ at_row sm r' (k - 1) = true.
Proof.
  intros Hok Hk Hpos.
  destruct (csr_ok_spec T sm Hok) as (Hn & _).
  pose proof (size_is_last_row_pointer sm Hok) as Hsize.
  destruct Hpos as [[-> ->]|[Hr Hrk]].
  - apply retreat_row_spec; [assumption|lia|lia|lia|lia|lia].
  - pose proof (row_pointers_monotone T sm Hok (r + 1) (nrows sm)).
    apply retreat_row_spec; [assumption|lia|lia|lia|lia|lia].
Qed.

(** X6: [--] from [end()] or from a stored entry that is not the first one
    returns the iterator of the previous offset with the row that holds it. *)
Theorem decrement_reaches_previous_entry (sm : SparseMatrixRef T) (it : iterator) :
  csr_ok sm = true ->
  1 <= index it ->
  it = SparseMatrixRef_end sm \/ at_row sm (row_index it) (index it) = true ->
  exists r', iterator_decr sm it = Ret {| row_index := r'; index := index it - 1 |}
             /\ at_row sm r' (index it - 1) = true.
Proof.
  intros Hok Hk Hpos. unfold iterator_decr.
  destruct (retreat_row_from sm (row_index it) (index it) Hok Hk) as (r' & Hret & Hat).
  - destruct Hpos as [->|Hat%at_row_spec]; [left; split; reflexivity|right; lia].
  - exists r'. rewrite Hret. split; [reflexivity|exact Hat].
Qed.

(** X7: [--] after [++] between two stored entries returns the iterator
    [++] started from, also when [++] stopped at a row before the one of
    the second entry. *)
Theorem decrement_undoes_increment (sm : SparseMatrixRef T) (r r' k : Z) :
  csr_ok sm = true ->
  at_row sm r k = true ->
  at_row sm r' (k + 1) = true ->
  (it ← iterator_incr sm {| row_index := r; index := k |}; iterator_decr sm it)
  = Ret {| row_index := r; index := k |}.
Proof.
  intros Hok Hat Hat'.
  destruct (rows_between sm r r' k Hok Hat Hat') as [Hle Hrun].
  pose proof Hat as [Hr Hk]%at_row_spec.
  pose proof Hat' as [Hr' Hk']%at_row_spec.
  unfold iterator_incr. cbn [row_index index].
  rewrite (advance_row_spec sm (k + 1) r' Hok Hat'); [|lia|lia|exact Hrun].
  simpl. unfold iterator_decr. cbn [row_index index].
  set (m := Z.min r' (Z.max r (size sm))).
  assert (Hm : r <= m <= r') by (unfold m; lia).
  assert (Hk0 : 0 <= k).
  { destruct (csr_ok_spec T sm Hok) as (_ & _ & Hfirst & _).
    pose proof (row_pointers_monotone T sm Hok 0 r). lia. }
  destruct (retreat_row_from sm m (k + 1) Hok) as (r1 & Hret & Hat1); [lia| |].
  - right. split; [lia|].
    pose proof (row_pointers_monotone T sm Hok m r').
    destruct (Z.eq_dec m r') as [->|Hne]; [lia|].
    rewrite (Hrun m) by lia. lia.
  - rewrite Hret. simpl. replace (k + 1 - 1) with k in * by lia.
    now rewrite (at_row_unique sm r1 r k Hok Hat1 Hat).
Qed.

(** The row loop of the increment that moves to the offset [size()]. *)
Lemma advance_row_to_size (sm : SparseMatrixRef T) :
  csr_ok sm = true ->
  forall (fuel : nat) (row : Z),
    (Z.to_nat (size sm - row) <= fuel)%nat ->
    0 <= row < nrows sm ->
    (forall q, row <= q < nrows sm -> zget (rp (base sm)) (q + 1) = size sm) ->
    advance_row fuel sm (size sm) row
    = if nrows sm <=? size sm then Undefined else Ret (Z.max row (size sm)).
Proof.
  intros Hok.
  destruct (csr_ok_spec T sm Hok) as (_ & Hlen & _).
  induction fuel as [|fuel IH]; intros row Hfuel Hrow Hrun; simpl;
    rewrite (tensor_at_zget (rp (base sm)) (row + 1)) by lia; simpl.
  - destruct (Z.leb_spec (nrows sm) (size sm)); [lia|]. f_equal. lia.
  - rewrite (Hrun row) by lia. rewrite Z.eqb_refl. simpl.
    destruct (Z.ltb_spec row (size sm)) as [Hlt|Hge].
    + destruct (Z.eq_dec (row + 1) (nrows sm)) as [Heq|Hne].
      * destruct (Z.leb_spec (nrows sm) (size sm)); [|lia].
        destruct fuel; simpl;
          rewrite (tensor_at_outside (rp (base sm)) (row + 1 + 1)) by lia; reflexivity.
      * rewrite IH; [|lia|lia|intros q Hq; apply Hrun; lia].
        destruct (Z.leb_spec (nrows sm) (size sm)); [reflexivity|]. f_equal. lia.
    + destruct (Z.leb_spec (nrows sm) (size sm)); [lia|]. f_equal. lia.
Qed.

(** X8: [++] from the last stored entry reads the row pointer after the
    last one when the matrix has at least as many stored entries as rows;
    otherwise it returns the offset [size()]. *)
Theorem last_increment_outcome (sm : SparseMatrixRef T) (r k : Z) :
  csr_ok sm = true ->
  at_row sm r k = true ->
  k + 1 = size sm ->
  iterator_incr sm {| row_index := r; index := k |}
  = if rows sm <=? size sm then Undefined
    else Ret {| row_index := Z.max r (size sm); index := size sm |}.
Proof.
  intros Hok Hat Hlast.
  pose proof Hat as [Hr Hk]%at_row_spec.
  pose proof (size_is_last_row_pointer sm Hok) as Hsize.
  unfold iterator_incr. cbn [row_index index]. rewrite Hlast.
  rewrite (advance_row_to_size sm Hok); [|lia|lia|].
  - unfold rows. destruct (nrows sm <=? size sm); reflexivity.
  - intros q Hq.
    pose proof (row_pointers_monotone T sm Hok (r + 1) (q + 1)).
    pose proof (row_pointers_monotone T sm Hok (q + 1) (nrows sm)). lia.
Qed.
(** Every offset below [size()] lies in one row. *)
Lemma row_exists (sm : SparseMatrixRef T) (k : Z) :
  csr_ok sm = true -> 0 <= k < size sm -> exists r, at_row sm r k = true.
Proof.
  intros Hok Hk.
  destruct (csr_ok_spec T sm Hok) as (Hn & _ & Hfirst & _).
  pose proof (size_is_last_row_pointer sm Hok) as Hsize.
  assert (Hind : forall n : nat, Z.of_nat n <= nrows sm ->
            k < zget (rp (base sm)) (Z.of_nat n) -> exists r, at_row sm r k = true).
  { induction n as [|n IH]; intros Hle Hlt.
    - change (Z.of_nat 0) with 0 in Hlt. lia.
    - destruct (Z.lt_ge_cases k (zget (rp (base sm)) (Z.of_nat n))) as [Hb|Hb].
      + apply IH; lia.
      + exists (Z.of_nat n). apply at_row_spec.
        replace (Z.of_nat n + 1) with (Z.of_nat (S n)) by lia. lia. }
  apply (Hind (Z.to_nat (nrows sm))); rewrite Z2Nat.id by lia; lia.
Qed.

(** At a row that is not below [size()] the row loop of [++] does not move. *)
Lemma advance_row_stuck (sm : SparseMatrixRef T) (fuel : nat) (idx row : Z) :
  csr_ok sm = true ->
  0 <= row < nrows sm -> size sm <= row ->
  advance_row fuel sm idx row = Ret row.
Proof.
  intros Hok Hrow Hsz.
  destruct (csr_ok_spec T sm Hok) as (_ & Hlen & _).
  destruct fuel; simpl; rewrite (tensor_at_zget (rp (base sm)) (row + 1)) by lia;
    simpl; [reflexivity|].
  destruct (Z.ltb_spec row (size sm)); [lia|]. now rewrite andb_false_r.
Qed.

(** Rows between two equal row pointers store nothing. *)
Lemma rows_without_entries (sm : SparseMatrixRef T) :
  csr_ok sm = true ->
  forall (n : nat) (a : Z),
    0 <= a -> a + Z.of_nat n <= nrows sm ->
    zget (rp (base sm)) a = zget (rp (base sm)) (a + Z.of_nat n) ->
    concat (map (row_entries sm) (seqZ a (Z.of_nat n))) = [].
Proof.
  intros Hok. induction n as [|n IH]; intros a Ha Hb Heq; [reflexivity|].
  rewrite seqZ_cons by lia. simpl.
  pose proof (row_pointers_monotone T sm Hok a (a + 1)).
  pose proof (row_pointers_monotone T sm Hok (a + 1) (a + Z.of_nat (S n))).
  replace (Z.pred (Z.of_nat (S n))) with (Z.of_nat n) by lia.
  replace (Z.succ a) with (a + 1) by lia.
  rewrite IH; [|lia|lia|replace (a + 1 + Z.of_nat n) with (a + Z.of_nat (S n)) by lia; lia].
  unfold row_entries. rewrite seqZ_nil by lia. reflexivity.
Qed.

Lemma rows_without_entries_between (sm : SparseMatrixRef T) (a b : Z) :
  csr_ok sm = true ->
  0 <= a -> a <= b -> b <= nrows sm ->
  zget (rp (base sm)) a = zget (rp (base sm)) b ->
  concat (map (row_entries sm) (seqZ a (b - a))) = [].
Proof.
  intros Hok Ha Hab Hb Heq.
  replace (b - a) with (Z.of_nat (Z.to_nat (b - a))) by lia.
  apply rows_without_entries; [assumption|lia|lia|].
  rewrite Z2Nat.id by lia. now replace (a + (b - a)) with b by lia.
Qed.

(** The entries from the first offset of a row on are the entries of the
    rows from that row on. *)
Lemma entries_from_row (sm : SparseMatrixRef T) (r : Z) :
  0 <= r < nrows sm ->
  concat (map (row_entries sm) (seqZ r (nrows sm - r)))
  = entries_from sm r (zget (rp (base sm)) r).
Proof.
  intros Hr. rewrite seqZ_cons by lia. simpl. unfold entries_from.
  replace (Z.succ r) with (r + 1) by lia.
  replace (Z.pred (nrows sm - r)) with (nrows sm - (r + 1)) by lia.
  reflexivity.
Qed.

Lemma entries_from_rows_split (sm : SparseMatrixRef T) (a b : Z) :
  csr_ok sm = true ->
  0 <= a -> a <= b -> b <= nrows sm ->
  zget (rp (base sm)) a = zget (rp (base sm)) b ->
  concat (map (row_entries sm) (seqZ a (nrows sm - a)))
  = concat (map (row_entries sm) (seqZ b (nrows sm - b))).
Proof.
  intros Hok Ha Hab Hb Heq.
  replace (nrows sm - a) with ((b - a) + (nrows sm - b)) by lia.
  rewrite seqZ_app by lia. rewrite map_app, concat_app.
  rewrite rows_without_entries_between by assumption.
  simpl. do 3 f_equal. lia.
Qed.

Lemma entries_from_step (sm : SparseMatrixRef T) (r r' k : Z) :
  csr_ok sm = true ->
  at_row sm r k = true -> at_row sm r' (k + 1) = true ->
  entries_from sm r k
  = (r, zget (ci (base sm)) k - 1, ev_get (base sm) k) :: entries_from sm r' (k + 1).
Proof.
  intros Hok Hat Hat'.
  destruct (rows_between sm r r' k Hok Hat Hat') as [Hle Hrun].
  pose proof Hat as [Hr Hk]%at_row_spec.
  pose proof Hat' as [Hr' Hk']%at_row_spec.
  unfold entries_from at 1. rewrite seqZ_cons by lia. simpl. f_equal.
  destruct (Z.eq_dec r r') as [<-|Hne].
  - unfold entries_from. do 3 f_equal; lia.
  - assert (Hend : zget (rp (base sm)) (r + 1) = k + 1) by (apply Hrun; lia).
    assert (Hstart : zget (rp (base sm)) r' = k + 1).
    { replace r' with (r' - 1 + 1) by lia. apply Hrun. lia. }
    rewrite seqZ_nil by lia. simpl.
    rewrite (entries_from_rows_split sm (r + 1) r') by (assumption || lia).
    rewrite entries_from_row by lia. now rewrite Hstart.
Qed.

Lemma entries_from_last (sm : SparseMatrixRef T) (r k : Z) :
  csr_ok sm = true ->
  at_row sm r k = true -> k + 1 = size sm ->
  entries_from sm r k = [(r, zget (ci (base sm)) k - 1, ev_get (base sm) k)].
Proof.
  intros Hok Hat Hlast.
  pose proof Hat as [Hr Hk]%at_row_spec.
  pose proof (size_is_last_row_pointer sm Hok) as Hsize.
  pose proof (row_pointers_monotone T sm Hok (r + 1) (nrows sm)).
  unfold entries_from. rewrite seqZ_cons by lia. rewrite seqZ_nil by lia. simpl.
  f_equal. apply rows_without_entries_between; [assumption|lia|lia|lia|lia].
Qed.

Lemma explicit_entries_from_first (sm : SparseMatrixRef T) (r0 : Z) :
  csr_ok sm = true ->
  at_row sm r0 0 = true ->
  explicit_entries sm = entries_from sm r0 0.
Proof.
  intros Hok Hat. pose proof Hat as [Hr Hk]%at_row_spec.
  destruct (csr_ok_spec T sm Hok) as (_ & _ & Hfirst & _).
  pose proof (row_pointers_monotone T sm Hok 0 r0).
  assert (Hz : zget (rp (base sm)) r0 = 0) by lia.
  unfold explicit_entries.
  replace (nrows sm) with (nrows sm - 0) at 1 by lia.
  rewrite (entries_from_rows_split sm 0 r0) by (assumption || lia).
  rewrite entries_from_row by lia. now rewrite Hz.
Qed.

Lemma iterator_col_stored (sm : SparseMatrixRef T) (r k : Z) :
  0 <= k < size sm ->
  iterator_col sm {| row_index := r; index := k |} = Ret (zget (ci (base sm)) k - 1).
Proof.
  intros Hk. unfold iterator_col. cbn [index].
  unfold size, SparseArrayRef_size, SparseArrayRef_length in Hk.
  now rewrite tensor_at_zget by lia.
Qed.

Lemma iterator_deref_stored (sm : SparseMatrixRef T) (r k : Z) :
  csr_ok sm = true -> explicitValuesQ (base sm) = true ->
  0 <= k < size sm ->
  iterator_deref sm {| row_index := r; index := k |} = Ret (ev_get (base sm) k).
Proof.
  intros Hok Hev Hk. unfold iterator_deref, ev_at, ev_get. cbn [index].
  destruct (csr_ok_spec T sm Hok) as (_ & _ & _ & _ & _ & Hvals).
  unfold explicitValuesQ in Hev.
  destruct (ev (base sm)) as [vals|]; [|discriminate].
  specialize (Hvals vals eq_refl).
  unfold size, SparseArrayRef_size, SparseArrayRef_length in Hk.
  apply tensor_at_Ret. lia.
Qed.

(** The loop on a matrix with fewer stored entries than rows. *)
Lemma traverse_from_capped (sm : SparseMatrixRef T) :
  csr_ok sm = true -> explicitValuesQ (base sm) = true ->
  size sm < nrows sm ->
  forall (fuel : nat) (r k : Z),
    (Z.to_nat (size sm - k) <= fuel)%nat ->
    at_row sm r k = true ->
    traverse_from fuel sm {| row_index := Z.min r (size sm); index := k |}
    = Ret (capped_entries sm (entries_from sm r k)).
Proof.
  intros Hok Hev Hfew.
  pose proof (size_is_last_row_pointer sm Hok) as Hsize.
  destruct (csr_ok_spec T sm Hok) as (_ & _ & Hfirst & _).
  induction fuel as [|fuel IH]; intros r k Hfuel Hat;
    pose proof Hat as [Hr Hk]%at_row_spec;
    pose proof (row_pointers_monotone T sm Hok 0 r);
    pose proof (row_pointers_monotone T sm Hok (r + 1) (nrows sm));
    [lia|].
  cbn [traverse_from]. unfold iterator_ne, SparseMatrixRef_end. cbn [index].
  destruct (Z.eqb_spec k (size sm)) as [|_]; [lia|]. cbn [negb].
  rewrite iterator_col_stored by lia. simpl.
  rewrite iterator_deref_stored by (assumption || lia). simpl.
  unfold iterator_row. cbn [row_index].
  destruct (Z.eq_dec (k + 1) (size sm)) as [Hlast|Hmore].
  - rewrite (entries_from_last sm r k Hok Hat Hlast).
    assert (Hinc : exists m, iterator_incr sm {| row_index := Z.min r (size sm); index := k |}
                             = Ret {| row_index := m; index := size sm |}).
    { unfold iterator_incr. cbn [row_index index]. rewrite Hlast.
      destruct (Z.lt_ge_cases r (size sm)) as [Hlt|Hge].
      - replace (Z.min r (size sm)) with r by lia.
        rewrite (advance_row_to_size sm Hok); [|lia|lia|].
        + destruct (Z.leb_spec (nrows sm) (size sm)); [lia|]. now eexists.
        + intros q Hq.
          pose proof (row_pointers_monotone T sm Hok (r + 1) (q + 1)).
          pose proof (row_pointers_monotone T sm Hok (q + 1) (nrows sm)). lia.
      - rewrite advance_row_stuck by (assumption || lia). now eexists. }
    destruct Hinc as [m ->]. simpl.
    destruct fuel; simpl; [reflexivity|].
    unfold iterator_ne. cbn [index]. rewrite Z.eqb_refl. reflexivity.
  - destruct (row_exists sm (k + 1) Hok) as [r' Hat']; [lia|].
    destruct (rows_between sm r r' k Hok Hat Hat') as [Hle Hrun].
    pose proof Hat' as [Hr' Hk']%at_row_spec.
    rewrite (entries_from_step sm r r' k Hok Hat Hat').
    assert (Hinc : iterator_incr sm {| row_index := Z.min r (size sm); index := k |}
                   = Ret {| row_index := Z.min r' (size sm); index := k + 1 |}).
    { unfold iterator_incr. cbn [row_index index].
      destruct (Z.le_gt_cases r (size sm)) as [Hlt|Hge].
      - replace (Z.min r (size sm)) with r by lia.
        rewrite (advance_row_spec sm (k + 1) r' Hok Hat'); [|lia|lia|exact Hrun].
        simpl. do 2 f_equal. lia.
      - rewrite advance_row_stuck by (assumption || lia).
        simpl. do 2 f_equal. lia. }
    rewrite Hinc. simpl. rewrite IH by (assumption || lia). reflexivity.
Qed.

(** The loop on a matrix with at least as many stored entries as rows. *)
Lemma traverse_from_runs_off (sm : SparseMatrixRef T) :
  csr_ok sm = true -> explicitValuesQ (base sm) = true ->
  nrows sm <= size sm ->
  forall (fuel : nat) (r k : Z),
    (Z.to_nat (size sm - k) <= fuel)%nat ->
    at_row sm r k = true ->
    traverse_from fuel sm {| row_index := r; index := k |} = Undefined.
Proof.
  intros Hok Hev Hmany.
  pose proof (size_is_last_row_pointer sm Hok) as Hsize.
  destruct (csr_ok_spec T sm Hok) as (_ & _ & Hfirst & _).
  induction fuel as [|fuel IH]; intros r k Hfuel Hat;
    pose proof Hat as [Hr Hk]%at_row_spec;
    pose proof (row_pointers_monotone T sm Hok 0 r);
    pose proof (row_pointers_monotone T sm Hok (r + 1) (nrows sm));
    [lia|].
  cbn [traverse_from]. unfold iterator_ne, SparseMatrixRef_end. cbn [index].
  destruct (Z.eqb_spec k (size sm)) as [|_]; [lia|]. cbn [negb].
  rewrite iterator_col_stored by lia. simpl.
  rewrite iterator_deref_stored by (assumption || lia). simpl.
  destruct (Z.eq_dec (k + 1) (size sm)) as [Hlast|Hmore].
  - unfold iterator_incr. cbn [row_index index]. rewrite Hlast.
    rewrite (advance_row_to_size sm Hok); [|lia|lia|].
    + destruct (Z.leb_spec (nrows sm) (size sm)); [reflexivity|lia].
    + intros q Hq.
      pose proof (row_pointers_monotone T sm Hok (r + 1) (q + 1)).
      pose proof (row_pointers_monotone T sm Hok (q + 1) (nrows sm)). lia.
  - destruct (row_exists sm (k + 1) Hok) as [r' Hat']; [lia|].
    destruct (rows_between sm r r' k Hok Hat Hat') as [Hle Hrun].
    pose proof Hat' as [Hr' Hk']%at_row_spec.
    unfold iterator_incr. cbn [row_index index].
    rewrite (advance_row_spec sm (k + 1) r' Hok Hat'); [|lia|lia|exact Hrun].
    replace (Z.min r' (Z.max r (size sm))) with r' by lia.
    simpl. rewrite IH by (assumption || lia). reflexivity.
Qed.

(** X9: the loop from [begin()] to [end()] over a matrix with explicit
    values.  With at least as many stored entries as rows it reads outside
    the row pointers ([begin()] on a matrix without rows, the last [++]
    otherwise); with fewer it visits every stored entry in storage order,
    with its column and value, and reports [min r size()] for an entry of
    row [r]. *)
Theorem traverse_outcome (sm : SparseMatrixRef T) :
  csr_ok sm = true -> explicitValuesQ (base sm) = true ->
  traverse sm
  = if rows sm <=? size sm then Undefined
    else Ret (capped_entries sm (explicit_entries sm)).
Proof.
  intros Hok Hev. unfold rows.
  pose proof (size_is_last_row_pointer sm Hok) as Hsize.
  destruct (csr_ok_spec T sm Hok) as (Hn & Hlen & Hfirst & _).
  unfold traverse.
  destruct (Z.eq_dec (size sm) 0) as [Hz|Hnz].
  - destruct (Z.leb_spec (nrows sm) (size sm)) as [Hle|Hgt].
    + assert (Hn0 : nrows sm = 0) by lia.
      unfold SparseMatrixRef_begin. rewrite Hz. simpl.
      rewrite (tensor_at_outside (rp (base sm)) (0 + 1)) by lia. reflexivity.
    + destruct (advance_row_begin_returns T sm Hok (Z.to_nat (size sm - 0)) 0) as [r Hr];
        [lia|].
      assert (Hnone : explicit_entries sm = []).
      { unfold explicit_entries. replace (nrows sm) with (nrows sm - 0) by lia.
        apply rows_without_entries_between; (assumption || lia). }
      rewrite Hnone.
      unfold SparseMatrixRef_begin. rewrite Hr. simpl. rewrite Hz. reflexivity.
  - assert (Hpos : 0 < size sm).
    { unfold size, SparseArrayRef_size, SparseArrayRef_length in *. lia. }
    destruct (row_exists sm 0 Hok) as [r0 Hat]; [lia|].
    pose proof Hat as [Hr Hk]%at_row_spec.
    rewrite (begin_row sm r0 Hok Hat). simpl.
    destruct (Z.leb_spec (nrows sm) (size sm)) as [Hle|Hgt].
    + replace (Z.min r0 (size sm)) with r0 by lia.
      apply traverse_from_runs_off; (assumption || lia).
    + rewrite (explicit_entries_from_first sm r0 Hok Hat).
      apply traverse_from_capped; (assumption || lia).
Qed.


End MoreSparseMatrixProperties.

(** The read of the stored entry at offset 3 of the sample matrix: row 2,
    column 1. *)
Lemma stored_entry_is_read_back_witness :
  csr_ok sm_sample = true /\ columns_strict sm_sample = true
  /\ explicitValuesQ (base sm_sample) = true
  /\ SparseMatrixRef_index sm_sample 2 1 = Ret 6.
Proof.
  repeat (split; [reflexivity|]).
  apply (stored_entry_is_read_back Z sm_sample 2 3);
    first [reflexivity | unfold rows; simpl; lia | unfold zget; simpl; lia].
Defined.

(** The read at column 9 of row 0 of the sample matrix, which has four
    columns. *)
Lemma absent_position_reads_implicit_witness :
  csr_ok sm_sample = true /\ cols sm_sample = 4
  /\ SparseMatrixRef_index sm_sample 0 9 = Ret 9.
Proof.
  split; [reflexivity|]. split; [reflexivity|].
  apply (absent_position_reads_implicit Z sm_sample 0 9);
    first [reflexivity | unfold rows; simpl; lia | lia].
Defined.

(** The read at the row after the last one of the sample matrix. *)
Lemma row_outside_is_undefined_witness :
  rows sm_sample = 3 /\ SparseMatrixRef_index sm_sample 3 0 = Undefined.
Proof.
  split; [reflexivity|].
  apply (row_outside_is_undefined Z sm_sample 3 0); [reflexivity|reflexivity|].
  right. unfold rows. simpl. lia.
Defined.

(** The one stored entry of [sm_last_row] lies in row 2, and the matrix
    stores one entry. *)
Lemma begin_row_is_min_of_first_row_and_size_witness :
  csr_ok sm_last_row = true /\ at_row sm_last_row 2 0 = true
  /\ SparseMatrixRef_begin sm_last_row = Ret {| row_index := 1; index := 0 |}.
Proof.
  split; [reflexivity|]. split; [reflexivity|].
  apply (proj1 (begin_row_is_min_of_first_row_and_size Z sm_last_row 2 eq_refl eq_refl)).
Defined.

(** The increment over the empty row 1 of the sample matrix. *)
Lemma increment_row_is_min_of_next_row_and_size_witness :
  at_row sm_sample 0 1 = true /\ at_row sm_sample 2 2 = true
  /\ iterator_incr sm_sample {| row_index := 0; index := 1 |}
     = Ret {| row_index := 2; index := 2 |}.
Proof.
  split; [reflexivity|]. split; [reflexivity|].
  apply (proj1 (increment_row_is_min_of_next_row_and_size Z sm_sample 0 2 1
                  eq_refl eq_refl eq_refl)).
Defined.

(** The decrement from [end()] of the sample matrix. *)
Lemma decrement_reaches_previous_entry_witness :
  exists r', iterator_decr sm_sample (SparseMatrixRef_end sm_sample)
             = Ret {| row_index := r'; index := 4 |}
             /\ at_row sm_sample r' 4 = true.
Proof.
  apply (decrement_reaches_previous_entry Z sm_sample (SparseMatrixRef_end sm_sample));
    [reflexivity | apply Z.leb_le; reflexivity | left; reflexivity].
Defined.

(** Over the empty row 1 of the sample matrix and back. *)
Lemma decrement_undoes_increment_witness :
  (it ← iterator_incr sm_sample {| row_index := 0; index := 1 |}; iterator_decr sm_sample it)
  = Ret {| row_index := 0; index := 1 |}.
Proof.
  apply (decrement_undoes_increment Z sm_sample 0 2 1); reflexivity.
Defined.

(** The increment from the last stored entry of the sample matrix, which
    stores five entries in three rows. *)
Lemma last_increment_outcome_witness :
  size sm_sample = 5 /\ rows sm_sample = 3
  /\ iterator_incr sm_sample {| row_index := 2; index := 4 |} = Undefined.
Proof.
  split; [reflexivity|]. split; [reflexivity|].
  apply (last_increment_outcome Z sm_sample 2 4); reflexivity.
Defined.

(** The loop over [sm_last_row], which stores one entry in three rows. *)
Lemma traverse_outcome_witness :
  explicit_entries sm_last_row = [(2, 0, 7)]
  /\ traverse sm_last_row = Ret [(1, 0, 7)].
Proof.
  split; [reflexivity|].
  apply (traverse_outcome Z sm_last_row); reflexivity.
Defined.

(** * The dense factories *)

(** ** [transposedCopy] *)

Section TransposedCopyProperties.

Variables A B : Type.
Variable conv : A -> B.

Lemma tensor_at_in_range {X : Type} (d : list X) (i : Z) :
  0 <= i < Z.of_nat (length d) -> exists x, tensor_at d i = Ret x.
Proof.
  intros Hi. unfold tensor_at. destruct (Z.leb_spec 0 i); [|lia].
  destruct (lookup_lt_is_Some_2 d (Z.to_nat i)) as [x Hx]; [lia|].
  rewrite Hx. now exists x.
Qed.

(** The inner loop: column [i] of the source, over the rows [js]. *)
Lemma transposedCopy_rows_spec (from : list A) (nrow ncol i : Z) :
  0 <= i < ncol ->
  nrow * ncol <= Z.of_nat (length from) ->
  forall (js : list Z) (to : list B),
    (forall j, j ∈ js -> 0 <= j < nrow) ->
    nrow * ncol <= Z.of_nat (length to) ->
    exists to',
      transposedCopy_rows conv from to nrow ncol i js = Ret to'
      /\ length to' = length to
      /\ (forall j, j ∈ js ->
            exists x, tensor_at from (j + i * nrow) = Ret x
                      /\ tensor_at to' (i + j * ncol) = Ret (conv x))
      /\ (forall k, 0 <= k -> (forall j, j ∈ js -> k <> i + j * ncol) ->
            tensor_at to' k = tensor_at to k).
Proof.
  intros Hi Hfrom. induction js as [|j js IH]; intros to Hjs Hto.
  - exists to. split; [reflexivity|]. split; [reflexivity|]. split; [|reflexivity].
    intros j Hj. now apply elem_of_nil in Hj.
  - assert (Hj : 0 <= j < nrow) by (apply Hjs; left).
    pose proof (mixed_radix_bound i j ncol nrow Hi Hj) as Hsrc.
    pose proof (mixed_radix_bound j i nrow ncol Hj Hi) as Hdst.
    destruct (tensor_at_in_range from (j + i * nrow)) as [x Hx]; [lia|].
    destruct (tensor_set_then_at to (i + j * ncol) (conv x)) as [Hset Hget]; [lia|].
    destruct (IH (<[Z.to_nat (i + j * ncol) := conv x]> to)) as (to' & Hrun & Hlen & Hin & Hout).
    { intros j' Hj'. apply Hjs. now right. }
    { rewrite length_insert. exact Hto. }
    exists to'. cbn [transposedCopy_rows]. rewrite Hx. simpl. rewrite Hset. simpl.
    split; [exact Hrun|]. split; [now rewrite Hlen, length_insert|]. split.
    + intros j0 Hj0. destruct (decide (j0 ∈ js)) as [Hmem|Hnot]; [now apply Hin|].
      apply elem_of_cons in Hj0. destruct Hj0 as [->|Hmem]; [|contradiction].
      exists x. split; [exact Hx|]. rewrite Hout; [exact Hget|lia|].
      intros j' Hj' Heq. assert (j' = j) by nia. subst j'. contradiction.
    + intros k Hk Hne. rewrite Hout; [|exact Hk|].
      * apply tensor_set_other; [lia|exact Hk|]. intros Heq. apply (Hne j); [left|lia].
      * intros j' Hj'. apply Hne. now right.
Qed.

(** The outer loop, over the columns [cs] of the source. *)
Lemma transposedCopy_cols_spec (from : list A) (nrow ncol : Z) :
  0 <= nrow ->
  nrow * ncol <= Z.of_nat (length from) ->
  forall (cs : list Z) (to : list B),
    (forall i, i ∈ cs -> 0 <= i < ncol) ->
    nrow * ncol <= Z.of_nat (length to) ->
    exists to',
      transposedCopy_cols conv from to nrow ncol cs = Ret to'
      /\ length to' = length to
      /\ (forall i j, i ∈ cs -> 0 <= j < nrow ->
            exists x, tensor_at from (j + i * nrow) = Ret x
                      /\ tensor_at to' (i + j * ncol) = Ret (conv x))
      /\ (forall k, 0 <= k ->
            (forall i j, i ∈ cs -> 0 <= j < nrow -> k <> i + j * ncol) ->
            tensor_at to' k = tensor_at to k).
Proof.
  intros Hnrow Hfrom. induction cs as [|i cs IH]; intros to Hcs Hto.
  - exists to. split; [reflexivity|]. split; [reflexivity|]. split; [|reflexivity].
    intros i j Hi. now apply elem_of_nil in Hi.
  - assert (Hi : 0 <= i < ncol) by (apply Hcs; left).
    destruct (transposedCopy_rows_spec from nrow ncol i Hi Hfrom (seqZ 0 nrow) to)
      as (to1 & Hrun1 & Hlen1 & Hin1 & Hout1); [|exact Hto|].
    { intros j Hj. apply elem_of_seqZ in Hj. lia. }
    destruct (IH to1) as (to' & Hrun & Hlen & Hin & Hout).
    { intros i' Hi'. apply Hcs. now right. }
    { now rewrite Hlen1. }
    exists to'. cbn [transposedCopy_cols]. rewrite Hrun1. simpl.
    split; [exact Hrun|]. split; [now rewrite Hlen, Hlen1|]. split.
    + intros i0 j Hi0 Hj. destruct (decide (i0 ∈ cs)) as [Hmem|Hnot]; [now apply Hin|].
      apply elem_of_cons in Hi0. destruct Hi0 as [->|Hmem]; [|contradiction].
      destruct (Hin1 j) as (x & Hx & Hget); [apply elem_of_seqZ; lia|].
      pose proof (mixed_radix_bound j i nrow ncol Hj Hi) as Hdst.
      exists x. split; [exact Hx|]. rewrite Hout; [exact Hget|lia|].
      intros i' j' Hi' Hj' Heq.
      assert (Hi'r : 0 <= i' < ncol) by (apply Hcs; now right).
      destruct (mixed_radix_injective j i j' i' ncol) as [_ Hii]; [lia|lia|lia|].
      subst i'. contradiction.
    + intros k Hk Hne. rewrite Hout; [|exact Hk|].
      * apply Hout1; [exact Hk|]. intros j Hj. apply elem_of_seqZ in Hj.
        apply Hne; [left|lia].
      * intros i' j' Hi' Hj'. apply Hne; [now right|exact Hj'].
Qed.

Lemma transposedCopy_spec (from : list A) (to : list B) (nrow ncol : Z) :
  0 <= nrow -> 0 <= ncol ->
  nrow * ncol <= Z.of_nat (length from) ->
  nrow * ncol <= Z.of_nat (length to) ->
  exists to',
    transposedCopy conv from to nrow ncol = Ret to'
    /\ length to' = length to
    /\ (forall r c, 0 <= r < nrow -> 0 <= c < ncol ->
          exists x, tensor_at from (r + c * nrow) = Ret x
                    /\ tensor_at to' (c + r * ncol) = Ret (conv x))
    /\ (forall k, nrow * ncol <= k -> tensor_at to' k = tensor_at to k).
Proof.
  intros Hnrow Hncol Hfrom Hto. unfold transposedCopy.
  destruct (transposedCopy_cols_spec from nrow ncol Hnrow Hfrom (seqZ 0 ncol) to)
    as (to' & Hrun & Hlen & Hin & Hout); [|exact Hto|].
  { intros i Hi. apply elem_of_seqZ in Hi. lia. }
  exists to'. split; [exact Hrun|]. split; [exact Hlen|]. split.
  - intros r c Hr Hc. apply Hin; [apply elem_of_seqZ; lia|exact Hr].
  - intros k Hk. apply Hout.
    + assert (0 <= nrow * ncol) by (apply Z.mul_nonneg_nonneg; lia). lia.
    + intros i j Hi Hj. apply elem_of_seqZ in Hi.
      pose proof (mixed_radix_bound j i nrow ncol ltac:(lia) ltac:(lia)). lia.
Qed.

End TransposedCopyProperties.

Section TransposedCopyTheorems.

Variables A B C : Type.

(** X10: on buffers that hold [nrow * ncol] elements [transposedCopy]
    returns; the element at row [r] and column [c] of the row-major
    destination is the converted element at row [r] and column [c] of the
    column-major source, and the destination is unchanged from the offset
    [nrow * ncol] on. *)
Theorem transposedCopy_transposes (conv : A -> B) (from : list A) (to : list B)
        (nrow ncol : Z) :
  0 <= nrow -> 0 <= ncol ->
  nrow * ncol <= Z.of_nat (length from) ->
  nrow * ncol <= Z.of_nat (length to) ->
  exists to',
    transposedCopy conv from to nrow ncol = Ret to'
    /\ length to' = length to
    /\ (forall r c x, 0 <= r < nrow -> 0 <= c < ncol ->
          from !! Z.to_nat (r + c * nrow) = Some x ->
          to' !! Z.to_nat (c + r * ncol) = Some (conv x))
    /\ (forall k : nat, nrow * ncol <= Z.of_nat k -> to' !! k = to !! k).
Proof.
  intros Hnrow Hncol Hfrom Hto.
  destruct (transposedCopy_spec A B conv from to nrow ncol Hnrow Hncol Hfrom Hto)
    as (to' & Hrun & Hlen & Hin & Hout).
  exists to'. split; [exact Hrun|]. split; [exact Hlen|]. split.
  - intros r c x Hr Hc Hx. destruct (Hin r c Hr Hc) as (x' & Hx' & Hget).
    pose proof (mixed_radix_bound c r ncol nrow Hc Hr).
    pose proof (mixed_radix_bound r c nrow ncol Hr Hc).
    unfold tensor_at in Hx', Hget.
    destruct (Z.leb_spec 0 (r + c * nrow)); [|lia].
    destruct (Z.leb_spec 0 (c + r * ncol)); [|lia].
    rewrite Hx in Hx'. injection Hx' as <-.
    destruct (to' !! Z.to_nat (c + r * ncol)); [|discriminate]. now injection Hget as ->.
  - intros k Hk. specialize (Hout (Z.of_nat k) Hk). unfold tensor_at in Hout.
    destruct (Z.leb_spec 0 (Z.of_nat k)); [|lia]. rewrite Nat2Z.id in Hout.
    assert (Hsame : length to' = length to) by exact Hlen.
    destruct (to' !! k) eqn:H1, (to !! k) eqn:H2; try congruence.
Qed.

(** X11: [transposedCopy] of an [nrow] x [ncol] array followed by
    [transposedCopy] of the result with the dimensions exchanged gives the
    elements of the array back, in their order, each converted twice. *)
Theorem transposedCopy_twice (f : A -> B) (g : B -> C)
        (from : list A) (mid : list B) (to : list C) (nrow ncol : Z) :
  0 <= nrow -> 0 <= ncol ->
  nrow * ncol <= Z.of_nat (length from) ->
  nrow * ncol <= Z.of_nat (length mid) ->
  nrow * ncol <= Z.of_nat (length to) ->
  exists mid' to',
    transposedCopy f from mid nrow ncol = Ret mid'
    /\ transposedCopy g mid' to ncol nrow = Ret to'
    /\ (forall (k : nat) x, Z.of_nat k < nrow * ncol ->
          from !! k = Some x -> to' !! k = Some (g (f x))).
Proof.
  intros Hnrow Hncol Hfrom Hmid Hto.
  destruct (transposedCopy_spec A B f from mid nrow ncol Hnrow Hncol Hfrom Hmid)
    as (mid' & Hrun1 & Hlen1 & Hin1 & _).
  destruct (transposedCopy_spec B C g mid' to ncol nrow Hncol Hnrow)
    as (to' & Hrun2 & Hlen2 & Hin2 & _); [rewrite Hlen1; lia|lia|].
  exists mid', to'. split; [exact Hrun1|]. split; [exact Hrun2|].
  intros k x Hk Hx.
  assert (Hpos : 0 < nrow).
  { destruct (Z.eq_dec nrow 0) as [->|]; lia. }
  set (c := Z.of_nat k `div` nrow). set (r := Z.of_nat k `mod` nrow).
  assert (Hkrc : Z.of_nat k = r + c * nrow).
  { unfold r, c. rewrite (Z.div_mod (Z.of_nat k) nrow) at 1 by lia. lia. }
  assert (Hr : 0 <= r < nrow) by (apply Z.mod_pos_bound; lia).
  assert (Hc : 0 <= c < ncol).
  { split; [apply Z.div_pos; lia|]. apply Z.div_lt_upper_bound; lia. }
  destruct (Hin1 r c Hr Hc) as (x1 & Hx1 & Hget1).
  destruct (Hin2 c r Hc Hr) as (x2 & Hx2 & Hget2).
  rewrite Hget1 in Hx2. injection Hx2 as <-.
  rewrite <- Hkrc in Hx1, Hget2. unfold tensor_at in Hx1, Hget2.
  destruct (Z.leb_spec 0 (Z.of_nat k)); [|lia]. rewrite Nat2Z.id in Hx1, Hget2.
  rewrite Hx in Hx1. injection Hx1 as <-.
  destruct (to' !! k); [|discriminate]. now injection Hget2 as ->.
Qed.
End TransposedCopyTheorems.

(** ** Tensors from initializer lists and arrays *)

Section DenseFactoryProperties.

Variable T : Type.
Variable T_type : Z.
Variable T_zero : T.
Variable NDEBUG : bool.

Lemma M_bind_assoc {A B C : Type} (m : M T A) (f : A -> M T B) (g : B -> M T C) (h : host T) :
  ((m ≫= f) ≫= g) h = (m ≫= (λ a, f a ≫= g)) h.
Proof. unfold mbind, M_bind. destruct (m h) as [[a|e|] h1]; reflexivity. Qed.

Lemma M_bind_ext {A B : Type} (m : M T A) (f g : A -> M T B) (h : host T) :
  (forall a h', f a h' = g a h') -> (m ≫= f) h = (m ≫= g) h.
Proof. intros Hfg. unfold mbind, M_bind. destruct (m h) as [[a|e|] h1]; auto. Qed.

Lemma M_bind_Undefined {A B : Type} (m : M T A) (f : A -> M T B) (h : host T) :
  (m h).1 = Undefined -> ((m ≫= f) h).1 = Undefined.
Proof.
  unfold mbind, M_bind. destruct (m h) as [[a|e|] h1]; simpl; intros Hm;
    (discriminate || reflexivity).
Qed.

(** [std::copy] from a list and the inner loop of the nested-list factory
    are the same run of writes. *)
Lemma std_copy_writes (t : MTensor) (l : list T) :
  forall (ptr : Z) (h : host T), std_copy t ptr l h = makeMatrix_row t ptr l h.
Proof.
  induction l as [|el l IH]; intros ptr h; [reflexivity|].
  cbn [std_copy makeMatrix_row]. apply M_bind_ext. intros _ h'. apply IH.
Qed.

(** A run of writes that fits the tensor: the elements written and the
    elements kept. *)
Lemma makeMatrix_row_writes (n p : positive) (es : list Z) :
  forall (row : list T) (ptr : Z) (mp : gmap positive (tensor_obj T)) (obj : tensor_obj T),
    mp !! n = Some obj ->
    0 <= ptr ->
    ptr + Z.of_nat (length row) <= Z.of_nat (length (t_data obj)) ->
    exists d,
      makeMatrix_row (Some n) ptr row (mkHost mp p es)
      = (Ret (ptr + Z.of_nat (length row)),
         mkHost (<[n := {| t_type := t_type obj; t_dims := t_dims obj; t_data := d |}]> mp)
                p es)
      /\ length d = length (t_data obj)
      /\ (forall (k : nat) (el : T), row !! k = Some el ->
            d !! (Z.to_nat ptr + k)%nat = Some (ElemCell el))
      /\ (forall k : nat,
            Z.of_nat k < ptr \/ ptr + Z.of_nat (length row) <= Z.of_nat k ->
            d !! k = t_data obj !! k).
Proof.
  induction row as [|el row IH]; intros ptr mp obj Hn Hptr Hlen.
  - exists (t_data obj). destruct obj as [ty dm dt]. cbn [t_type t_dims t_data].
    rewrite (insert_id mp n _ Hn). cbn [makeMatrix_row length Z.of_nat].
    rewrite Z.add_0_r. split; [reflexivity|]. split; [reflexivity|].
    split; [intros k el' Hk; discriminate|reflexivity].
  - cbn [makeMatrix_row]. cbn [length] in Hlen.
    destruct (tensor_set_then_at (t_data obj) ptr (ElemCell el)) as [Hset _]; [lia|].
    erewrite (M_bind_Ret T) by (eapply tensor_write_live; [exact Hn|exact Hset]).
    set (obj1 := {| t_type := t_type obj; t_dims := t_dims obj;
                    t_data := <[Z.to_nat ptr := ElemCell el]> (t_data obj) |}).
    destruct (IH (ptr + 1) (<[n := obj1]> mp) obj1) as (d & Hrun & Hd & Hin & Hout).
    + apply lookup_insert_eq.
    + lia.
    + unfold obj1. cbn [t_data]. rewrite length_insert. lia.
    + exists d. rewrite Hrun, insert_insert_eq. unfold obj1 in *. cbn [t_type t_dims t_data] in *.
      rewrite length_insert in Hd.
      split; [do 2 f_equal; cbn [length]; lia|]. split; [exact Hd|]. split.
      * intros [|k] el' Hk.
        -- injection Hk as <-. rewrite Hout by lia.
           rewrite Nat.add_0_r. apply list_lookup_insert_eq. lia.
        -- replace (Z.to_nat ptr + S k)%nat with (Z.to_nat (ptr + 1) + k)%nat by lia.
           now apply Hin.
      * intros k Hk. rewrite Hout by (cbn [length] in Hk; lia).
        apply list_lookup_insert_ne. cbn [length] in Hk. lia.
Qed.

(** A run of writes that does not fit writes past the end of the data. *)
Lemma makeMatrix_row_overrun (n p : positive) (es : list Z) :
  forall (row : list T) (ptr : Z) (mp : gmap positive (tensor_obj T)) (obj : tensor_obj T),
    mp !! n = Some obj ->
    0 <= ptr <= Z.of_nat (length (t_data obj)) ->
    Z.of_nat (length (t_data obj)) < ptr + Z.of_nat (length row) ->
    (makeMatrix_row (Some n) ptr row (mkHost mp p es)).1 = Undefined.
Proof.
  induction row as [|el row IH]; intros ptr mp obj Hn Hptr Hlen;
    cbn [length] in Hlen; [lia|].
  cbn [makeMatrix_row].
  destruct (Z.eq_dec ptr (Z.of_nat (length (t_data obj)))) as [Heq|Hne].
  - apply M_bind_Undefined. unfold tensor_write. cbn [tensors]. rewrite Hn.
    unfold tensor_set. destruct (Z.leb_spec 0 ptr); [|reflexivity].
    destruct (Z.ltb_spec ptr (Z.of_nat (length (t_data obj)))); [lia|reflexivity].
  - destruct (tensor_set_then_at (t_data obj) ptr (ElemCell el)) as [Hset _]; [lia|].
    erewrite (M_bind_Ret T) by (eapply tensor_write_live; [exact Hn|exact Hset]).
    eapply IH; [apply lookup_insert_eq| |]; cbn [t_data]; rewrite length_insert; lia.
Qed.

Lemma makeMatrix_row_app (t : MTensor) (a b : list T) :
  forall (ptr : Z) (h : host T),
    makeMatrix_row t ptr (a ++ b) h
    = (makeMatrix_row t ptr a ≫= λ ptr', makeMatrix_row t ptr' b) h.
Proof.
  induction a as [|el a IH]; intros ptr h; [reflexivity|].
  cbn [app makeMatrix_row]. rewrite M_bind_assoc.
  apply M_bind_ext. intros _ h'. apply IH.
Qed.

(** The two loops of the nested-list factory write the rows one after the
    other when no length check stops them. *)
Lemma makeMatrix_rows_flat (t : MatrixRef) (m : list (list T)) :
  NDEBUG = true \/ Forall (λ row, Z.of_nat (length row) = MatrixRef_cols t) m ->
  forall (ptr : Z) (h : host T),
    makeMatrix_rows NDEBUG t ptr m h = makeMatrix_row (tensor (mr_ref t)) ptr (concat m) h.
Proof.
  induction m as [|row m IH]; intros Hpass ptr h; [reflexivity|].
  cbn [makeMatrix_rows concat].
  assert (Hassert : massert NDEBUG (Z.of_nat (length row) =? MatrixRef_cols t) h = (Ret tt, h)).
  { destruct Hpass as [Hnd|Hall].
    - unfold massert. now rewrite Hnd.
    - apply massert_true. apply Z.eqb_eq. now inversion Hall. }
  erewrite (M_bind_Ret T) by exact Hassert.
  rewrite makeMatrix_row_app. apply M_bind_ext. intros ptr' h'.
  apply IH. destruct Hpass as [Hnd|Hall]; [now left|right; now inversion Hall].
Qed.

Lemma length_concat_rect (m : list (list T)) (nc : nat) :
  Forall (λ row, length row = nc) m -> length (concat m) = (length m * nc)%nat.
Proof.
  induction 1 as [|row m Hrow _ IH]; [reflexivity|].
  cbn [concat length]. rewrite length_app, IH, Hrow. lia.
Qed.

Lemma concat_lookup_rect (m : list (list T)) (nc : nat) :
  Forall (λ row, length row = nc) m ->
  forall (i j : nat) (row : list T) (el : T),
    m !! i = Some row -> row !! j = Some el ->
    concat m !! (nc * i + j)%nat = Some el.
Proof.
  induction 1 as [|row0 m Hrow0 _ IH]; intros i j row el Hi Hj; [discriminate|].
  cbn [concat]. destruct i as [|i].
  - injection Hi as ->. rewrite Nat.mul_0_r, Nat.add_0_l.
    rewrite lookup_app_l by (eapply lookup_lt_Some; eassumption). exact Hj.
  - rewrite lookup_app_r by (rewrite Hrow0, Nat.mul_succ_r; lia).
    rewrite Hrow0. replace (nc * S i + j - nc)%nat with (nc * i + j)%nat
      by (rewrite Nat.mul_succ_r; lia).
    now apply (IH i j row el).
Qed.

Lemma makeTensor_ok (m : gmap positive (tensor_obj T)) (p : positive) (es : list Z)
      (type : Z) (dims : list Z) :
  default 0 (head es) = 0 ->
  makeTensor T_type T_zero type dims (mkHost m p es)
  = (Ret {| tensor := Some p;
            len := Z.of_nat (length (replicate (Z.to_nat (flattened_length dims))
                                               (zero_cell T_type T_zero type))) |},
     mkHost (<[p := {| t_type := type; t_dims := dims;
                       t_data := replicate (Z.to_nat (flattened_length dims))
                                           (zero_cell T_type T_zero type) |}]> m)
            (Pos.succ p) (tail es)).
Proof.
  intros Hhd. unfold makeTensor.
  erewrite (M_bind_Ret T) by (apply MTensor_new_ok; exact Hhd).
  cbn [Z.eqb negb].
  erewrite TensorRef_of_live by (cbn [tensors]; apply lookup_insert_eq).
  reflexivity.
Qed.

Lemma tensor_read_live (h : host T) (p : positive) (obj : tensor_obj T) (i : nat) (c : cell T) :
  tensors h !! p = Some obj -> t_data obj !! i = Some c ->
  tensor_read (Some p) (Z.of_nat i) h = (Ret c, h).
Proof.
  intros Hp Hc. unfold tensor_read.
  erewrite (M_bind_Ret T) by (apply host_tensor_live; exact Hp).
  unfold lift, tensor_at. destruct (Z.leb_spec 0 (Z.of_nat i)); [|lia].
  now rewrite Nat2Z.id, Hc.
Qed.

(** X12: when the host allocates, [makeVector] from an initializer list
    returns a vector under a fresh handle with as many elements as the
    list, whose element [i] is the element [i] of the list; the other
    tensors of the host are unchanged. *)
Theorem makeVector_init_reads_back (l : list T) (h : host T) :
  host_ok 1 h = true ->
  exists t h',
    makeVector_init T_type T_zero l h = (Ret t, h')
    /\ tensor t = Some (next h)
    /\ TensorRef_size t = Z.of_nat (length l)
    /\ (forall p, p <> next h -> tensors h' !! p = tensors h !! p)
    /\ (forall (i : nat) (el : T), l !! i = Some el ->
          TensorRef_at t (Z.of_nat i) h' = (Ret (ElemCell el), h')).
Proof.
  intros Hok. destruct h as [mp n es]. cbn [next tensors].
  destruct (host_ok_head T 0 mp n es Hok) as [Hhd _].
  unfold makeVector_init, makeVector.
  erewrite (M_bind_Ret T) by (apply makeTensor_ok; exact Hhd).
  cbn [tensor]. rewrite length_replicate.
  assert (Hfl : Z.to_nat (flattened_length [Z.of_nat (length l)]) = length l).
  { unfold flattened_length. cbn [foldr]. lia. }
  rewrite Hfl.
  set (obj := {| t_type := T_type; t_dims := [Z.of_nat (length l)];
                 t_data := replicate (length l) (zero_cell T_type T_zero T_type) |}).
  destruct (makeMatrix_row_writes n (Pos.succ n) (tail es) l 0 (<[n := obj]> mp) obj)
    as (d & Hrun & Hd & Hin & _).
  { apply lookup_insert_eq. }
  { lia. }
  { unfold obj. cbn [t_data]. rewrite length_replicate. lia. }
  rewrite <- std_copy_writes in Hrun.
  erewrite (M_bind_Ret T) by exact Hrun.
  rewrite insert_insert_eq.
  eexists _, _. split; [reflexivity|]. cbn [tensor tensors TensorRef_size len].
  split; [reflexivity|]. split; [reflexivity|]. split.
  - intros p Hp. now rewrite lookup_insert_ne by congruence.
  - intros i el Hi. unfold TensorRef_at. cbn [tensor].
    eapply tensor_read_live; [cbn [tensors]; apply lookup_insert_eq|].
    cbn [t_data]. specialize (Hin i el Hi). exact Hin.
Qed.

(** X13: when the host allocates and all rows of the nested initializer list
    have one length, [makeMatrix] returns a matrix with as many rows as the
    list and as many columns as its rows have elements, and reading
    [(i, j)] gives the element [j] of row [i] of the list, with or without
    [NDEBUG]. *)
Theorem makeMatrix_init_reads_back (m : list (list T)) (nc : nat) (h : host T) :
  host_ok 1 h = true ->
  Forall (λ row, length row = nc) m ->
  exists t h',
    makeMatrix_init T_type T_zero NDEBUG m h = (Ret t, h')
    /\ tensor (mr_ref t) = Some (next h)
    /\ MatrixRef_rows t = Z.of_nat (length m)
    /\ (m <> [] -> MatrixRef_cols t = Z.of_nat nc)
    /\ (forall p, p <> next h -> tensors h' !! p = tensors h !! p)
    /\ (forall (i j : nat) (row : list T) (el : T),
          m !! i = Some row -> row !! j = Some el ->
          MatrixRef_at t (Z.of_nat i) (Z.of_nat j) h' = (Ret (ElemCell el), h')).
Proof.
  intros Hok Hrect. destruct h as [mp n es]. cbn [next tensors].
  destruct (host_ok_head T 0 mp n es Hok) as [Hhd _].
  unfold makeMatrix_init.
  set (c0 := match m with [] => 0 | row :: _ => Z.of_nat (length row) end).
  assert (Hc0 : m <> [] -> c0 = Z.of_nat nc).
  { destruct m as [|row m']; [congruence|]. intros _. unfold c0. f_equal.
    now inversion Hrect. }
  assert (Hcells : Z.of_nat (length m) * c0 = Z.of_nat (length (concat m))).
  { rewrite (length_concat_rect m nc Hrect). destruct m as [|row m']; [reflexivity|].
    rewrite Hc0 by congruence. lia. }
  erewrite (M_bind_Ret T) by (apply makeMatrix_ok; exact Hhd).
  set (obj := {| t_type := T_type; t_dims := [Z.of_nat (length m); c0];
                 t_data := replicate (Z.to_nat (flattened_length [Z.of_nat (length m); c0]))
                                     (zero_cell T_type T_zero T_type) |}).
  assert (Hfl : Z.to_nat (flattened_length [Z.of_nat (length m); c0]) = length (concat m)).
  { unfold flattened_length. cbn [foldr]. lia. }
  destruct (makeMatrix_row_writes n (Pos.succ n) (tail es) (concat m) 0 (<[n := obj]> mp) obj)
    as (d & Hrun & Hd & Hin & _).
  { apply lookup_insert_eq. }
  { lia. }
  { unfold obj. cbn [t_data]. rewrite length_replicate. lia. }
  cbv beta.
  erewrite (M_bind_Ret T).
  2:{ rewrite makeMatrix_rows_flat; [exact Hrun|].
      right. cbn [MatrixRef_cols mr_ncols].
      destruct m as [|row0 m']; [constructor|].
      rewrite Hc0 by congruence. eapply Forall_impl; [exact Hrect|].
      intros row Hrow. cbv beta in *. lia. }
  rewrite insert_insert_eq.
  eexists _, _. split; [reflexivity|].
  cbn [mr_ref tensor tensors MatrixRef_rows MatrixRef_cols mr_nrows mr_ncols].
  split; [reflexivity|]. split; [reflexivity|]. split; [exact Hc0|]. split.
  - intros p Hp. now rewrite lookup_insert_ne by congruence.
  - intros i j row el Hi Hj. unfold MatrixRef_at, MatrixRef_index, TensorRef_at.
    cbn [mr_ref mr_ncols tensor].
    assert (Hne : m <> []) by (intros ->; discriminate).
    rewrite (Hc0 Hne).
    replace (Z.of_nat nc * Z.of_nat i + Z.of_nat j) with (Z.of_nat (nc * i + j)) by lia.
    eapply tensor_read_live; [cbn [tensors]; apply lookup_insert_eq|].
    cbn [t_data]. apply (Hin (nc * i + j)%nat el).
    now apply (concat_lookup_rect m nc Hrect i j row el).
Qed.

(** X14: under [NDEBUG] the row lengths are not checked: a nested initializer
    list with more elements than rows times the length of its first row
    makes [makeMatrix] write past the end of the tensor. *)
Theorem makeMatrix_init_unchecked_overrun (m : list (list T)) (h : host T) :
  NDEBUG = true ->
  host_ok 1 h = true ->
  Z.of_nat (length m) * match m with [] => 0 | row :: _ => Z.of_nat (length row) end
  < Z.of_nat (length (concat m)) ->
  (makeMatrix_init T_type T_zero NDEBUG m h).1 = Undefined.
Proof.
  intros Hnd Hok Hover. destruct h as [mp n es].
  destruct (host_ok_head T 0 mp n es Hok) as [Hhd _].
  unfold makeMatrix_init.
  set (c0 := match m with [] => 0 | row :: _ => Z.of_nat (length row) end) in *.
  assert (Hc0 : 0 <= c0) by (unfold c0; destruct m; lia).
  erewrite (M_bind_Ret T) by (apply makeMatrix_ok; exact Hhd).
  cbv beta. apply M_bind_Undefined.
  rewrite makeMatrix_rows_flat by (now left).
  cbn [mr_ref tensor].
  eapply makeMatrix_row_overrun; [apply lookup_insert_eq|..]; cbn [t_data];
    rewrite length_replicate; unfold flattened_length; cbn [foldr]; nia.
Qed.


Lemma tensor_store_live (m : gmap positive (tensor_obj T)) (n : positive) (es : list Z)
      (p : positive) (obj : tensor_obj T) (d : list (cell T)) :
  m !! p = Some obj ->
  tensor_store (Some p) d (mkHost m n es)
  = (Ret tt, mkHost (<[p := {| t_type := t_type obj; t_dims := t_dims obj; t_data := d |}]> m)
                    n es).
Proof. intros Hp. unfold tensor_store. cbn [tensors]. now rewrite Hp. Qed.

(** X15: when the host allocates and the column-major array holds
    [nrow * ncol] elements, [makeMatrixTransposed] returns an [nrow] x [ncol]
    matrix whose element [(r, c)] is the converted element [r + c * nrow] of
    the array. *)
Theorem makeMatrixTransposed_reads_back {U : Type} (conv : U -> T) (nrow ncol : Z)
        (data : list U) (h : host T) :
  host_ok 1 h = true ->
  0 <= nrow -> 0 <= ncol ->
  nrow * ncol <= Z.of_nat (length data) ->
  exists t h',
    makeMatrixTransposed T_type T_zero conv nrow ncol data h = (Ret t, h')
    /\ tensor (mr_ref t) = Some (next h)
    /\ MatrixRef_rows t = nrow /\ MatrixRef_cols t = ncol
    /\ (forall p, p <> next h -> tensors h' !! p = tensors h !! p)
    /\ (forall (r c : Z) (x : U), 0 <= r < nrow -> 0 <= c < ncol ->
          data !! Z.to_nat (r + c * nrow) = Some x ->
          MatrixRef_at t r c h' = (Ret (ElemCell (conv x)), h')).
Proof.
  intros Hok Hnrow Hncol Hdata. destruct h as [mp n es]. cbn [next tensors].
  destruct (host_ok_head T 0 mp n es Hok) as [Hhd _].
  unfold makeMatrixTransposed.
  erewrite (M_bind_Ret T) by (apply makeMatrix_ok; exact Hhd).
  cbv beta zeta. cbn [mr_ref tensor].
  erewrite (M_bind_Ret T) by (apply host_tensor_live; cbn [tensors]; apply lookup_insert_eq).
  cbn [t_data].
  assert (Hcells : 0 <= nrow * ncol) by (apply Z.mul_nonneg_nonneg; lia).
  set (d0 := replicate (Z.to_nat (flattened_length [nrow; ncol])) (zero_cell T_type T_zero T_type)).
  assert (Hd0 : Z.of_nat (length d0) = nrow * ncol).
  { unfold d0. rewrite length_replicate. unfold flattened_length. cbn [foldr]. lia. }
  destruct (transposedCopy_spec U (cell T) (λ x, ElemCell (conv x)) data d0 nrow ncol)
    as (d & Hrun & Hlen & Hin & _); [lia..|].
  erewrite (M_bind_Ret T) by (unfold lift; rewrite Hrun; reflexivity).
  erewrite (M_bind_Ret T) by (apply tensor_store_live; apply lookup_insert_eq).
  rewrite insert_insert_eq. cbn [t_type t_dims].
  erewrite MatrixRef_of_live; [|cbn [tensors]; apply lookup_insert_eq|reflexivity].
  eexists _, _. split; [reflexivity|].
  cbn [mr_ref tensor tensors MatrixRef_rows MatrixRef_cols mr_nrows mr_ncols].
  split; [reflexivity|]. split; [reflexivity|]. split; [reflexivity|]. split.
  - intros p Hp. now rewrite lookup_insert_ne by congruence.
  - intros r c x Hr Hc Hx. destruct (Hin r c Hr Hc) as (x' & Hx' & Hget).
    pose proof (mixed_radix_bound c r ncol nrow Hc Hr).
    unfold tensor_at in Hx'. destruct (Z.leb_spec 0 (r + c * nrow)); [|lia].
    rewrite Hx in Hx'. injection Hx' as <-.
    unfold MatrixRef_at, MatrixRef_index, TensorRef_at, tensor_read. cbn [mr_ref mr_ncols tensor].
    erewrite (M_bind_Ret T) by (apply host_tensor_live; cbn [tensors]; apply lookup_insert_eq).
    cbn [t_data]. unfold lift.
    replace (ncol * r + c) with (c + r * ncol) by lia. now rewrite Hget.
Qed.

Lemma makeTensor_fails (m : gmap positive (tensor_obj T)) (p : positive) (es : list Z)
      (type : Z) (dims : list Z) :
  default 0 (head es) <> 0 ->
  makeTensor T_type T_zero type dims (mkHost m p es)
  = (Throw (LibraryError_msg "MTensor_new() failed." (default 0 (head es))),
     mkHost m p (tail es)).
Proof.
  intros Hhd. unfold makeTensor, MTensor_new, host_call_status, mbind, M_bind, mret, M_ret.
  cbn [host_errors tensors next].
  destruct (Z.eqb_spec (default 0 (head es)) 0) as [|_]; [contradiction|].
  destruct (Z.eqb_spec (default 0 (head es)) 0) as [|_]; [contradiction|].
  reflexivity.
Qed.

(** X16: when [MTensor_new] fails, every dense factory throws
    [LibraryError] with the message of [makeTensor] and the code of the host,
    and no tensor of the host is added, removed or written. *)
Theorem factories_throw_host_code {U : Type} (conv : U -> T) (e : Z) (h : host T)
        (type n1 n2 n3 : Z) (l : list T) (m : list (list T)) (data : list U) :
  default 0 (head (host_errors h)) = e ->
  e <> 0 ->
  let failed {X : Type} : outcome X * host T :=
    (Throw (LibraryError_msg "MTensor_new() failed." e),
     mkHost (tensors h) (next h) (tail (host_errors h))) in
  makeTensor T_type T_zero type [n1; n2; n3] h = failed
  /\ makeVector T_type T_zero type n1 h = failed
  /\ makeMatrix T_type T_zero type n1 n2 h = failed
  /\ makeCube T_type T_zero type n1 n2 n3 h = failed
  /\ makeVector_init T_type T_zero l h = failed
  /\ makeMatrix_init T_type T_zero NDEBUG m h = failed
  /\ makeMatrixTransposed T_type T_zero conv n1 n2 data h = failed.
Proof.
  intros He Hne failed. destruct h as [mp n es]. cbn [host_errors tensors next] in *.
  subst e. unfold failed.
  assert (Hf : forall type dims,
            makeTensor T_type T_zero type dims (mkHost mp n es)
            = (Throw (LibraryError_msg "MTensor_new() failed." (default 0 (head es))),
               mkHost mp n (tail es)))
    by (intros; now apply makeTensor_fails).
  repeat split.
  - apply Hf.
  - apply Hf.
  - unfold makeMatrix. erewrite (M_bind_Throw T) by apply Hf. reflexivity.
  - unfold makeCube. erewrite (M_bind_Throw T) by apply Hf. reflexivity.
  - unfold makeVector_init, makeVector. erewrite (M_bind_Throw T) by apply Hf. reflexivity.
  - unfold makeMatrix_init, makeMatrix.
    erewrite (M_bind_Throw T); [reflexivity|].
    erewrite (M_bind_Throw T) by apply Hf. reflexivity.
  - unfold makeMatrixTransposed, makeMatrix.
    erewrite (M_bind_Throw T); [reflexivity|].
    erewrite (M_bind_Throw T) by apply Hf. reflexivity.
Qed.



End DenseFactoryProperties.

(** ** Sparse arrays from positions: the error path *)

Section SparseFactoryProperties.

Variable T : Type.
Variable T_type : Z.
Variable T_zero : T.
Variable NDEBUG : bool.
Variable libData : WolframLibraryData T.

Lemma fromExplicitPositions_fails (m : gmap positive (tensor_obj T)) (n : positive)
      (es : list Z) (pos vals dims it : positive) (p v d i : tensor_obj T) :
  m !! pos = Some p -> m !! vals = Some v -> m !! dims = Some d -> m !! it = Some i ->
  default 0 (head es) <> 0 ->
  MSparseArray_fromExplicitPositions libData (Some pos) (Some vals) (Some dims) (Some it)
                                     (mkHost m n es)
  = (Ret (default 0 (head es), None), mkHost m n (tail es)).
Proof.
  intros Hp Hv Hd Hi Hhd.
  unfold MSparseArray_fromExplicitPositions, host_tensor, host_call_status,
    mbind, M_bind, mret, M_ret.
  repeat first [ progress cbn [tensors next host_errors]
               | rewrite Hp | rewrite Hv | rewrite Hd | rewrite Hi ].
  destruct (Z.eqb_spec (default 0 (head es)) 0) as [|_]; [contradiction|]. reflexivity.
Qed.

(** The host refuses to build the sparse array: the temporary rank-0 tensor
    is freed before the error code is tested. *)
Lemma makeSparseArray_fails (pos : MatrixRef) (vals dims : TensorRef) (imp : T)
      (m : gmap positive (tensor_obj T)) (n : positive) (e : Z) (es : list Z)
      (p v d : positive) (pobj vobj dobj : tensor_obj T) :
  tensor (mr_ref pos) = Some p -> tensor vals = Some v -> tensor dims = Some d ->
  m !! p = Some pobj -> m !! v = Some vobj -> m !! d = Some dobj ->
  m !! n = None ->
  MatrixRef_cols pos = TensorRef_size dims ->
  MatrixRef_rows pos = TensorRef_size vals ->
  e <> 0 ->
  makeSparseArray T_type T_zero NDEBUG libData pos vals dims imp (mkHost m n (0 :: e :: es))
  = (Throw (LibraryError_msg
              "makeSparseArray: MSparseArray_fromExplicitPositions() failed." e),
     mkHost m (Pos.succ n) es).
Proof.
  intros Htp Htv Htd Hp Hv Hd Hfresh Hcols Hrows Hne.
  assert (Hpn : n <> p) by (intros ->; congruence).
  assert (Hvn : n <> v) by (intros ->; congruence).
  assert (Hdn : n <> d) by (intros ->; congruence).
  unfold makeSparseArray.
  erewrite (M_bind_Ret T) by (apply massert_true; now apply Z.eqb_eq).
  erewrite (M_bind_Ret T) by (apply massert_true; now apply Z.eqb_eq).
  erewrite (M_bind_Ret T) by (apply MTensor_new_ok; reflexivity).
  cbn [Z.eqb negb next tensors host_errors tail].
  erewrite (M_bind_Ret T).
  2:{ eapply tensor_write_live; [apply lookup_insert_eq|reflexivity]. }
  rewrite insert_insert_eq. cbn [t_type t_dims].
  rewrite Htp, Htv, Htd.
  erewrite (M_bind_Ret T).
  2:{ eapply fromExplicitPositions_fails; try exact Hne;
        first [ apply lookup_insert_eq | rewrite lookup_insert_ne by assumption; eassumption ]. }
  change (default 0 (head (e :: es))) with e.
  cbv beta iota. cbn [tail].
  erewrite (M_bind_Ret T).
  2:{ eapply MTensor_free_live. cbn [tensors]. apply lookup_insert_eq. }
  cbn [next tensors host_errors].
  rewrite delete_insert_eq, (delete_id m n Hfresh).
  destruct (Z.eqb_spec e 0) as [|_]; [contradiction|]. reflexivity.
Qed.

(** X18: when [MSparseArray_fromExplicitPositions] fails, [makeSparseArray]
    throws with the code of the host after it has freed its temporary
    rank-0 tensor: the live tensors are those of before the call. *)
Theorem makeSparseArray_failure_frees_temporary
        (pos : MatrixRef) (vals dims : TensorRef) (imp : T) (h : host T) (e : Z) (es : list Z)
        (p v d : positive) (pobj vobj dobj : tensor_obj T) :
  tensor (mr_ref pos) = Some p -> tensor vals = Some v -> tensor dims = Some d ->
  tensors h !! p = Some pobj -> tensors h !! v = Some vobj -> tensors h !! d = Some dobj ->
  tensors h !! next h = None ->
  MatrixRef_cols pos = TensorRef_size dims ->
  MatrixRef_rows pos = TensorRef_size vals ->
  host_errors h = 0 :: e :: es ->
  e <> 0 ->
  exists h',
    makeSparseArray T_type T_zero NDEBUG libData pos vals dims imp h
    = (Throw (LibraryError_msg
                "makeSparseArray: MSparseArray_fromExplicitPositions() failed." e), h')
    /\ tensors h' = tensors h.
Proof.
  intros Htp Htv Htd Hp Hv Hd Hfresh Hcols Hrows Herr Hne.
  destruct h as [m n es0]. cbn [tensors next host_errors] in *. subst es0.
  exists (mkHost m (Pos.succ n) es).
  split; [eapply makeSparseArray_fails; eassumption|reflexivity].
Qed.


End SparseFactoryProperties.

(** * More of the images *)

Lemma pixel_iterator_incr_iter (a : pixel_iterator) (n : nat) :
  Nat.iter n pixel_iterator_incr a = pixel_iterator_add a (Z.of_nat n).
Proof.
  induction n as [|n IH].
  - unfold pixel_iterator_add. destruct a as [p s]. simpl. f_equal. lia.
  - change (Nat.iter (S n) pixel_iterator_incr a)
      with (pixel_iterator_incr (Nat.iter n pixel_iterator_incr a)).
    rewrite IH. unfold pixel_iterator_incr, pixel_iterator_add.
    cbn [ptr step]. rewrite Nat2Z.inj_succ. f_equal. lia.
Qed.

Lemma pixelBegin_step (g : GenericImageRef) (channel : Z) :
  0 < channels g -> 0 < step (pixelBegin g channel).
Proof. intros Hch. unfold pixelBegin. destruct (interleavedQ g); cbn [step]; lia. Qed.

(** X21: in an image with at least one channel, [n] increments of
    [pixelBegin(channel)] give [pixelBegin(channel) + n], and the result
    differs from [pixelEnd(channel)] unless [n] is [channelSize()]. *)
Theorem pixel_iterator_reaches_end (g : GenericImageRef) (channel : Z) (n : nat) :
  0 < channels g ->
  Nat.iter n pixel_iterator_incr (pixelBegin g channel)
  = pixel_iterator_add (pixelBegin g channel) (Z.of_nat n)
  /\ pixel_iterator_ne (Nat.iter n pixel_iterator_incr (pixelBegin g channel))
                       (pixelEnd g channel)
     = negb (Z.of_nat n =? channelSize g).
Proof.
  intros Hch. pose proof (pixelBegin_step g channel Hch) as Hstep.
  rewrite pixel_iterator_incr_iter. split; [reflexivity|].
  unfold pixel_iterator_ne, pixelEnd, pixel_iterator_add. cbn [ptr]. f_equal.
  destruct (Z.eqb_spec (Z.of_nat n) (channelSize g)) as [->|Hne].
  - apply Z.eqb_refl.
  - apply Z.eqb_neq. intros Heq. apply Hne.
    apply (Z.mul_cancel_r _ _ (step (pixelBegin g channel))); lia.
Qed.

(** X22: in either layout, the element [pixelBegin(channel)[n]] with [n] the
    row-major number of a pixel is the element [operator ()] addresses at
    that pixel and channel: for [Image3DRef] always, for [ImageRef] on an
    image of one slice. *)
Theorem pixel_iterator_addresses_pixel (g : GenericImageRef) (slice row col channel : Z) :
  pixel_iterator_at (pixelBegin g channel)
                    (slice * image_rows g * image_cols g + row * image_cols g + col)
  = Image3DRef_index g slice row col channel
  /\ (slices g = 1 ->
      pixel_iterator_at (pixelBegin g channel) (row * image_cols g + col)
      = ImageRef_index g row col channel).
Proof.
  unfold pixel_iterator_at, pixelBegin, Image3DRef_index, ImageRef_index, channelSize.
  split; [|intros Hs; rewrite Hs]; destruct (interleavedQ g); cbn [ptr step]; lia.
Qed.

Section PixelFrameProperties.

Variable P : Type.

(** X23: assigning to one channel of one pixel of a 2-D image changes the
    value read at that coordinate and at no other coordinate inside the
    image. *)
Theorem ImageRef_write_changes_one_pixel (im : ImageRef P) (row col channel : Z) (v : P) :
  image_ok im = true ->
  0 <= row < image_rows (generic im) ->
  0 <= col < image_cols (generic im) ->
  0 <= channel < channels (generic im) ->
  exists im',
    ImageRef_write im row col channel v = Ret im'
    /\ forall row' col' channel',
         0 <= row' < image_rows (generic im) ->
         0 <= col' < image_cols (generic im) ->
         0 <= channel' < channels (generic im) ->
         ImageRef_read im' row' col' channel'
         = if (row' =? row) && (col' =? col) && (channel' =? channel)
           then Ret v else ImageRef_read im row' col' channel'.
Proof.
  intros Hok Hr Hc Hch. unfold image_ok in Hok.
  apply andb_true_iff in Hok. destruct Hok as [Hsl Hlen]. apply Z.eqb_eq in Hlen.
  pose proof (ImageRef_index_in_range (generic im) row col channel Hr Hc Hch) as Hidx.
  destruct (tensor_set_then_at (image_data im)
              (ImageRef_index (generic im) row col channel) v) as [Hset Hget]; [lia|].
  unfold ImageRef_write. rewrite Hset. simpl.
  eexists. split; [reflexivity|].
  intros row' col' channel' Hr' Hc' Hch'. unfold ImageRef_read. cbn [generic image_data].
  pose proof (ImageRef_index_in_range (generic im) row' col' channel' Hr' Hc' Hch') as Hidx'.
  destruct ((row' =? row) && (col' =? col) && (channel' =? channel)) eqn:Hsame.
  - apply andb_true_iff in Hsame. destruct Hsame as [Hsame Hch_eq%Z.eqb_eq].
    apply andb_true_iff in Hsame. destruct Hsame as [Hr_eq%Z.eqb_eq Hc_eq%Z.eqb_eq].
    subst. exact Hget.
  - apply tensor_set_other; [lia|lia|]. intros Heq.
    destruct (ImageRef_index_injective (generic im) row col channel row' col' channel')
      as (-> & -> & ->); auto.
    now rewrite !Z.eqb_refl in Hsame.
Qed.
End PixelFrameProperties.

(** * Sample runs of the factories and of the pixel iterator *)

(** A 2 x 3 array in column-major order: row 0, column 1 holds 3. *)
Lemma transposedCopy_transposes_witness :
  exists to',
    transposedCopy (λ x : Z, x) [1; 2; 3; 4; 5; 6] (replicate 6 0) 2 3 = Ret to'
    /\ to' !! 1%nat = Some 3.
Proof.
  destruct (transposedCopy_transposes Z Z (λ x, x) [1; 2; 3; 4; 5; 6] (replicate 6 0) 2 3)
    as (to' & Hrun & _ & Hin & _); [lia|lia|simpl; lia|simpl; lia|].
  exists to'. split; [exact Hrun|].
  apply (Hin 0 1 3); [lia|lia|reflexivity].
Defined.

Lemma transposedCopy_twice_witness :
  exists mid' to',
    transposedCopy (λ x : Z, x + 1) [1; 2; 3; 4; 5; 6] (replicate 6 0) 2 3 = Ret mid'
    /\ transposedCopy (λ x : Z, 2 * x) mid' (replicate 6 0) 3 2 = Ret to'
    /\ to' !! 4%nat = Some 12.
Proof.
  destruct (transposedCopy_twice Z Z Z (λ x, x + 1) (λ x, 2 * x)
              [1; 2; 3; 4; 5; 6] (replicate 6 0) (replicate 6 0) 2 3)
    as (mid' & to' & Hfirst & Hsecond & Hk); [lia|lia|simpl; lia|simpl; lia|simpl; lia|].
  exists mid', to'. split; [exact Hfirst|]. split; [exact Hsecond|].
  apply (Hk 4%nat 5); [simpl; lia|reflexivity].
Defined.

Lemma makeVector_init_reads_back_witness :
  exists t h',
    makeVector_init MType_Integer 0 [7; 8; 9] (host_fresh []) = (Ret t, h')
    /\ TensorRef_at t 1 h' = (Ret (ElemCell 8), h').
Proof.
  destruct (makeVector_init_reads_back Z MType_Integer 0 [7; 8; 9] (host_fresh []) eq_refl)
    as (t & h' & Hrun & _ & _ & _ & Hread).
  exists t, h'. split; [exact Hrun|]. apply (Hread 1%nat 8). reflexivity.
Defined.

Lemma makeMatrix_init_reads_back_witness :
  exists t h',
    makeMatrix_init MType_Integer 0 false [[1; 2]; [3; 4]] (host_fresh []) = (Ret t, h')
    /\ MatrixRef_at t 1 0 h' = (Ret (ElemCell 3), h').
Proof.
  destruct (makeMatrix_init_reads_back Z MType_Integer 0 false [[1; 2]; [3; 4]] 2
              (host_fresh []) eq_refl)
    as (t & h' & Hrun & _ & _ & _ & _ & Hread); [repeat constructor|].
  exists t, h'. split; [exact Hrun|]. apply (Hread 1%nat 0%nat [3; 4] 3); reflexivity.
Defined.

(** Two rows, the first of one element, three elements in all. *)
Lemma makeMatrix_init_unchecked_overrun_witness :
  (makeMatrix_init MType_Integer 0 true [[1]; [2; 3]] (host_fresh [])).1 = Undefined.
Proof.
  apply (makeMatrix_init_unchecked_overrun Z MType_Integer 0 true [[1]; [2; 3]] (host_fresh []));
    [reflexivity|reflexivity|simpl; lia].
Defined.

Lemma makeMatrixTransposed_reads_back_witness :
  exists t h',
    makeMatrixTransposed MType_Integer 0 (λ x : Z, x) 2 3 [1; 2; 3; 4; 5; 6] (host_fresh [])
    = (Ret t, h')
    /\ MatrixRef_at t 1 2 h' = (Ret (ElemCell 6), h').
Proof.
  destruct (makeMatrixTransposed_reads_back Z MType_Integer 0 (λ x : Z, x) 2 3
              [1; 2; 3; 4; 5; 6] (host_fresh []) eq_refl)
    as (t & h' & Hrun & _ & _ & _ & _ & Hread); [lia|lia|simpl; lia|].
  exists t, h'. split; [exact Hrun|]. apply (Hread 1 2 6); [lia|lia|reflexivity].
Defined.

(** The host answers the allocation with the code 5. *)
Lemma factories_throw_host_code_witness :
  makeMatrix MType_Integer 0 MType_Integer 2 2 (host_fresh [5])
  = (Throw (LibraryError_msg "MTensor_new() failed." 5), host_fresh []).
Proof.
  pose proof (factories_throw_host_code Z MType_Integer 0 false (λ x : Z, x) 5 (host_fresh [5])
                MType_Integer 2 2 2 [] [] [] eq_refl ltac:(lia)) as Hall.
  cbv zeta in Hall. destruct Hall as (_ & _ & Hmatrix & _). exact Hmatrix.
Defined.


(** The host allocates the temporary tensor and answers the construction of
    the sparse array with the code 7. *)
Lemma makeSparseArray_failure_frees_temporary_witness :
  exists h',
    makeSparseArray MType_Integer 0 false sample_libData
      {| mr_ref := {| tensor := Some 1%positive; len := 0 |}; mr_nrows := 0; mr_ncols := 2 |}
      {| tensor := Some 2%positive; len := 0 |}
      {| tensor := Some 3%positive; len := 2 |} 0 (host_empty_positions [0; 7])
    = (Throw (LibraryError_msg
                "makeSparseArray: MSparseArray_fromExplicitPositions() failed." 7), h')
    /\ tensors h' = tensors (host_empty_positions [0; 7]).
Proof.
  apply (makeSparseArray_failure_frees_temporary Z MType_Integer 0 false sample_libData
           {| mr_ref := {| tensor := Some 1%positive; len := 0 |}; mr_nrows := 0; mr_ncols := 2 |}
           {| tensor := Some 2%positive; len := 0 |}
           {| tensor := Some 3%positive; len := 2 |} 0 (host_empty_positions [0; 7]) 7 []
           1%positive 2%positive 3%positive
           (int_tensor [0; 2] []) (int_tensor [0] []) (int_tensor [2] [3; 4]));
    first [reflexivity | lia].
Defined.


(** The host allocates the temporary tensor and answers the reset with the
    code 7. *)
Lemma resetImplicitValue_leaks_on_failure_witness :
  exists h',
    resetImplicitValue MType_Integer 0 sample_libData (base sm_sample) 4 (host_fresh [0; 7])
    = (Throw (LibraryError_msg "MSparseArray_resetImplicitValue() failed." 7), h')
    /\ tensors h' !! 1%positive
       = Some {| t_type := MType_Integer; t_dims := []; t_data := [ElemCell 4] |}.
Proof.
  apply (resetImplicitValue_leaks_on_failure Z MType_Integer 0 sample_libData
           (base sm_sample) 4 (host_fresh [0; 7]) 7 []);
    first [reflexivity | lia].
Defined.

(** Four increments on channel 0 of the interleaved 2 x 2 image. *)
Lemma pixel_iterator_reaches_end_witness :
  pixel_iterator_ne
    (Nat.iter 4 pixel_iterator_incr (pixelBegin (generic (image_2x2x2 true)) 0))
    (pixelEnd (generic (image_2x2x2 true)) 0)
  = false.
Proof.
  apply (proj2 (pixel_iterator_reaches_end (generic (image_2x2x2 true)) 0 4 eq_refl)).
Defined.

(** Pixel (1, 1) of channel 0 of the planar 2 x 2 image. *)
Lemma pixel_iterator_addresses_pixel_witness :
  pixel_iterator_at (pixelBegin (generic (image_2x2x2 false)) 0) 3
  = ImageRef_index (generic (image_2x2x2 false)) 1 1 0.
Proof.
  apply (proj2 (pixel_iterator_addresses_pixel (generic (image_2x2x2 false)) 0 1 1 0) eq_refl).
Defined.

Lemma ImageRef_write_changes_one_pixel_witness :
  exists im',
    ImageRef_write (image_2x2x2 true) 0 1 1 200 = Ret im'
    /\ ImageRef_read im' 0 1 1 = Ret 200
    /\ ImageRef_read im' 1 1 0 = ImageRef_read (image_2x2x2 true) 1 1 0.
Proof.
  destruct (ImageRef_write_changes_one_pixel Z (image_2x2x2 true) 0 1 1 200)
    as (im' & Hwrite & Hread);
    [reflexivity | simpl; lia | simpl; lia | simpl; lia |].
  exists im'. split; [exact Hwrite|]. split.
  - apply (Hread 0 1 1); simpl; lia.
  - apply (Hread 1 1 0); simpl; lia.
Defined.
